(** * A shallow embedding of [pkg/deque.go]

    The deque of the repository is a doubly linked list of heap nodes
    reached from a [Deque] header ([head], [tail], [len], [capacity]).
    The embedding keeps the pointers: the Go heap is an arena of nodes
    addressed by their index, a pointer is an optional address ([None]
    is Go's [nil]) and dereferencing [nil] panics, as it does in Go.
    Every method is a computation in a state-and-panic monad over the
    pair of the heap and the receiver.

    The mutex of the original is not modelled: all statements are about
    sequential executions, in which [Lock]/[Unlock] have no effect. *)

From Stdlib Require Import ZArith Lia Bool.
From stdpp Require Import base tactics option numbers list.

Local Open Scope Z_scope.

(** ** Go's [int] on a 64-bit platform *)

Module Int.

Definition min_int : Z := - 2 ^ 63.
Definition max_int : Z := 2 ^ 63 - 1.

(** Two's complement wrap-around of an arithmetic result. *)
Definition wrap (z : Z) : Z := (z + 2 ^ 63) mod 2 ^ 64 - 2 ^ 63.

Definition add (a b : Z) : Z := wrap (a + b).
Definition sub (a b : Z) : Z := wrap (a - b).
Definition neg (a : Z) : Z := wrap (- a).
(** Go's [/] truncates toward zero. *)
Definition div (a b : Z) : Z := wrap (Z.quot a b).

Arguments wrap : simpl never.
Arguments add : simpl never.
Arguments sub : simpl never.
Arguments neg : simpl never.
Arguments div : simpl never.

End Int.

(** ** Errors of [pkg/errors.go] *)

Inductive error : Type :=
| PopError
| PeekError (Index : Z).

(** ** Outcomes of a call *)

Inductive outcome (A : Type) : Type :=
| Return (a : A)
| Panic           (* a run-time panic: nil dereference, or [panic(err)] *)
| OutOfFuel.       (* the fuel of a pointer-chasing loop ran out *)

Arguments Return {A} a.
Arguments Panic {A}.
Arguments OutOfFuel {A}.

(** ** Nodes, the heap and the receiver *)

(** An address is an index into the heap; a pointer is an address or
    [nil]. *)
Abbreviation loc := nat (only parsing).
Abbreviation ptr := (option nat) (only parsing).
Abbreviation nil_ptr := (@None nat) (only parsing).

Section Model.

Variable T : Type.

Record node : Type := Node { value : T; next : ptr; prev : ptr }.

Record Deque : Type := mkDeque {
  head : ptr;
  tail : ptr;
  len : Z;
  capacity : Z
}.

Record state : Type := State { heap : list node; self : Deque }.

Definition M (A : Type) : Type := state -> outcome (A * state).

Definition ret {A} (a : A) : M A := fun s => Return (a, s).

Definition bind {A B} (m : M A) (k : A -> M B) : M B :=
  fun s =>
    match m s with
    | Return (a, s') => k a s'
    | Panic => Panic
    | OutOfFuel => OutOfFuel
    end.

Definition panic {A} : M A := fun _ => Panic.
Definition out_of_fuel {A} : M A := fun _ => OutOfFuel.

End Model.

Arguments Node {T}.
Arguments value {T}.
Arguments next {T}.
Arguments prev {T}.
Arguments State {T}.
Arguments heap {T}.
Arguments self {T}.
Arguments ret {T A}.
Arguments bind {T A B}.
Arguments panic {T A}.
Arguments out_of_fuel {T A}.

Declare Scope go_scope.
Delimit Scope go_scope with go.
Notation "x <- m ;; k" := (bind m (fun x => k))
  (at level 100, m at next level, k at level 200, right associativity) : go_scope.
Notation "m ;; k" := (bind m (fun _ => k))
  (at level 100, k at level 200, right associativity) : go_scope.

(** The zero value of an element type, what [var value T] declares. *)
Class ZeroValue (T : Type) : Type := zero : T.

(** Go's [==] on a [comparable] element type. It need not be equality:
    on floats [NaN == NaN] is false and [-0.0 == 0.0] is true, and on
    interface values that hold the same uncomparable dynamic type (a
    slice, a map, a function) the comparison panics, which is [None]
    here. *)
Class Comparable (T : Type) : Type := go_eq : T -> T -> option bool.

(** Elements are [comparable]. The decidable equality [EqDecision] is
    that of Rocq: it serves to check the invariant at concrete states
    and is not what the code compares with. *)
Section Deque.

Context {T : Type} `{EqDecision T} `{ZeroValue T} `{Comparable T}.

Local Open Scope go_scope.

Local Abbreviation M := (M T).

(** *** Field access on the receiver *)

Definition get_head : M ptr := fun s => Return (head (self s), s).
Definition get_tail : M ptr := fun s => Return (tail (self s), s).

Definition set_head (p : ptr) : M unit := fun s =>
  Return (tt, State (heap s)
    (mkDeque p (tail (self s)) (len (self s)) (capacity (self s)))).
Definition set_tail (p : ptr) : M unit := fun s =>
  Return (tt, State (heap s)
    (mkDeque (head (self s)) p (len (self s)) (capacity (self s)))).
Definition set_len (n : Z) : M unit := fun s =>
  Return (tt, State (heap s)
    (mkDeque (head (self s)) (tail (self s)) n (capacity (self s)))).

(** *** Heap access through a pointer; [nil] panics *)

Definition deref (p : ptr) : M (node T) := fun s =>
  match p with
  | None => Panic
  | Some l =>
      match heap s !! l with
      | Some nd => Return (nd, s)
      | None => Panic
      end
  end.

Definition store (p : ptr) (f : node T -> node T) : M unit := fun s =>
  match p with
  | None => Panic
  | Some l =>
      match heap s !! l with
      | Some nd => Return (tt, State (<[l := f nd]> (heap s)) (self s))
      | None => Panic
      end
  end.

Definition get_value (p : ptr) : M T := nd <- deref p ;; ret (value nd).
Definition get_next (p : ptr) : M ptr := nd <- deref p ;; ret (next nd).
Definition get_prev (p : ptr) : M ptr := nd <- deref p ;; ret (prev nd).
Definition set_next (p q : ptr) : M unit :=
  store p (fun nd => Node (value nd) q (prev nd)).
Definition set_prev (p q : ptr) : M unit :=
  store p (fun nd => Node (value nd) (next nd) q).

(** [&node[T]{value, nil, nil}] *)
Definition new_node (v : T) : M ptr := fun s =>
  Return (Some (length (heap s)),
          State (heap s ++ [Node v nil_ptr nil_ptr]) (self s)).

(** *** Constructors *)

Definition NewDeque (capacity : Z) : Deque :=
  mkDeque nil_ptr nil_ptr 0 capacity.

Definition NewUnlimitedDeque : Deque := NewDeque (-1).

(** *** Capacity queries *)

Definition GetLen : M Z := fun s => Return (len (self s), s).
Definition IsEmpty : M bool := l <- GetLen ;; ret (l =? 0).
Definition GetCapacity : M Z := fun s => Return (capacity (self s), s).
Definition IsUnlimited : M bool := c <- GetCapacity ;; ret (c <? 0).
Definition IsFull : M bool :=
  u <- IsUnlimited ;; l <- GetLen ;; c <- GetCapacity ;;
  ret (negb u && (c <=? l)).
Definition isOverflowing : M bool :=
  u <- IsUnlimited ;; l <- GetLen ;; c <- GetCapacity ;;
  ret (negb u && (c <? l)).

(** *** Removal *)

Definition tryPop : M (T * option error) :=
  let value := zero in
  l <- GetLen ;;
  if l =? 0 then ret (value, Some PopError)
  else
    (if l =? 1 then
       set_head nil_ptr ;;
       set_tail nil_ptr
     else
       oldTail <- get_tail ;;
       newTail <- get_prev oldTail ;;
       set_next newTail nil_ptr ;;
       set_next oldTail nil_ptr ;;
       set_prev oldTail nil_ptr ;;
       t <- get_tail ;;
       set_prev t nil_ptr ;;
       set_tail newTail) ;;
    l <- GetLen ;;
    set_len (Int.sub l 1) ;;
    ret (value, None).

Definition TryPop : M (T * option error) := tryPop.

Definition tryPopLeft : M (T * option error) :=
  let value := zero in
  l <- GetLen ;;
  if l =? 0 then ret (value, Some PopError)
  else
    (if l =? 1 then
       set_head nil_ptr ;;
       set_tail nil_ptr
     else
       h <- get_head ;;
       newHead <- get_next h ;;
       set_prev newHead nil_ptr ;;
       set_head newHead) ;;
    l <- GetLen ;;
    set_len (Int.sub l 1) ;;
    ret (value, None).

Definition TryPopLeft : M (T * option error) := tryPopLeft.

(** *** Insertion *)

Definition append (value : T) : M unit :=
  n <- new_node value ;;
  l <- GetLen ;;
  (if l =? 0 then
     set_head n ;;
     set_tail n
   else if l =? 1 then
     h <- get_head ;;
     set_prev n h ;;
     h <- get_head ;;
     set_next h n ;;
     set_tail n
   else
     t <- get_tail ;;
     set_prev n t ;;
     t <- get_tail ;;
     set_next t n ;;
     set_tail n) ;;
  l <- GetLen ;;
  set_len (Int.add l 1) ;;
  o <- isOverflowing ;;
  if o then tryPopLeft ;; ret tt else ret tt.

Definition Append (value : T) : M unit := append value.

Definition appendLeft (value : T) : M unit :=
  n <- new_node value ;;
  l <- GetLen ;;
  (if l =? 0 then
     set_head n ;;
     set_tail n
   else
     h <- get_head ;;
     set_next n h ;;
     h <- get_head ;;
     set_prev h n ;;
     set_head n) ;;
  l <- GetLen ;;
  set_len (Int.add l 1) ;;
  o <- isOverflowing ;;
  if o then tryPop ;; ret tt else ret tt.

Definition AppendLeft (value : T) : M unit := appendLeft value.

(** *** Clear *)

Definition Clear : M unit :=
  set_head nil_ptr ;;
  set_tail nil_ptr ;;
  set_len 0.

(** *** Loops *)

(** [for range n { body }]: the body runs [n] times, not at all when
    [n <= 0]. *)
Fixpoint for_range_nat (n : nat) (body : M unit) : M unit :=
  match n with
  | O => ret tt
  | S n' => body ;; for_range_nat n' body
  end.

Definition for_range (n : Z) (body : M unit) : M unit :=
  for_range_nat (Z.to_nat n) body.

(** [n := p; for range k { n = n.step }] *)
Fixpoint walk (step : ptr -> M ptr) (k : nat) (p : ptr) : M ptr :=
  match k with
  | O => ret p
  | S k' => q <- step p ;; walk step k' q
  end.

(** *** Lookup *)

Definition TryPeek (index : Z) : M (T * option error) :=
  let value := zero in
  l <- GetLen ;;
  if (index <? 0) || (l <=? index) then
    ret (value, Some (PeekError index))
  else
    l <- GetLen ;;
    if index <? Int.div l 2 then
      h <- get_head ;;
      n <- walk get_next (Z.to_nat index) h ;;
      value <- get_value n ;;
      ret (value, None)
    else
      t <- get_tail ;;
      l <- GetLen ;;
      n <- walk get_prev (Z.to_nat (Int.sub (Int.sub l 1) index)) t ;;
      value <- get_value n ;;
      ret (value, None).

(** [Peek] panics with the error of [TryPeek]. *)
Definition Peek (index : Z) : M T :=
  r <- TryPeek index ;;
  match snd r with
  | Some _ => panic
  | None => ret (fst r)
  end.

(** *** Rotation *)

Definition rotateRight : M unit :=
  tail <- get_tail ;;
  h <- get_head ;;
  set_next tail h ;;
  p <- get_prev tail ;;
  set_tail p ;;
  t <- get_tail ;;
  set_next t nil_ptr ;;
  set_prev tail nil_ptr ;;
  set_head tail.

Definition rotateLeft : M unit :=
  head <- get_head ;;
  n <- get_next head ;;
  set_head n ;;
  set_next head nil_ptr ;;
  tail <- get_tail ;;
  set_next tail head ;;
  set_tail head.

Definition Rotate (n : Z) : M unit :=
  l <- GetLen ;;
  if l <? 2 then ret tt
  else
    let doRotation := if 0 <=? n then rotateRight else rotateLeft in
    let n := if n <? 0 then Int.neg n else n in
    for_range n doRotation.

(** *** Iteration *)

(** Loops of the shape
    [for item := p; item != nil; item = item.next { ... }] follow
    pointers, so they are given fuel; [OutOfFuel] reports that the fuel
    did not suffice. *)

(** The sequence produced by a full consumption of [Values()]. *)
Fixpoint values_from (fuel : nat) (item : ptr) : M (list T) :=
  match item with
  | None => ret []
  | Some _ =>
      match fuel with
      | O => out_of_fuel
      | S fuel' =>
          v <- get_value item ;;
          nxt <- get_next item ;;
          vs <- values_from fuel' nxt ;;
          ret (v :: vs)
      end
  end.

Definition Values (fuel : nat) : M (list T) :=
  h <- get_head ;; values_from fuel h.

(** [All()] pairs each value with its running index. *)
Definition All (fuel : nat) : M (list (Z * T)) :=
  vs <- Values fuel ;;
  ret (imap (fun i v => (Z.of_nat i, v)) vs).

(** *** Count *)

(** [a == b]: the comparison of the element type, or its panic. *)
Definition equal (a b : T) : M bool := fun s =>
  match go_eq a b with
  | Some r => Return (r, s)
  | None => Panic
  end.

Fixpoint count_from (fuel : nat) (value0 : T) (i : Z) (n : ptr) : M Z :=
  match n with
  | None => ret i
  | Some _ =>
      match fuel with
      | O => out_of_fuel
      | S fuel' =>
          v <- get_value n ;;
          b <- equal v value0 ;;
          nxt <- get_next n ;;
          count_from fuel' value0 (if b then Int.add i 1 else i) nxt
      end
  end.

Definition Count (fuel : nat) (value0 : T) : M Z :=
  h <- get_head ;; count_from fuel value0 0 h.

(** *** Copy *)

(** The receiver stays the current deque; the copy [rv] is a second
    header over the same heap. The loop body [rv.append(value)] runs
    with [rv] as its receiver and hands the heap back. *)
Definition on_other {A} (rv : Deque) (m : M A) : M (A * Deque) :=
  fun s =>
    match m (State (heap s) rv) with
    | Return (a, s') => Return ((a, self s'), State (heap s') (self s))
    | Panic => Panic
    | OutOfFuel => OutOfFuel
    end.

Fixpoint copy_loop (fuel : nat) (item : ptr) (rv : Deque) : M (Deque) :=
  match item with
  | None => ret rv
  | Some _ =>
      match fuel with
      | O => out_of_fuel
      | S fuel' =>
          v <- get_value item ;;
          r <- on_other rv (append v) ;;
          nxt <- get_next item ;;
          copy_loop fuel' nxt (snd r)
      end
  end.

Definition Copy (fuel : nat) : M (Deque) :=
  c <- GetCapacity ;;
  let rv := NewDeque c in
  h <- get_head ;;
  copy_loop fuel h rv.

(** [NewDequeFromSeq] on a finite sequence. *)
Fixpoint append_all (seq : list T) : M unit :=
  match seq with
  | [] => ret tt
  | v :: seq' => Append v ;; append_all seq'
  end.

(** [NewDequeFromSeq(seq, capacity)] on a finite sequence: the new
    deque is a header of its own over the heap of the caller. *)
Definition NewDequeFromSeq (seq : list T) (capacity : Z) : M Deque :=
  r <- on_other (NewDeque capacity) (append_all seq) ;;
  ret (snd r).

(** *** Iteration with a consumer *)

(** [Values()] is a push iterator: the loop hands each value to
    [yield], from the head on, and returns as soon as [yield] answers
    [false]. The consumer is a function on a state [A] of its own: the
    mutex is held while the loop runs, so the loop body cannot call a
    method that writes to the deque. *)
Fixpoint values_loop {A} (fuel : nat) (item : ptr)
    (yield : T -> A -> A * bool) (a : A) : M A :=
  match item with
  | None => ret a
  | Some _ =>
      match fuel with
      | O => out_of_fuel
      | S fuel' =>
          v <- get_value item ;;
          if snd (yield v a) then
            nxt <- get_next item ;;
            values_loop fuel' nxt yield (fst (yield v a))
          else ret (fst (yield v a))
      end
  end.

Definition Values_yield {A} (fuel : nat) (yield : T -> A -> A * bool) (a : A)
  : M A :=
  h <- get_head ;; values_loop fuel h yield a.

(** [All()] ranges over [Values()] with a loop body that hands the
    running index [i] and the value to [yield] and then counts up. *)
Definition All_yield {A} (fuel : nat) (yield : Z -> T -> A -> A * bool) (a : A)
  : M A :=
  r <- Values_yield fuel
         (fun value ia =>
            if snd (yield (fst ia) value (snd ia))
            then ((Int.add (fst ia) 1, fst (yield (fst ia) value (snd ia))), true)
            else ((fst ia, fst (yield (fst ia) value (snd ia))), false))
         (0, a) ;;
  ret (snd r).

(** *** The public interface as a type of calls *)

Inductive call : Type :=
| CallAppend (value : T)
| CallAppendLeft (value : T)
| CallTryPop
| CallTryPopLeft
| CallClear
| CallRotate (n : Z)
| CallTryPeek (index : Z)
| CallValues (fuel : nat)
| CallCount (fuel : nat) (value : T)
| CallCopy (fuel : nat).

(** A call as a statement: results are dropped, effects are kept. *)
Definition exec (c : call) : M unit :=
  match c with
  | CallAppend v => Append v
  | CallAppendLeft v => AppendLeft v
  | CallTryPop => TryPop ;; ret tt
  | CallTryPopLeft => TryPopLeft ;; ret tt
  | CallClear => Clear
  | CallRotate n => Rotate n
  | CallTryPeek i => TryPeek i ;; ret tt
  | CallValues fuel => Values fuel ;; ret tt
  | CallCount fuel v => Count fuel v ;; ret tt
  | CallCopy fuel => Copy fuel ;; ret tt
  end.

Fixpoint run (cs : list call) : M unit :=
  match cs with
  | [] => ret tt
  | c :: cs' => exec c ;; run cs'
  end.

(** The states a deque of capacity [C] can be in: those a sequence of
    calls on [NewDeque(C)] returns with. The heap the deque is created
    in is arbitrary. *)
Definition reachable (C : Z) (s : state T) : Prop :=
  exists h0 cs, run cs (State h0 (NewDeque C)) = Return (tt, s).

Inductive side : Type := Right | Left.

Definition insertion (x : side * T) : call :=
  match fst x with
  | Right => CallAppend (snd x)
  | Left => CallAppendLeft (snd x)
  end.

(** *** The data-model invariant *)

(** [linked h ls vs]: the nodes at the addresses [ls] hold the values
    [vs] and point at their neighbours in [ls], with [nil] at both
    ends. *)
Definition linked (h : list (node T)) (ls : list loc) (vs : list T) : Prop :=
  forall i l, ls !! i = Some l ->
    exists v, vs !! i = Some v /\
      h !! l = Some (Node v (ls !! S i)
                       (match i with O => None | S j => ls !! j end)).

(** [represents s ls vs]: the receiver of [s] is the well-formed list
    of the nodes [ls], holding [vs] from head to tail. *)
Record represents (s : state T) (ls : list loc) (vs : list T) : Prop := {
  rep_nodup : NoDup ls;
  rep_length : length vs = length ls;
  rep_range : Z.of_nat (length ls) <= Int.max_int;
  rep_len : len (self s) = Z.of_nat (length ls);
  rep_head : head (self s) = ls !! O;
  rep_tail : tail (self s) = last ls;
  rep_linked : linked (heap s) ls vs
}.

(** The invariant of the data model for [length >= 2]: [head.prev] and
    [tail.next] are absent, [next] followed from [head] exactly [len]
    times reaches absence, and the [prev] chain from [tail] runs
    through the same nodes in reverse. *)
Definition structural_invariant (s : state T) : Prop :=
  2 <= len (self s) ->
  exists ls vs, represents s ls vs.

(** A call returned an error value. *)
Definition failed {A} (o : outcome (A * option error * state T)) : Prop :=
  exists a e s, o = Return ((a, Some e), s).

(** What a deque of capacity [C] keeps of the values appended to it. *)
Definition keep_last (C : Z) (vs : list T) : list T :=
  if C <? 0 then vs else drop (length vs - Z.to_nat C) vs.

(** [chain h p ls vs]: following [next] from [p] visits the nodes
    [ls], which hold [vs], and then reaches [nil]. *)
Fixpoint chain (h : list (node T)) (p : ptr) (ls : list loc) (vs : list T)
  : Prop :=
  match ls, vs with
  | [], [] => p = None
  | l :: ls', v :: vs' =>
      p = Some l /\
      exists nd, h !! l = Some nd /\ value nd = v /\ chain h (next nd) ls' vs'
  | _, _ => False
  end.

(** [forward s ls vs]: the half of the invariant that iteration relies
    on. Following [next] from [head] visits the distinct nodes [ls],
    which hold [vs], and [tail] is the last of them. *)
Definition forward (s : state T) (ls : list loc) (vs : list T) : Prop :=
  NoDup ls /\
  chain (heap s) (head (self s)) ls vs /\
  tail (self s) = last ls.

(** [back_linked h B]: the nodes [B] still point back at each other,
    the first of them at [nil]. [right_rotated s A B va vb] is what
    rotations to the right make of a well-formed list: the nodes [A]
    have been moved in front of [B], and only among [B] are the [prev]
    links those of the list. *)
Definition back_linked (h : list (node T)) (B : list loc) : Prop :=
  forall i l, B !! i = Some l ->
    exists nd, h !! l = Some nd /\
      prev nd = match i with O => None | S j => B !! j end.

Definition right_rotated (s : state T) (A B : list loc) (va vb : list T)
  : Prop :=
  forward s (A ++ B) (va ++ vb) /\
  length va = length A /\
  back_linked (heap s) B.

(** One step of rotation to the left on the sequence of elements: the
    first element becomes the last. *)
Definition rotate_left1 {A} (xs : list A) : list A :=
  match xs with
  | [] => []
  | x :: xs' => xs' ++ [x]
  end.

(** *** Footprints *)

(** A footprint is a set of addresses. A state is closed under a
    footprint when the receiver and the nodes inside the footprint only
    point into it, and every address not yet allocated belongs to it. *)
Definition ptr_in (F : loc -> Prop) (p : ptr) : Prop :=
  match p with
  | Some l => F l
  | None => True
  end.

Record closed (F : loc -> Prop) (s : state T) : Prop := {
  closed_head : ptr_in F (head (self s));
  closed_tail : ptr_in F (tail (self s));
  closed_nodes : forall l nd, F l -> heap s !! l = Some nd ->
                   ptr_in F (next nd) /\ ptr_in F (prev nd);
  closed_fresh : forall l, (length (heap s) <= l)%nat -> F l
}.

(** The heap grew and is unchanged outside the footprint. *)
Definition frame (F : loc -> Prop) (h h' : list (node T)) : Prop :=
  (length h <= length h')%nat /\
  forall l, ~ F l -> h' !! l = h !! l.

(** A computation that stays within a footprint: from a closed state
    it can only return in a closed state, having written inside the
    footprint only, with a result that satisfies [Q]. *)
Definition safe {A} (F : loc -> Prop) (Q : A -> Prop) (m : M A) : Prop :=
  forall s, closed F s ->
  forall a s', m s = Return (a, s') ->
    closed F s' /\ frame F (heap s) (heap s') /\ Q a.

(** No pointer of the receiver or of a node dangles: each is [nil] or
    an allocated address. Go's memory safety keeps this true. *)
Definition no_dangling (s : state T) : Prop :=
  let allocated := fun l : loc => (l < length (heap s))%nat in
  ptr_in allocated (head (self s)) /\
  ptr_in allocated (tail (self s)) /\
  forall l nd, heap s !! l = Some nd ->
    ptr_in allocated (next nd) /\ ptr_in allocated (prev nd).

(** *** What a call leaves alone *)

(** [extends s s']: the capacity of the receiver is the same, and every
    node of [s] is still there in [s'] with the value it had. [stable m]
    says so of every run of [m] that returns. *)
Definition extends (s s' : state T) : Prop :=
  capacity (self s') = capacity (self s) /\
  forall l nd, heap s !! l = Some nd ->
    exists nd', heap s' !! l = Some nd' /\ value nd' = value nd.

Definition stable {A} (m : M A) : Prop :=
  forall s a s', m s = Return (a, s') -> extends s s'.

(** *** Sequences of elements *)

(** What a consumer makes of a sequence it is handed element by
    element until it declines. *)
Fixpoint consume {A B} (yield : B -> A -> A * bool) (xs : list B) (a : A) : A :=
  match xs with
  | [] => a
  | x :: xs' =>
      if snd (yield x a) then consume yield xs' (fst (yield x a))
      else fst (yield x a)
  end.

(** What a deque of capacity [C] keeps of the values it is to hold
    after an insertion at the left end. *)
Definition keep_first (C : Z) (vs : list T) : list T :=
  if C <? 0 then vs else take (Z.to_nat C) vs.

(** The loops of a call have fuel for [n] nodes. *)
Definition enough_fuel (n : nat) (c : call) : Prop :=
  match c with
  | CallValues fuel | CallCount fuel _ | CallCopy fuel => (n <= fuel)%nat
  | _ => True
  end.

Definition is_Rotate (c : call) : bool :=
  match c with
  | CallRotate _ => true
  | _ => false
  end.

(** *** Deciding the invariant *)

#[global] Instance node_eq_dec : EqDecision (node T).
Proof. solve_decision. Defined.

Definition linkedb (h : list (node T)) (ls : list loc) (vs : list T) : bool :=
  forallb
    (fun i =>
       match ls !! i, vs !! i with
       | Some l, Some v =>
           bool_decide
             (h !! l = Some (Node v (ls !! S i)
                               (match i with O => None | S j => ls !! j end)))
       | _, _ => false
       end)
    (seq 0 (length ls)).

Definition representsb (s : state T) (ls : list loc) (vs : list T) : bool :=
  bool_decide (NoDup ls) &&
  bool_decide (length vs = length ls) &&
  (Z.of_nat (length ls) <=? Int.max_int) &&
  (len (self s) =? Z.of_nat (length ls)) &&
  bool_decide (head (self s) = ls !! O) &&
  bool_decide (tail (self s) = last ls) &&
  linkedb (heap s) ls vs.

End Deque.

(** Elements of the examples are Go [int]s, whose zero value is [0]
    and whose [==] is equality. *)
#[export] Instance Z_zero : ZeroValue Z := 0.

#[export] Instance Z_comparable : Comparable Z := fun a b => Some (a =? b).

(** A fresh heap with an unbounded deque of [int]. *)
Definition fresh_unlimited : state Z := State [] NewUnlimitedDeque.

(** A well-formed deque of capacity five that holds [1, 2, 3], and a
    full one of capacity two that holds [1, 2]. *)
Definition deque_123 : state Z :=
  State [Node 1 (Some 1%nat) None; Node 2 (Some 2%nat) (Some O);
         Node 3 None (Some 1%nat)]
        (mkDeque (Some O) (Some 2%nat) 3 5).

Definition deque_full_12 : state Z :=
  State [Node 1 (Some 1%nat) None; Node 2 None (Some O)]
        (mkDeque (Some O) (Some 1%nat) 2 2).


(** Elements of type [any] that are [nil] or hold an [int] or a slice
    of [int]s. [==] on two interface values is false when their dynamic
    types differ and panics when both hold a slice, which is not
    comparable. *)
Inductive any : Type :=
| AnyNil
| AnyInt (n : Z)
| AnySlice (xs : list Z).

#[export] Instance any_eq_dec : EqDecision any.
Proof. solve_decision. Defined.

#[export] Instance any_comparable : Comparable any := fun a b =>
  match a, b with
  | AnyNil, AnyNil => Some true
  | AnyInt x, AnyInt y => Some (x =? y)
  | AnySlice _, AnySlice _ => None
  | _, _ => Some false
  end.

(** An unbounded well-formed deque of [any] that holds [1, []int{2}]. *)
Definition deque_any : state any :=
  State [Node (AnyInt 1) (Some 1%nat) None; Node (AnySlice [2]) None (Some O)]
        (mkDeque (Some O) (Some 1%nat) 2 (-1)).

(** * Properties *)

(** ** Integer arithmetic *)

Lemma wrap_in_range (z : Z) :
  Int.min_int <= z <= Int.max_int -> Int.wrap z = z.
Proof.
  unfold Int.min_int, Int.max_int, Int.wrap. intros Hz.
  rewrite Z.mod_small; lia.
Qed.

Lemma wrap_range (z : Z) : Int.min_int <= Int.wrap z <= Int.max_int.
Proof.
  unfold Int.min_int, Int.max_int, Int.wrap.
  pose proof (Z.mod_pos_bound (z + 2 ^ 63) (2 ^ 64)). lia.
Qed.

Lemma int_add_small (a b : Z) :
  Int.min_int <= a + b <= Int.max_int -> Int.add a b = a + b.
Proof. apply wrap_in_range. Qed.

Lemma int_sub_small (a b : Z) :
  Int.min_int <= a - b <= Int.max_int -> Int.sub a b = a - b.
Proof. apply wrap_in_range. Qed.

Lemma int_neg_min_int : Int.neg Int.min_int = Int.min_int.
Proof. reflexivity. Qed.

Lemma int_div_2 (a : Z) : 0 <= a <= Int.max_int -> Int.div a 2 = a / 2.
Proof.
  intros Ha. unfold Int.div. rewrite Z.quot_div_nonneg by lia.
  apply wrap_in_range. unfold Int.min_int, Int.max_int in *.
  pose proof (Z.div_pos a 2). pose proof (Z.div_le_upper_bound a 2 a). lia.
Qed.

Section Facts.

Context {T : Type} `{EqDecision T} `{ZeroValue T} `{Comparable T}.

Local Open Scope go_scope.

Implicit Types (s : state T) (h : list (node T)) (d : Deque).
Implicit Types (p q : ptr) (l : loc) (ls : list loc) (vs : list T).
Implicit Types (F : loc -> Prop).

(** ** The monad *)

Lemma bind_Return {A B} (m : M T A) (k : A -> M T B) s r :
  bind m k s = Return r <->
  exists a s1, m s = Return (a, s1) /\ k a s1 = Return r.
Proof.
  unfold bind. split.
  - destruct (m s) as [[a s1]| |]; [eauto | discriminate | discriminate].
  - intros (a & s1 & -> & Hk). exact Hk.
Qed.

Lemma bind_eq {A B} (m : M T A) (k : A -> M T B) s a s1 :
  m s = Return (a, s1) -> bind m k s = k a s1.
Proof. unfold bind. intros ->. reflexivity. Qed.

Lemma failed_bind {A B} (m : M T A) (k : A -> M T (B * option error)) s :
  failed (bind m k s) -> exists a s1, m s = Return (a, s1) /\ failed (k a s1).
Proof.
  intros (b & e & s' & Hb). apply bind_Return in Hb as (a & s1 & Hm & Hk).
  exists a, s1. split; [exact Hm|]. exists b, e, s'. exact Hk.
Qed.

Lemma failed_ret_None {B} (b : B) s : ~ failed (ret (b, @None error) s).
Proof. intros (b' & e & s' & Hr). discriminate Hr. Qed.

(** ** Errors of [TryPop] and [TryPopLeft] *)

Lemma tryPop_empty s :
  len (self s) = 0 -> tryPop s = Return ((zero, Some PopError), s).
Proof. intros Hl. unfold tryPop, bind, GetLen. rewrite Hl. reflexivity. Qed.

Lemma tryPopLeft_empty s :
  len (self s) = 0 -> tryPopLeft s = Return ((zero, Some PopError), s).
Proof. intros Hl. unfold tryPopLeft, bind, GetLen. rewrite Hl. reflexivity. Qed.

Lemma tryPop_nonempty s :
  len (self s) <> 0 -> ~ failed (tryPop s).
Proof.
  intros Hl Hf. unfold tryPop in Hf.
  apply failed_bind in Hf as (n & s1 & Hn & Hf).
  injection Hn as <- <-.
  destruct (Z.eqb_spec (len (self s)) 0) as [|_]; [contradiction|].
  apply failed_bind in Hf as (? & s2 & _ & Hf).
  apply failed_bind in Hf as (? & s3 & _ & Hf).
  apply failed_bind in Hf as (? & s4 & _ & Hf).
  exact (failed_ret_None _ _ Hf).
Qed.

Lemma tryPopLeft_nonempty s :
  len (self s) <> 0 -> ~ failed (tryPopLeft s).
Proof.
  intros Hl Hf. unfold tryPopLeft in Hf.
  apply failed_bind in Hf as (n & s1 & Hn & Hf).
  injection Hn as <- <-.
  destruct (Z.eqb_spec (len (self s)) 0) as [|_]; [contradiction|].
  apply failed_bind in Hf as (? & s2 & _ & Hf).
  apply failed_bind in Hf as (? & s3 & _ & Hf).
  apply failed_bind in Hf as (? & s4 & _ & Hf).
  exact (failed_ret_None _ _ Hf).
Qed.

(** ** Errors of [TryPeek] *)

Lemma TryPeek_out_of_bounds s index :
  index < 0 \/ len (self s) <= index ->
  TryPeek index s = Return ((zero, Some (PeekError index)), s).
Proof.
  intros Hi. unfold TryPeek, bind, GetLen.
  replace ((index <? 0) || (len (self s) <=? index)) with true; [reflexivity|].
  symmetry. apply orb_true_iff. lia.
Qed.

Lemma TryPeek_in_bounds s index :
  0 <= index < len (self s) -> ~ failed (TryPeek index s).
Proof.
  intros Hi Hf. unfold TryPeek in Hf.
  apply failed_bind in Hf as (n & s1 & Hn & Hf). injection Hn as <- <-.
  replace ((index <? 0) || (len (self s) <=? index)) with false in Hf
    by (symmetry; apply orb_false_iff; lia).
  apply failed_bind in Hf as (n & s1 & Hn & Hf). injection Hn as <- <-.
  destruct (index <? Int.div (len (self s)) 2).
  - apply failed_bind in Hf as (? & s2 & _ & Hf).
    apply failed_bind in Hf as (? & s3 & _ & Hf).
    apply failed_bind in Hf as (? & s4 & _ & Hf).
    exact (failed_ret_None _ _ Hf).
  - apply failed_bind in Hf as (? & s2 & _ & Hf).
    apply failed_bind in Hf as (? & s3 & _ & Hf).
    apply failed_bind in Hf as (? & s4 & _ & Hf).
    apply failed_bind in Hf as (? & s5 & _ & Hf).
    exact (failed_ret_None _ _ Hf).
Qed.

(** Reading never writes: whatever [TryPeek] returns, the state is the
    one it was called in. *)
Lemma deref_state p s nd s' : deref p s = Return (nd, s') -> s' = s.
Proof.
  unfold deref. destruct p as [l|]; [|discriminate].
  destruct (heap s !! l); [|discriminate]. congruence.
Qed.

Lemma get_next_state p s q s' : get_next p s = Return (q, s') -> s' = s.
Proof.
  unfold get_next. intros Hb. apply bind_Return in Hb as (nd & s1 & Hd & Hr).
  apply deref_state in Hd. unfold ret in Hr. congruence.
Qed.

Lemma get_prev_state p s q s' : get_prev p s = Return (q, s') -> s' = s.
Proof.
  unfold get_prev. intros Hb. apply bind_Return in Hb as (nd & s1 & Hd & Hr).
  apply deref_state in Hd. unfold ret in Hr. congruence.
Qed.

Lemma get_value_state p s v s' : get_value p s = Return (v, s') -> s' = s.
Proof.
  unfold get_value. intros Hb. apply bind_Return in Hb as (nd & s1 & Hd & Hr).
  apply deref_state in Hd. unfold ret in Hr. congruence.
Qed.

Lemma walk_state (step : ptr -> M T ptr) :
  (forall p s q s', step p s = Return (q, s') -> s' = s) ->
  forall k p s q s', walk step k p s = Return (q, s') -> s' = s.
Proof.
  intros Hstep k. induction k as [|k IH]; intros p s q s' Hw; simpl in Hw.
  - unfold ret in Hw. congruence.
  - apply bind_Return in Hw as (p1 & s1 & H1 & Hw).
    apply Hstep in H1. subst s1. eauto.
Qed.

Lemma TryPeek_state s index r s' :
  TryPeek index s = Return (r, s') -> s' = s.
Proof.
  unfold TryPeek. intros Hb.
  apply bind_Return in Hb as (n & s1 & Hn & Hb). injection Hn as <- <-.
  destruct ((index <? 0) || (len (self s) <=? index)).
  { unfold ret in Hb. congruence. }
  apply bind_Return in Hb as (n & s1 & Hn & Hb). injection Hn as <- <-.
  destruct (index <? Int.div (len (self s)) 2).
  - apply bind_Return in Hb as (p & s1 & Hp & Hb). injection Hp as <- <-.
    apply bind_Return in Hb as (q & s2 & Hw & Hb).
    apply (walk_state _ get_next_state) in Hw. subst s2.
    apply bind_Return in Hb as (v & s3 & Hv & Hb).
    apply get_value_state in Hv. unfold ret in Hb. congruence.
  - apply bind_Return in Hb as (p & s1 & Hp & Hb). injection Hp as <- <-.
    apply bind_Return in Hb as (n & s1 & Hn & Hb). injection Hn as <- <-.
    apply bind_Return in Hb as (q & s2 & Hw & Hb).
    apply (walk_state _ get_prev_state) in Hw. subst s2.
    apply bind_Return in Hb as (v & s3 & Hv & Hb).
    apply get_value_state in Hv. unfold ret in Hb. congruence.
Qed.

(** ** Capacity zero *)

Lemma Append_capacity0 h v :
  Append v (State h (NewDeque 0)) =
  Return (tt, State (h ++ [Node v None None]) (NewDeque 0)).
Proof. reflexivity. Qed.

Lemma AppendLeft_capacity0 h v :
  AppendLeft v (State h (NewDeque 0)) =
  Return (tt, State (h ++ [Node v None None]) (NewDeque 0)).
Proof. reflexivity. Qed.

Lemma copy_loop_nil fuel rv s : copy_loop fuel None rv s = Return (rv, s).
Proof. destruct fuel; reflexivity. Qed.

Lemma values_from_nil fuel s : values_from fuel None s = Return ([], s).
Proof. destruct fuel; reflexivity. Qed.

Lemma count_from_nil fuel v i s : count_from fuel v i None s = Return (i, s).
Proof. destruct fuel; reflexivity. Qed.

(** No call moves a deque of capacity zero away from its initial
    header; only the heap grows, by the nodes that were evicted at
    once. *)
Lemma exec_capacity0 c h s' :
  exec c (State h (NewDeque 0)) = Return (tt, s') -> self s' = NewDeque 0.
Proof.
  destruct c; simpl exec.
  - rewrite Append_capacity0. intros [= <-]. reflexivity.
  - rewrite AppendLeft_capacity0. intros [= <-]. reflexivity.
  - intros [= <-]. reflexivity.
  - intros [= <-]. reflexivity.
  - intros [= <-]. reflexivity.
  - intros [= <-]. reflexivity.
  - unfold bind. rewrite TryPeek_out_of_bounds by (simpl; lia).
    intros [= <-]. reflexivity.
  - unfold bind, Values, bind, get_head. simpl. rewrite values_from_nil.
    intros [= <-]. reflexivity.
  - unfold bind, Count, bind, get_head. simpl. rewrite count_from_nil.
    intros [= <-]. reflexivity.
  - unfold bind, Copy, bind, GetCapacity, get_head. simpl.
    rewrite copy_loop_nil. intros [= <-]. reflexivity.
Qed.

Lemma run_capacity0 cs : forall h s',
  run cs (State h (NewDeque 0)) = Return (tt, s') -> self s' = NewDeque 0.
Proof.
  induction cs as [|c cs IH]; intros h s' Hr; simpl in Hr.
  - injection Hr as <-. reflexivity.
  - apply bind_Return in Hr as ([] & [h1 d1] & Hc & Hr).
    apply exec_capacity0 in Hc. simpl in Hc. subst d1. eauto.
Qed.

Lemma run_insertions_capacity0 (xs : list (side * T)) : forall h,
  exists h', run (map insertion xs) (State h (NewDeque 0)) =
             Return (tt, State h' (NewDeque 0)).
Proof.
  induction xs as [|[sd v] xs IH]; intros h; simpl.
  - exists h. reflexivity.
  - destruct (IH (h ++ [Node v None None])) as [h' Hh'].
    exists h'. destruct sd; unfold insertion; simpl fst; simpl snd; simpl exec.
    + erewrite bind_eq by apply Append_capacity0. exact Hh'.
    + erewrite bind_eq by apply AppendLeft_capacity0. exact Hh'.
Qed.

(** ** The operations on well-formed deques *)

Lemma linked_bound h ls vs i l :
  linked h ls vs -> ls !! i = Some l -> (l < length h)%nat.
Proof.
  intros Hlk Hi. destruct (Hlk i l Hi) as (v & _ & Hh).
  eapply lookup_lt_Some; eauto.
Qed.

Lemma tryPopLeft_spec s l ls v vs :
  represents s (l :: ls) (v :: vs) ->
  exists s',
    tryPopLeft s = Return ((zero, None), s') /\
    represents s' ls vs /\
    capacity (self s') = capacity (self s) /\
    length (heap s') = length (heap s) /\
    (forall l', l' ∉ ls -> heap s' !! l' = heap s !! l').
Proof.
  destruct s as [h [hd tl n c]].
  intros [Hnd Hlen Hrange Hn Hhd Htl Hlk]. simpl in *.
  unfold tryPopLeft, bind, GetLen. simpl.
  destruct ls as [|l2 ls].
  - destruct vs; [|discriminate]. simpl in *. subst n hd tl.
    eexists. split; [reflexivity|]. simpl.
    split; [|split; [reflexivity|split; [reflexivity|reflexivity]]].
    split; simpl; try reflexivity.
    + constructor.
    + unfold Int.max_int. lia.
    + intros i l' Hi. rewrite lookup_nil in Hi. discriminate.
  - destruct vs as [|v2 vs]; [discriminate|].
    destruct (Z.eqb_spec n 0) as [|_]; [simpl in *; lia|].
    destruct (Z.eqb_spec n 1) as [|_]; [simpl in *; lia|].
    subst hd. simpl.
    destruct (Hlk O l eq_refl) as (v0 & Hv0 & Hl0). simpl in Hv0, Hl0.
    destruct (Hlk 1%nat l2 eq_refl) as (v1 & Hv1 & Hl1). simpl in Hv1, Hl1.
    injection Hv0 as <-. injection Hv1 as <-.
    unfold get_next, get_head, set_prev, bind, deref, store, ret. simpl.
    rewrite Hl0. simpl. rewrite Hl1. simpl.
    eexists. split; [reflexivity|]. simpl.
    apply NoDup_cons in Hnd as [Hl Hnd].
    pose proof Hnd as Hnd2. apply NoDup_cons in Hnd2 as [Hl2 _].
    split; [|split; [reflexivity|split; [apply length_insert|]]].
    + split; simpl.
      * exact Hnd.
      * simpl in Hlen. lia.
      * simpl in Hrange. lia.
      * simpl in Hn. rewrite int_sub_small; unfold Int.min_int; simpl in Hrange; lia.
      * reflexivity.
      * rewrite Htl. apply last_cons_cons.
      * intros i l' Hi. destruct i as [|i].
        -- injection Hi as <-. exists v2. split; [reflexivity|].
           apply list_lookup_insert_eq. eapply lookup_lt_Some; eauto.
        -- assert (l2 <> l').
           { intros <-. apply Hl2. eapply list_elem_of_lookup_2; eauto. }
           rewrite list_lookup_insert_ne by assumption.
           exact (Hlk (S (S i)) l' Hi).
    + intros l' Hl'. apply list_lookup_insert_ne. intros ->.
      apply Hl', elem_of_cons. left. reflexivity.
Qed.

Lemma lookup_snoc_last {A} (xs : list A) (x : A) :
  (xs ++ [x]) !! length xs = Some x.
Proof. rewrite lookup_app_r by lia. rewrite Nat.sub_diag. reflexivity. Qed.

Lemma tryPop_spec s l ls v vs :
  represents s (ls ++ [l]) (vs ++ [v]) ->
  exists s',
    tryPop s = Return ((zero, None), s') /\
    represents s' ls vs /\
    capacity (self s') = capacity (self s) /\
    length (heap s') = length (heap s) /\
    (forall l', l' ∉ ls ++ [l] -> heap s' !! l' = heap s !! l').
Proof.
  destruct s as [h [hd tl n c]].
  intros [Hnd Hlen Hrange Hn Hhd Htl Hlk]. simpl in *.
  rewrite !length_app in *. simpl in *.
  assert (Hlen' : length vs = length ls) by lia.
  unfold tryPop, bind, GetLen. simpl.
  rewrite last_snoc in Htl. subst tl.
  destruct (Z.eqb_spec n 0) as [|_]; [lia|].
  destruct (Z.eqb_spec n 1) as [Hn1|Hn1].
  - assert (ls = []) by (destruct ls; [reflexivity|simpl in *; lia]).
    subst ls. destruct vs; [|discriminate]. simpl.
    eexists. split; [reflexivity|]. simpl.
    split; [|split; [reflexivity|split; [reflexivity|reflexivity]]].
    split; simpl; try reflexivity.
    + constructor.
    + unfold Int.max_int. lia.
    + rewrite int_sub_small; unfold Int.min_int, Int.max_int; lia.
    + intros i l' Hi. rewrite lookup_nil in Hi. discriminate.
  - destruct (Hlk (length ls) l (lookup_snoc_last _ _)) as (v0 & Hv0 & Hl0).
    rewrite <- Hlen', lookup_snoc_last in Hv0. injection Hv0 as <-.
    rewrite (lookup_ge_None_2 (ls ++ [l]) (S (length ls))) in Hl0
      by (rewrite length_app; simpl; lia).
    assert (Hk : length ls = S (pred (length ls))) by lia.
    set (k := pred (length ls)) in Hk.
    rewrite Hk in Hl0 at 1.
    assert (Hk' : (k < length ls)%nat) by lia.
    destruct (lookup_lt_is_Some_2 ls k Hk') as [l1 Hl1].
    rewrite (lookup_app_l_Some _ _ _ _ Hl1) in Hl0.
    destruct (Hlk k l1 (lookup_app_l_Some _ _ _ _ Hl1)) as (v1 & Hv1 & Hh1).
    replace ((ls ++ [l]) !! S k) with (Some l) in Hh1
      by (rewrite <- Hk; symmetry; apply lookup_snoc_last).
    assert (Hne : l1 <> l).
    { intros ->. apply NoDup_app in Hnd as (_ & Hd & _).
      apply (Hd l); [eapply list_elem_of_lookup_2; eauto|].
      apply elem_of_cons. left. reflexivity. }
    pose proof (lookup_lt_Some _ _ _ Hl0) as Hb0.
    pose proof (lookup_lt_Some _ _ _ Hh1) as Hb1.
    unfold get_tail, get_prev, set_next, set_prev, set_tail, bind, deref, store, ret.
    simpl. rewrite Hl0. simpl. rewrite Hh1. simpl.
    rewrite list_lookup_insert_ne by assumption. rewrite Hl0. simpl.
    rewrite list_lookup_insert_eq by (rewrite length_insert; assumption). simpl.
    rewrite list_lookup_insert_eq by (rewrite !length_insert; assumption). simpl.
    eexists. split; [reflexivity|]. simpl.
    split; [|split; [reflexivity|split; [rewrite !length_insert; reflexivity|]]].
    + apply NoDup_app in Hnd as (Hnd & Hd & _).
      split; simpl.
      * exact Hnd.
      * exact Hlen'.
      * lia.
      * rewrite int_sub_small; unfold Int.min_int; lia.
      * rewrite Hhd. destruct ls; [discriminate|reflexivity].
      * rewrite last_lookup, Hk. simpl. symmetry. exact Hl1.
      * intros i l' Hi.
        assert (Hli : l' <> l).
        { intros ->. apply (Hd l); [eapply list_elem_of_lookup_2; eauto|].
          apply elem_of_cons. left. reflexivity. }
        rewrite !list_lookup_insert_ne by (intros E; apply Hli; symmetry; exact E).
        destruct (Hlk i l' (lookup_app_l_Some _ _ _ _ Hi)) as (v' & Hv' & Hh').
        pose proof (lookup_lt_Some _ _ _ Hi) as Hib.
        rewrite lookup_app_l in Hv' by lia.
        exists v'. split; [exact Hv'|].
        destruct (decide (i = k)) as [->|Hik].
        -- assert (l' = l1) by congruence. subst l'.
           rewrite list_lookup_insert_eq by assumption.
           assert (v' = v1) by congruence. subst v'.
           rewrite (lookup_ge_None_2 ls (S k)) by lia.
           f_equal. f_equal.
           destruct k; [reflexivity|]. apply lookup_app_l. lia.
        -- assert (l1 <> l').
           { intros <-. apply Hik. eapply NoDup_lookup; eauto. }
           rewrite list_lookup_insert_ne by assumption.
           rewrite Hh'. f_equal. f_equal.
           ++ apply lookup_app_l. lia.
           ++ destruct i; [reflexivity|]. apply lookup_app_l. lia.
    + intros l' Hl'. apply not_elem_of_app in Hl' as [Hl1' Hl2'].
      rewrite !list_lookup_insert_ne; [reflexivity| | | |].
      * intros ->. apply Hl1'. eapply list_elem_of_lookup_2; eauto.
      * intros ->. apply Hl2', elem_of_cons. left. reflexivity.
      * intros ->. apply Hl2', elem_of_cons. left. reflexivity.
      * intros ->. apply Hl2', elem_of_cons. left. reflexivity.
Qed.

(** The heap after a node for [v] has been linked behind the tail. *)
Lemma linked_snoc h ls vs lt vt pt v :
  NoDup ls -> length vs = length ls ->
  linked h ls vs -> last ls = Some lt ->
  h !! lt = Some (Node vt None pt) ->
  linked (<[lt := Node vt (Some (length h)) pt]>
            (<[length h := Node v None (Some lt)]> (h ++ [Node v None None])))
         (ls ++ [length h]) (vs ++ [v]).
Proof.
  intros Hnd Hlen Hlk Hlast Hlt i l' Hi.
  pose proof (lookup_lt_Some _ _ _ Hlt) as Hb.
  rewrite last_lookup in Hlast.
  assert (Hk : length ls = S (pred (length ls))).
  { destruct ls; [discriminate|reflexivity]. }
  set (k := pred (length ls)) in *.
  apply lookup_app_Some in Hi as [Hi|[Hge Hi]].
  - pose proof (lookup_lt_Some _ _ _ Hi) as Hib.
    destruct (Hlk i l' Hi) as (v' & Hv' & Hh').
    pose proof (lookup_lt_Some _ _ _ Hh') as Hb'.
    exists v'. split; [apply lookup_app_l_Some; exact Hv'|].
    destruct (decide (i = k)) as [->|Hik].
    + assert (l' = lt) by congruence. subst l'.
      rewrite list_lookup_insert_eq
        by (rewrite length_insert, length_app; simpl; lia).
      rewrite Hlt in Hh'. injection Hh' as -> Hnx ->.
      f_equal. f_equal.
      * rewrite <- Hk. symmetry. apply lookup_snoc_last.
      * destruct k; [reflexivity|]. symmetry. apply lookup_app_l. lia.
    + assert (lt <> l').
      { intros <-. apply Hik. eapply NoDup_lookup; eauto. }
      rewrite !list_lookup_insert_ne by lia.
      rewrite lookup_app_l by lia. rewrite Hh'. f_equal. f_equal.
      * symmetry. apply lookup_app_l. lia.
      * destruct i; [reflexivity|]. symmetry. apply lookup_app_l. lia.
  - simpl in Hi. destruct (i - length ls)%nat as [|?] eqn:Hd; [|discriminate].
    injection Hi as <-. assert (i = length ls) by lia. subst i.
    exists v. split; [rewrite <- Hlen; apply lookup_snoc_last|].
    rewrite list_lookup_insert_ne by lia.
    rewrite list_lookup_insert_eq by (rewrite length_app; simpl; lia).
    f_equal. f_equal.
    + symmetry. apply lookup_ge_None_2. rewrite length_app. simpl. lia.
    + rewrite Hk. rewrite lookup_app_l by lia. symmetry. exact Hlast.
Qed.

(** The heap after a node for [v] has been linked before the head. *)
Lemma linked_cons h ls vs l0 v0 nx v :
  NoDup ls -> linked h ls vs -> ls !! O = Some l0 ->
  h !! l0 = Some (Node v0 nx None) ->
  linked (<[l0 := Node v0 nx (Some (length h))]>
            (<[length h := Node v (Some l0) None]> (h ++ [Node v None None])))
         (length h :: ls) (v :: vs).
Proof.
  intros Hnd Hlk Hhd Hl0 i l' Hi.
  pose proof (lookup_lt_Some _ _ _ Hl0) as Hb.
  destruct i as [|i].
  - injection Hi as <-. exists v. split; [reflexivity|].
    rewrite list_lookup_insert_ne by lia.
    rewrite list_lookup_insert_eq by (rewrite length_app; simpl; lia).
    simpl. rewrite Hhd. reflexivity.
  - simpl in Hi. destruct (Hlk i l' Hi) as (v' & Hv' & Hh').
    pose proof (lookup_lt_Some _ _ _ Hh') as Hb'.
    exists v'. split; [exact Hv'|].
    destruct i as [|i].
    + assert (l' = l0) by congruence. subst l'.
      rewrite list_lookup_insert_eq
        by (rewrite length_insert, length_app; simpl; lia).
      rewrite Hl0 in Hh'. injection Hh' as -> ->. reflexivity.
    + assert (l0 <> l').
      { intros <-. assert (O = S i) by (eapply NoDup_lookup; eauto). lia. }
      rewrite !list_lookup_insert_ne by lia.
      rewrite lookup_app_l by lia. exact Hh'.
Qed.

Lemma overflow_test (c n : Z) :
  negb (c <? 0) && (c <? n) = (0 <=? c) && (c <? n).
Proof. f_equal. destruct (Z.ltb_spec c 0), (Z.leb_spec 0 c); simpl; lia. Qed.

Lemma append_spec s ls vs v :
  represents s ls vs ->
  Z.of_nat (length ls) < Int.max_int ->
  exists s',
    append v s = Return (tt, s') /\
    (if (0 <=? capacity (self s)) &&
        (capacity (self s) <? Z.of_nat (length ls) + 1)
     then represents s' (drop 1 (ls ++ [length (heap s)])) (drop 1 (vs ++ [v]))
     else represents s' (ls ++ [length (heap s)]) (vs ++ [v])) /\
    capacity (self s') = capacity (self s) /\
    length (heap s') = S (length (heap s)) /\
    (forall l', l' ∉ ls -> (l' < length (heap s))%nat ->
                heap s' !! l' = heap s !! l').
Proof.
  destruct s as [h [hd tl n c]].
  intros [Hnd Hlen Hrange Hn Hhd Htl Hlk] Hlt. simpl in *.
  set (fresh := length h).
  (* the state once the new node is linked and counted *)
  assert (Hlink : exists h1,
    (forall k : M T unit,
     (n0 <- new_node v ;;
      l <- GetLen ;;
      (if l =? 0 then set_head n0 ;; set_tail n0
       else if l =? 1 then
         hh <- get_head ;; set_prev n0 hh ;; hh <- get_head ;;
         set_next hh n0 ;; set_tail n0
       else
         t <- get_tail ;; set_prev n0 t ;; t <- get_tail ;;
         set_next t n0 ;; set_tail n0) ;;
      l <- GetLen ;;
      set_len (Int.add l 1) ;;
      k)
       (State h (mkDeque hd tl n c)) =
     k (State h1 (mkDeque ((ls ++ [fresh]) !! O) (Some fresh) (n + 1) c))) /\
    linked h1 (ls ++ [fresh]) (vs ++ [v]) /\
    length h1 = S (length h) /\
    (forall l', l' ∉ ls -> (l' < length h)%nat -> h1 !! l' = h !! l')).
  { unfold bind, new_node, GetLen. simpl.
    destruct (decide (ls = [])) as [->|Hne].
    - destruct vs; [|discriminate]. simpl in *. subst n hd tl. simpl.
      exists (h ++ [Node v None None]). split; [reflexivity|]. split; [|split].
      + intros i l' Hi. destruct i; [|discriminate]. injection Hi as <-.
        exists v. split; [reflexivity|]. simpl. apply lookup_snoc_last.
      + simpl. rewrite length_app. simpl. lia.
      + intros l' _ Hl'. simpl. apply lookup_app_l. exact Hl'.
    - destruct (proj2 (last_is_Some ls) Hne) as [lt Hlast].
      pose proof Hlast as Hlast'. rewrite last_lookup in Hlast'.
      destruct (Hlk _ _ Hlast') as (vt & Hvt & Hht).
      assert (Hpos : (0 < length ls)%nat) by (destruct ls; [done|simpl; lia]).
      rewrite (lookup_ge_None_2 ls (S (pred (length ls)))) in Hht by lia.
      pose proof (lookup_lt_Some _ _ _ Hht) as Hb.
      set (pt := match pred (length ls) with O => None | S j => ls !! j end)
        in Hht.
      assert (Hhd1 : n = 1 -> hd = Some lt).
      { intros Hn1. rewrite Hhd, <- Hlast'. f_equal. lia. }
      rewrite Hlast in Htl.
      assert (Hhd2 : (ls ++ [fresh]) !! O = hd).
      { rewrite Hhd. apply lookup_app_l. exact Hpos. }
      rewrite Hhd2.
      destruct (Z.eqb_spec n 0) as [|_]; [lia|].
      exists (<[lt := Node vt (Some fresh) pt]>
               (<[fresh := Node v None (Some lt)]> (h ++ [Node v None None]))).
      split; [|split; [|split]].
      + intros k.
        unfold get_head, get_tail, set_prev, set_next, set_tail, bind, store.
        simpl.
        assert (Hstore :
          forall hd0 tl0,
          match
            match
              <[length h:=Node v None (Some lt)]> (h ++ [Node v None None]) !! lt
            with
            | Some nd =>
                Return (tt, State
                  (<[lt:=Node (value nd) (Some (length h)) (prev nd)]>
                     (<[length h:=Node v None (Some lt)]>
                        (h ++ [Node v None None])))
                  (mkDeque hd0 tl0 n c))
            | None => Panic
            end
          with
          | Return (_, s') =>
              Return (tt, State (heap s')
                (mkDeque (head (self s')) (Some (length h)) (len (self s'))
                   (capacity (self s'))))
          | Panic => Panic
          | OutOfFuel => OutOfFuel
          end =
          Return (tt, State
            (<[lt:=Node vt (Some (length h)) pt]>
               (<[length h:=Node v None (Some lt)]> (h ++ [Node v None None])))
            (mkDeque hd0 (Some (length h)) n c))).
        { intros hd0 tl0.
          rewrite list_lookup_insert_ne by lia.
          rewrite lookup_app_l by lia. rewrite Hht. reflexivity. }
        destruct (Z.eqb_spec n 1) as [Hn1|Hn1].
        * rewrite (Hhd1 Hn1). simpl. rewrite lookup_snoc_last. simpl.
          rewrite Hstore. simpl.
          rewrite int_add_small by (unfold Int.min_int; lia). reflexivity.
        * rewrite Htl. simpl. rewrite lookup_snoc_last. simpl.
          rewrite Hstore. simpl.
          rewrite int_add_small by (unfold Int.min_int; lia). reflexivity.
      + apply linked_snoc; assumption.
      + rewrite !length_insert, length_app. simpl. lia.
      + intros l' Hl' Hb'.
        assert (lt <> l').
        { intros <-. apply Hl'. eapply list_elem_of_lookup_2; eauto. }
        rewrite !list_lookup_insert_ne by (unfold fresh; lia).
        apply lookup_app_l. exact Hb'. }
  destruct Hlink as (h1 & Hrun & Hlk1 & Hlen1 & Hframe).
  unfold append. rewrite Hrun. clear Hrun.
  assert (Hfresh : fresh ∉ ls).
  { intros Hin. apply list_elem_of_lookup_1 in Hin as [i Hi].
    pose proof (linked_bound _ _ _ _ _ Hlk Hi). unfold fresh in *. lia. }
  assert (Hrep1 : represents
    (State h1 (mkDeque ((ls ++ [fresh]) !! O) (Some fresh) (n + 1) c))
    (ls ++ [fresh]) (vs ++ [v])).
  { split; simpl.
    - apply NoDup_app. split; [exact Hnd|]. split; [|apply NoDup_singleton].
      intros x Hx Hx'. apply list_elem_of_singleton in Hx'. subst x. tauto.
    - rewrite !length_app. simpl. lia.
    - rewrite length_app. simpl. lia.
    - rewrite length_app. simpl. lia.
    - reflexivity.
    - symmetry. apply last_snoc.
    - exact Hlk1. }
  unfold bind at 1. unfold isOverflowing, IsUnlimited, GetCapacity, GetLen, bind at 1 2 3 4, ret at 1 2.
  simpl. rewrite overflow_test.
  replace (c <? n + 1) with (c <? Z.of_nat (length ls) + 1)
    by (rewrite Hn; reflexivity).
  destruct ((0 <=? c) && (c <? Z.of_nat (length ls) + 1)).
  - destruct (ls ++ [fresh]) as [|l0 ls'] eqn:Els.
    { destruct ls; discriminate. }
    destruct (vs ++ [v]) as [|v0 vs'] eqn:Evs.
    { destruct vs; discriminate. }
    destruct (tryPopLeft_spec _ _ _ _ _ Hrep1) as (s' & Hpop & Hrep' & Hc & Hl & Hfr).
    exists s'. unfold bind. rewrite Hpop. split; [reflexivity|].
    split; [exact Hrep'|]. split; [exact Hc|]. split; [simpl in *; lia|].
    intros l' Hl' Hb'. rewrite Hfr; simpl.
    + apply Hframe; assumption.
    + intros Hin. assert (Hin' : l' ∈ ls ++ [fresh]).
      { rewrite Els. apply elem_of_cons. right. exact Hin. }
      apply elem_of_app in Hin' as [?|Hx]; [tauto|].
      apply list_elem_of_singleton in Hx. unfold fresh in Hx. lia.
  - eexists. split; [reflexivity|].
    split; [exact Hrep1|]. split; [reflexivity|]. split; [exact Hlen1|].
    exact Hframe.
Qed.

Lemma snoc_decompose {A} (x : A) (xs : list A) :
  exists ys y, x :: xs = ys ++ [y] /\ take (length xs) (x :: xs) = ys.
Proof.
  destruct (proj2 (last_is_Some (x :: xs)) ltac:(discriminate)) as [y Hy].
  apply last_Some in Hy as [ys Hys]. exists ys, y. split; [exact Hys|].
  rewrite Hys. apply take_app_length'.
  apply (f_equal length) in Hys. rewrite length_app in Hys. simpl in Hys. lia.
Qed.

Lemma appendLeft_spec s ls vs v :
  represents s ls vs ->
  Z.of_nat (length ls) < Int.max_int ->
  exists s',
    appendLeft v s = Return (tt, s') /\
    (if (0 <=? capacity (self s)) &&
        (capacity (self s) <? Z.of_nat (length ls) + 1)
     then represents s' (take (length ls) (length (heap s) :: ls))
                        (take (length vs) (v :: vs))
     else represents s' (length (heap s) :: ls) (v :: vs)) /\
    capacity (self s') = capacity (self s) /\
    length (heap s') = S (length (heap s)) /\
    (forall l', l' ∉ ls -> (l' < length (heap s))%nat ->
                heap s' !! l' = heap s !! l').
Proof.
  destruct s as [h [hd tl n c]].
  intros [Hnd Hlen Hrange Hn Hhd Htl Hlk] Hlt. simpl in *.
  set (fresh := length h).
  assert (Hlink : exists h1,
    (forall k : M T unit,
     (n0 <- new_node v ;;
      l <- GetLen ;;
      (if l =? 0 then set_head n0 ;; set_tail n0
       else
         hh <- get_head ;; set_next n0 hh ;; hh <- get_head ;;
         set_prev hh n0 ;; set_head n0) ;;
      l <- GetLen ;;
      set_len (Int.add l 1) ;;
      k)
       (State h (mkDeque hd tl n c)) =
     k (State h1 (mkDeque (Some fresh) (last (fresh :: ls)) (n + 1) c))) /\
    linked h1 (fresh :: ls) (v :: vs) /\
    length h1 = S (length h) /\
    (forall l', l' ∉ ls -> (l' < length h)%nat -> h1 !! l' = h !! l')).
  { unfold bind, new_node, GetLen. simpl.
    destruct ls as [|l0 ls0] eqn:Els.
    - destruct vs; [|discriminate]. simpl in *. subst n hd tl. simpl.
      exists (h ++ [Node v None None]). split; [reflexivity|]. split; [|split].
      + intros i l' Hi. destruct i; [|discriminate]. injection Hi as <-.
        exists v. split; [reflexivity|]. simpl. apply lookup_snoc_last.
      + simpl. rewrite length_app. simpl. lia.
      + intros l' _ Hl'. simpl. apply lookup_app_l. exact Hl'.
    - rewrite <- Els in *.
      assert (Hl0 : ls !! O = Some l0) by (rewrite Els; reflexivity).
      destruct (Hlk _ _ Hl0) as (v0 & Hv0 & Hh0).
      pose proof (lookup_lt_Some _ _ _ Hh0) as Hb.
      rewrite Hl0 in Hhd.
      assert (Htl' : last (fresh :: ls) = tl).
      { rewrite Htl, Els. apply last_cons_cons. }
      rewrite Htl'.
      destruct (Z.eqb_spec n 0) as [|_]; [rewrite Els in Hn; simpl in Hn; lia|].
      exists (<[l0 := Node v0 (ls !! 1%nat) (Some fresh)]>
               (<[fresh := Node v (Some l0) None]> (h ++ [Node v None None]))).
      split; [|split; [|split]].
      + intros k.
        unfold get_head, set_prev, set_next, set_head, bind, store.
        simpl. rewrite Hhd. simpl. rewrite lookup_snoc_last. simpl.
        rewrite list_lookup_insert_ne by lia.
        rewrite lookup_app_l by lia. rewrite Hh0. simpl.
        rewrite int_add_small by (unfold Int.min_int; lia). reflexivity.
      + apply linked_cons; assumption.
      + rewrite !length_insert, length_app. simpl. lia.
      + intros l' Hl' Hb'.
        assert (l0 <> l').
        { intros <-. apply Hl'. eapply list_elem_of_lookup_2; eauto. }
        rewrite !list_lookup_insert_ne by (unfold fresh; lia).
        apply lookup_app_l. exact Hb'. }
  destruct Hlink as (h1 & Hrun & Hlk1 & Hlen1 & Hframe).
  unfold appendLeft. rewrite Hrun. clear Hrun.
  assert (Hfresh : fresh ∉ ls).
  { intros Hin. apply list_elem_of_lookup_1 in Hin as [i Hi].
    pose proof (linked_bound _ _ _ _ _ Hlk Hi). unfold fresh in *. lia. }
  assert (Hrep1 : represents
    (State h1 (mkDeque (Some fresh) (last (fresh :: ls)) (n + 1) c))
    (fresh :: ls) (v :: vs)).
  { split; simpl; try reflexivity; try lia.
    - apply NoDup_cons. split; assumption.
    - exact Hlk1. }
  unfold bind at 1. unfold isOverflowing, IsUnlimited, GetCapacity, GetLen, bind at 1 2 3 4, ret at 1 2.
  simpl. rewrite overflow_test.
  replace (c <? n + 1) with (c <? Z.of_nat (length ls) + 1)
    by (rewrite Hn; reflexivity).
  destruct ((0 <=? c) && (c <? Z.of_nat (length ls) + 1)).
  - destruct (snoc_decompose fresh ls) as (ls' & lz & Els & Etk).
    destruct (snoc_decompose v vs) as (vs' & vz & Evs & Etv).
    rewrite Etk, Etv. rewrite Els, Evs in Hrep1.
    destruct (tryPop_spec _ _ _ _ _ Hrep1) as (s' & Hpop & Hrep' & Hc & Hl & Hfr).
    exists s'. unfold bind. rewrite Els, Hpop. split; [reflexivity|].
    split; [exact Hrep'|]. split; [exact Hc|]. split; [simpl in *; lia|].
    intros l' Hl' Hb'. rewrite Hfr; simpl.
    + apply Hframe; assumption.
    + rewrite <- Els. intros Hin. apply elem_of_cons in Hin as [Hx|?]; [|tauto].
      unfold fresh in Hx. lia.
  - eexists. split; [reflexivity|].
    split; [exact Hrep1|]. split; [reflexivity|]. split; [exact Hlen1|].
    exact Hframe.
Qed.

(** ** Sequences of appends *)

Lemma keep_last_length C vs :
  Z.of_nat (length (keep_last C vs)) =
  if C <? 0 then Z.of_nat (length vs) else Z.min (Z.of_nat (length vs)) C.
Proof.
  unfold keep_last. destruct (Z.ltb_spec C 0); [reflexivity|].
  rewrite length_drop. lia.
Qed.

Lemma keep_last_snoc C vs v :
  keep_last C (vs ++ [v]) =
  if (0 <=? C) && (C <? Z.of_nat (length (keep_last C vs)) + 1)
  then drop 1 (keep_last C vs ++ [v])
  else keep_last C vs ++ [v].
Proof.
  pose proof (keep_last_length C vs) as Hlen. revert Hlen.
  unfold keep_last. destruct (Z.ltb_spec C 0) as [Hc|Hc]; intros Hlen.
  - replace (0 <=? C) with false by (symmetry; apply Z.leb_gt; exact Hc).
    reflexivity.
  - replace (0 <=? C) with true by (symmetry; apply Z.leb_le; exact Hc).
    rewrite Hlen, length_app. simpl.
    destruct (Z.ltb_spec C (Z.min (Z.of_nat (length vs)) C + 1)) as [Hlt|Hge].
    + rewrite <- drop_app_le by lia. rewrite drop_drop. f_equal. lia.
    + replace (length vs + 1 - Z.to_nat C)%nat with O by lia.
      replace (length vs - Z.to_nat C)%nat with O by lia. reflexivity.
Qed.

Lemma append_all_snoc vs v s :
  append_all (vs ++ [v]) s = (append_all vs ;; Append v) s.
Proof.
  revert s. induction vs as [|x vs IH]; intros s; simpl.
  - unfold bind, ret. destruct (Append v s) as [[[] s']| |]; reflexivity.
  - unfold bind in *. destruct (Append x s) as [[[] s']| |]; [|reflexivity..].
    apply IH.
Qed.

Lemma represents_NewDeque h C : represents (State h (NewDeque C)) [] [].
Proof.
  split; simpl; try reflexivity.
  - constructor.
  - unfold Int.max_int. lia.
  - intros i l Hi. rewrite lookup_nil in Hi. discriminate.
Qed.

Lemma append_all_spec C vs h0 :
  Z.of_nat (length vs) <= Int.max_int \/ 0 <= C < Int.max_int ->
  exists s ls,
    append_all vs (State h0 (NewDeque C)) = Return (tt, s) /\
    represents s ls (keep_last C vs) /\
    capacity (self s) = C.
Proof.
  induction vs as [|v vs IH] using rev_ind; intros Hb.
  - exists (State h0 (NewDeque C)), []. split; [reflexivity|].
    split; [|reflexivity].
    replace (keep_last C []) with (@nil T)
      by (unfold keep_last; destruct (C <? 0); reflexivity).
    apply represents_NewDeque.
  - rewrite length_app in Hb. simpl in Hb.
    destruct IH as (s & ls & Hrun & Hrep & Hcap); [lia|].
    pose proof (keep_last_length C vs) as Hlen.
    pose proof (rep_length _ _ _ Hrep) as Hll.
    assert (Hlt : Z.of_nat (length ls) < Int.max_int).
    { rewrite <- Hll, Hlen. destruct (Z.ltb_spec C 0); lia. }
    destruct (append_spec s ls _ v Hrep Hlt) as (s' & Happ & Hrep' & Hcap' & _).
    rewrite append_all_snoc. unfold bind. rewrite Hrun. unfold Append.
    rewrite Happ. rewrite keep_last_snoc. rewrite Hcap, <- Hll in Hrep'.
    destruct ((0 <=? C) && (C <? Z.of_nat (length (keep_last C vs)) + 1)).
    + eexists _, _. split; [reflexivity|]. split; [exact Hrep'|]. congruence.
    + eexists _, _. split; [reflexivity|]. split; [exact Hrep'|]. congruence.
Qed.

Lemma append_full_spec s ls vs v :
  represents s ls vs ->
  capacity (self s) = Z.of_nat (length ls) ->
  capacity (self s) < Int.max_int ->
  exists s' ls',
    Append v s = Return (tt, s') /\
    len (self s') = capacity (self s) /\
    capacity (self s') = capacity (self s) /\
    represents s' ls' (drop 1 (vs ++ [v])).
Proof.
  intros Hrep Hcap Hlt.
  destruct (append_spec s ls vs v Hrep) as (s' & Happ & Hrep' & Hcap' & _);
    [lia|].
  replace ((0 <=? capacity (self s)) &&
           (capacity (self s) <? Z.of_nat (length ls) + 1)) with true in Hrep'
    by (symmetry; apply andb_true_iff; split; [apply Z.leb_le|apply Z.ltb_lt]; lia).
  eexists s', _. split; [exact Happ|]. split; [|split; [exact Hcap'|exact Hrep']].
  rewrite (rep_len _ _ _ Hrep'), Hcap. rewrite length_drop, length_app. simpl.
  lia.
Qed.

Lemma appendLeft_full_spec s ls vs v :
  represents s ls vs ->
  capacity (self s) = Z.of_nat (length ls) ->
  capacity (self s) < Int.max_int ->
  exists s' ls',
    AppendLeft v s = Return (tt, s') /\
    len (self s') = capacity (self s) /\
    capacity (self s') = capacity (self s) /\
    represents s' ls' (take (length vs) (v :: vs)).
Proof.
  intros Hrep Hcap Hlt.
  destruct (appendLeft_spec s ls vs v Hrep) as (s' & Happ & Hrep' & Hcap' & _);
    [lia|].
  replace ((0 <=? capacity (self s)) &&
           (capacity (self s) <? Z.of_nat (length ls) + 1)) with true in Hrep'
    by (symmetry; apply andb_true_iff; split; [apply Z.leb_le|apply Z.ltb_lt]; lia).
  eexists s', _. split; [exact Happ|]. split; [|split; [exact Hcap'|exact Hrep']].
  rewrite (rep_len _ _ _ Hrep'), Hcap. rewrite length_take. simpl. lia.
Qed.

(** ** Lookup on well-formed deques *)

Lemma walk_next_linked s ls vs (k : nat) : forall i : nat,
  linked (heap s) ls vs -> (i + k <= length ls)%nat ->
  walk get_next k (ls !! i) s = Return (ls !! (i + k)%nat, s).
Proof.
  induction k as [|k IH]; intros i Hlk Hik; simpl.
  - rewrite Nat.add_0_r. reflexivity.
  - destruct (lookup_lt_is_Some_2 ls i ltac:(lia)) as [l Hl].
    destruct (Hlk i l Hl) as (v & _ & Hh).
    unfold bind, get_next at 1, bind, deref, ret. rewrite Hl, Hh. simpl.
    rewrite IH by (assumption || lia). do 2 f_equal. f_equal. lia.
Qed.

Lemma walk_prev_linked s ls vs (k : nat) : forall i : nat,
  linked (heap s) ls vs -> (k <= i < length ls)%nat ->
  walk get_prev k (ls !! i) s = Return (ls !! (i - k)%nat, s).
Proof.
  induction k as [|k IH]; intros i Hlk Hik; simpl.
  - rewrite Nat.sub_0_r. reflexivity.
  - destruct (lookup_lt_is_Some_2 ls i ltac:(lia)) as [l Hl].
    destruct (Hlk i l Hl) as (v & _ & Hh).
    unfold bind, get_prev at 1, bind, deref, ret. rewrite Hl, Hh. simpl.
    destruct i as [|j]; [lia|].
    rewrite IH by (assumption || lia). reflexivity.
Qed.

Lemma TryPeek_spec s ls vs (i : nat) v :
  represents s ls vs -> vs !! i = Some v ->
  TryPeek (Z.of_nat i) s = Return ((v, None), s).
Proof.
  intros [Hnd Hlen Hrange Hn Hhd Htl Hlk] Hv.
  pose proof (lookup_lt_Some _ _ _ Hv) as Hi. rewrite Hlen in Hi.
  destruct (lookup_lt_is_Some_2 ls i Hi) as [l Hl].
  destruct (Hlk i l Hl) as (v' & Hv' & Hh).
  assert (v' = v) by congruence. subst v'.
  assert (Hget : get_value (Some l) s = Return (v, s)).
  { unfold get_value, bind, deref, ret. rewrite Hh. reflexivity. }
  unfold TryPeek, bind, GetLen, get_head, get_tail. cbv beta iota zeta.
  replace ((Z.of_nat i <? 0) || (len (self s) <=? Z.of_nat i)) with false
    by (symmetry; apply orb_false_iff; split; [apply Z.ltb_ge|apply Z.leb_gt]; lia).
  rewrite int_div_2 by lia.
  destruct (Z.ltb_spec (Z.of_nat i) (len (self s) / 2)) as [Hlt|Hge].
  - rewrite Hhd, Nat2Z.id.
    rewrite (walk_next_linked s ls vs i O Hlk) by lia.
    simpl. rewrite Hl, Hget. reflexivity.
  - rewrite Htl, last_lookup.
    rewrite (int_sub_small (len (self s)) 1)
      by (unfold Int.min_int, Int.max_int in *; lia).
    rewrite int_sub_small by (unfold Int.min_int, Int.max_int in *; lia).
    replace (Z.to_nat (len (self s) - 1 - Z.of_nat i))
      with (pred (length ls) - i)%nat by lia.
    rewrite (walk_prev_linked s ls vs _ _ Hlk) by lia.
    replace (pred (length ls) - (pred (length ls) - i))%nat with i by lia.
    rewrite Hl, Hget. reflexivity.
Qed.

(** ** Footprints *)

Lemma frame_refl F h : frame F h h.
Proof. split; [lia|reflexivity]. Qed.

Lemma frame_trans F h1 h2 h3 : frame F h1 h2 -> frame F h2 h3 -> frame F h1 h3.
Proof.
  intros [Hl1 Hf1] [Hl2 Hf2]. split; [lia|].
  intros l Hl. rewrite Hf2, Hf1 by assumption. reflexivity.
Qed.

Lemma safe_ret {A} F (Q : A -> Prop) (a : A) : Q a -> safe F Q (ret a : M T A).
Proof.
  intros Hq s Hc a' s' [= <- <-]. split; [exact Hc|].
  split; [apply frame_refl|exact Hq].
Qed.

Lemma safe_bind {A B} F (Q : A -> Prop) (R : B -> Prop) (m : M T A)
    (k : A -> M T B) :
  safe F Q m -> (forall a, Q a -> safe F R (k a)) -> safe F R (bind m k).
Proof.
  intros Hm Hk s Hc b s' Hb. apply bind_Return in Hb as (a & s1 & H1 & H2).
  destruct (Hm s Hc a s1 H1) as (Hc1 & Hf1 & Hq).
  destruct (Hk a Hq s1 Hc1 b s' H2) as (Hc2 & Hf2 & Hr).
  split; [exact Hc2|]. split; [eapply frame_trans; eassumption|exact Hr].
Qed.

Lemma safe_conseq {A} F (Q Q' : A -> Prop) (m : M T A) :
  safe F Q m -> (forall a, Q a -> Q' a) -> safe F Q' m.
Proof.
  intros Hm Hq s Hc a s' Hr. destruct (Hm s Hc a s' Hr) as (? & ? & ?).
  auto.
Qed.

Lemma safe_panic {A} F (Q : A -> Prop) : safe F Q (panic : M T A).
Proof. intros s _ a s' Hr. discriminate Hr. Qed.

Lemma safe_out_of_fuel {A} F (Q : A -> Prop) : safe F Q (out_of_fuel : M T A).
Proof. intros s _ a s' Hr. discriminate Hr. Qed.

Lemma safe_get_head F : safe F (ptr_in F) (get_head : M T ptr).
Proof.
  intros s Hc a s' [= <- <-]. split; [exact Hc|].
  split; [apply frame_refl|apply Hc].
Qed.

Lemma safe_get_tail F : safe F (ptr_in F) (get_tail : M T ptr).
Proof.
  intros s Hc a s' [= <- <-]. split; [exact Hc|].
  split; [apply frame_refl|apply Hc].
Qed.

Lemma safe_GetLen F : safe F (fun _ => True) (GetLen : M T Z).
Proof.
  intros s Hc a s' [= <- <-]. split; [exact Hc|].
  split; [apply frame_refl|exact I].
Qed.

Lemma safe_GetCapacity F : safe F (fun _ => True) (GetCapacity : M T Z).
Proof.
  intros s Hc a s' [= <- <-]. split; [exact Hc|].
  split; [apply frame_refl|exact I].
Qed.

Lemma safe_set_head F p : ptr_in F p -> safe F (fun _ => True) (set_head p : M T unit).
Proof.
  intros Hp s [Hh Ht Hn Hf] a s' [= <- <-].
  split; [split; assumption|]. split; [apply frame_refl|exact I].
Qed.

Lemma safe_set_tail F p : ptr_in F p -> safe F (fun _ => True) (set_tail p : M T unit).
Proof.
  intros Hp s [Hh Ht Hn Hf] a s' [= <- <-].
  split; [split; assumption|]. split; [apply frame_refl|exact I].
Qed.

Lemma safe_set_len F n : safe F (fun _ => True) (set_len n : M T unit).
Proof.
  intros s [Hh Ht Hn Hf] a s' [= <- <-].
  split; [split; assumption|]. split; [apply frame_refl|exact I].
Qed.

Lemma safe_deref F p :
  ptr_in F p ->
  safe F (fun nd => ptr_in F (next nd) /\ ptr_in F (prev nd)) (deref p : M T (node T)).
Proof.
  intros Hp s Hc nd s' Hr. unfold deref in Hr.
  destruct p as [l|]; [|discriminate].
  destruct (heap s !! l) as [nd'|] eqn:Hl; [|discriminate].
  injection Hr as <- <-. split; [exact Hc|]. split; [apply frame_refl|].
  eapply closed_nodes; eauto.
Qed.

Lemma safe_get_next F p : ptr_in F p -> safe F (ptr_in F) (get_next p : M T ptr).
Proof.
  intros Hp. unfold get_next. eapply safe_bind; [apply safe_deref, Hp|].
  intros nd [Hn _]. apply safe_ret, Hn.
Qed.

Lemma safe_get_prev F p : ptr_in F p -> safe F (ptr_in F) (get_prev p : M T ptr).
Proof.
  intros Hp. unfold get_prev. eapply safe_bind; [apply safe_deref, Hp|].
  intros nd [_ Hn]. apply safe_ret, Hn.
Qed.

Lemma safe_get_value F p : ptr_in F p -> safe F (fun _ => True) (get_value p : M T T).
Proof.
  intros Hp. unfold get_value. eapply safe_bind; [apply safe_deref, Hp|].
  intros nd _. apply safe_ret, I.
Qed.

Lemma safe_store F p (f : node T -> node T) :
  ptr_in F p ->
  (forall nd, ptr_in F (next nd) -> ptr_in F (prev nd) ->
              ptr_in F (next (f nd)) /\ ptr_in F (prev (f nd))) ->
  safe F (fun _ => True) (store p f).
Proof.
  intros Hp Hf s [Hh Ht Hn Hfr] [] s' Hr. unfold store in Hr.
  destruct p as [l|]; [|discriminate].
  destruct (heap s !! l) as [nd|] eqn:Hl; [|discriminate].
  injection Hr as <-. simpl in *.
  destruct (Hn l nd Hp Hl) as [Hnx Hpv].
  split; [|split; [|exact I]].
  - split; simpl; try assumption.
    + intros l' nd' Hl' Hlook.
      destruct (decide (l = l')) as [<-|Hne].
      * rewrite list_lookup_insert_eq in Hlook
          by (eapply lookup_lt_Some; eauto).
        injection Hlook as <-. apply Hf; assumption.
      * rewrite list_lookup_insert_ne in Hlook by assumption. eauto.
    + intros l'. rewrite length_insert. apply Hfr.
  - split; [rewrite length_insert; lia|].
    intros l' Hl'. apply list_lookup_insert_ne. intros <-. tauto.
Qed.

Lemma safe_set_next F p q :
  ptr_in F p -> ptr_in F q -> safe F (fun _ => True) (set_next p q : M T unit).
Proof.
  intros Hp Hq. apply safe_store; [exact Hp|]. intros nd _ Hpv. simpl. tauto.
Qed.

Lemma safe_set_prev F p q :
  ptr_in F p -> ptr_in F q -> safe F (fun _ => True) (set_prev p q : M T unit).
Proof.
  intros Hp Hq. apply safe_store; [exact Hp|]. intros nd Hnx _. simpl. tauto.
Qed.

Lemma safe_new_node F (v : T) : safe F (ptr_in F) (new_node v).
Proof.
  intros s [Hh Ht Hn Hfr] p s' [= <- <-]. simpl.
  split; [|split].
  - split; simpl; try assumption.
    + intros l nd Hl Hlook. apply lookup_app_Some in Hlook as [Hlook|[_ Hlook]].
      * eauto.
      * destruct (l - length (heap s))%nat; [|discriminate].
        injection Hlook as <-. simpl. tauto.
    + intros l. rewrite length_app. simpl. intros Hl. apply Hfr. lia.
  - split; [rewrite length_app; lia|].
    intros l Hl. apply lookup_app_l.
    destruct (Nat.lt_ge_cases l (length (heap s))) as [?|Hge]; [assumption|].
    exfalso. apply Hl, Hfr, Hge.
  - apply Hfr. lia.
Qed.


Ltac safe_step :=
  first
    [ assumption
    | exact I
    | apply safe_get_head | apply safe_get_tail
    | apply safe_GetLen | apply safe_GetCapacity
    | apply safe_set_head | apply safe_set_tail | apply safe_set_len
    | apply safe_get_next | apply safe_get_prev | apply safe_get_value
    | apply safe_set_next | apply safe_set_prev | apply safe_new_node
    | apply safe_ret
    | match goal with
      | |- safe _ _ (if ?c then _ else _) => destruct c
      end
    | (eapply safe_bind; [|intros ? ?]) ].

Ltac safe_auto := cbv zeta; repeat safe_step.

Lemma safe_IsUnlimited F : safe F (fun _ => True) (IsUnlimited : M T bool).
Proof. unfold IsUnlimited. safe_auto. Qed.

Lemma safe_isOverflowing F : safe F (fun _ => True) (isOverflowing : M T bool).
Proof.
  unfold isOverflowing.
  eapply safe_bind; [apply safe_IsUnlimited|intros ? ?]. safe_auto.
Qed.

Lemma safe_tryPop F : safe F (fun _ => True) (tryPop : M T (T * option error)).
Proof. unfold tryPop. safe_auto. Qed.

Lemma safe_tryPopLeft F :
  safe F (fun _ => True) (tryPopLeft : M T (T * option error)).
Proof. unfold tryPopLeft. safe_auto. Qed.

Lemma safe_append F (v : T) : safe F (fun _ => True) (append v).
Proof.
  unfold append.
  do 5 (eapply safe_bind; [safe_auto|intros ? ?]).
  eapply safe_bind; [apply safe_isOverflowing|intros o _].
  destruct o; [|safe_auto].
  eapply safe_bind; [apply safe_tryPopLeft|intros ? ?]. safe_auto.
Qed.

Lemma safe_appendLeft F (v : T) : safe F (fun _ => True) (appendLeft v).
Proof.
  unfold appendLeft.
  do 5 (eapply safe_bind; [safe_auto|intros ? ?]).
  eapply safe_bind; [apply safe_isOverflowing|intros o _].
  destruct o; [|safe_auto].
  eapply safe_bind; [apply safe_tryPop|intros ? ?]. safe_auto.
Qed.

Lemma safe_Clear F : safe F (fun _ => True) (Clear : M T unit).
Proof. unfold Clear. safe_auto. Qed.

Lemma safe_rotateRight F : safe F (fun _ => True) (rotateRight : M T unit).
Proof. unfold rotateRight. safe_auto. Qed.

Lemma safe_rotateLeft F : safe F (fun _ => True) (rotateLeft : M T unit).
Proof. unfold rotateLeft. safe_auto. Qed.

Lemma safe_for_range_nat F (n : nat) (body : M T unit) :
  safe F (fun _ => True) body -> safe F (fun _ => True) (for_range_nat n body).
Proof.
  intros Hb. induction n as [|n IH]; simpl; [safe_auto|].
  eapply safe_bind; [exact Hb|intros ? ?]. exact IH.
Qed.

Lemma safe_Rotate F (n : Z) : safe F (fun _ => True) (Rotate n : M T unit).
Proof.
  unfold Rotate. eapply safe_bind; [apply safe_GetLen|intros l _].
  destruct (l <? 2); [safe_auto|]. cbv zeta. unfold for_range.
  apply safe_for_range_nat.
  destruct (0 <=? n); [apply safe_rotateRight|apply safe_rotateLeft].
Qed.

Lemma safe_walk F (step : ptr -> M T ptr) :
  (forall p, ptr_in F p -> safe F (ptr_in F) (step p)) ->
  forall k p, ptr_in F p -> safe F (ptr_in F) (walk step k p).
Proof.
  intros Hs k. induction k as [|k IH]; intros p Hp; simpl; [safe_auto|].
  eapply safe_bind; [apply Hs, Hp|]. intros q Hq. apply IH, Hq.
Qed.

Lemma safe_TryPeek F (index : Z) :
  safe F (fun _ => True) (TryPeek index : M T (T * option error)).
Proof.
  unfold TryPeek. cbv zeta.
  eapply safe_bind; [apply safe_GetLen|intros l _].
  destruct ((index <? 0) || (l <=? index)); [safe_auto|].
  eapply safe_bind; [apply safe_GetLen|intros l' _].
  destruct (index <? Int.div l' 2).
  - eapply safe_bind; [apply safe_get_head|intros hd Hhd].
    eapply safe_bind; [apply safe_walk; [apply safe_get_next|exact Hhd]|].
    intros n Hn. safe_auto.
  - eapply safe_bind; [apply safe_get_tail|intros tl Htl].
    eapply safe_bind; [apply safe_GetLen|intros l'' _].
    eapply safe_bind; [apply safe_walk; [apply safe_get_prev|exact Htl]|].
    intros n Hn. safe_auto.
Qed.

Lemma safe_values_from F (fuel : nat) : forall p,
  ptr_in F p -> safe F (fun _ => True) (values_from fuel p : M T (list T)).
Proof.
  induction fuel as [|fuel IH]; intros [l|] Hp; simpl;
    try (apply safe_ret; exact I); try apply safe_out_of_fuel.
  eapply safe_bind; [apply safe_get_value, Hp|intros v _].
  eapply safe_bind; [apply safe_get_next, Hp|intros q Hq].
  eapply safe_bind; [apply IH, Hq|intros vs _]. apply safe_ret. exact I.
Qed.

Lemma safe_Values F (fuel : nat) :
  safe F (fun _ => True) (Values fuel : M T (list T)).
Proof.
  unfold Values. eapply safe_bind; [apply safe_get_head|intros p Hp].
  apply safe_values_from, Hp.
Qed.

Lemma safe_equal F (a b : T) : safe F (fun _ => True) (equal a b).
Proof.
  intros s Hcl r s' Hr. unfold equal in Hr.
  destruct (go_eq a b); [|discriminate]. injection Hr as _ <-.
  split; [exact Hcl|]. split; [apply frame_refl|exact I].
Qed.

Lemma safe_count_from F (fuel : nat) (v : T) : forall i p,
  ptr_in F p -> safe F (fun _ => True) (count_from fuel v i p).
Proof.
  induction fuel as [|fuel IH]; intros i [l|] Hp; simpl;
    try (apply safe_ret; exact I); try apply safe_out_of_fuel.
  eapply safe_bind; [apply safe_get_value, Hp|intros x _].
  eapply safe_bind; [apply safe_equal|intros b _].
  eapply safe_bind; [apply safe_get_next, Hp|intros q Hq].
  apply IH, Hq.
Qed.

Lemma safe_Count F (fuel : nat) (v : T) :
  safe F (fun _ => True) (Count fuel v).
Proof.
  unfold Count. eapply safe_bind; [apply safe_get_head|intros p Hp].
  apply safe_count_from, Hp.
Qed.

Lemma safe_on_other {A} F (Q : A -> Prop) (rv : Deque) (m : M T A) :
  ptr_in F (head rv) -> ptr_in F (tail rv) ->
  safe F Q m ->
  safe F (fun r => Q (fst r) /\ ptr_in F (head (snd r)) /\
                   ptr_in F (tail (snd r)))
       (on_other rv m).
Proof.
  intros Hh Ht Hm s [Hsh Hst Hsn Hsf] [a rv'] s' Hr. unfold on_other in Hr.
  destruct (m (State (heap s) rv)) as [[a' s1]| |] eqn:Hm1; try discriminate.
  injection Hr as <- <- <-.
  destruct (Hm (State (heap s) rv)) with (a := a') (s' := s1)
    as ([Hh1 Ht1 Hn1 Hf1] & Hfr & Hq); [split; assumption|exact Hm1|].
  simpl in *. split; [split; assumption|]. split; [exact Hfr|]. tauto.
Qed.

Lemma safe_copy_loop F (fuel : nat) : forall p rv,
  ptr_in F p -> ptr_in F (head rv) -> ptr_in F (tail rv) ->
  safe F (fun rv' => ptr_in F (head rv') /\ ptr_in F (tail rv'))
       (copy_loop fuel p rv).
Proof.
  induction fuel as [|fuel IH]; intros [l|] rv Hp Hh Ht; simpl;
    try (apply safe_ret; tauto); try apply safe_out_of_fuel.
  eapply safe_bind; [apply safe_get_value, Hp|intros v _].
  eapply safe_bind; [apply safe_on_other; [exact Hh|exact Ht|apply safe_append]|].
  intros [[] rv'] (_ & Hh' & Ht'). simpl in *.
  eapply safe_bind; [apply safe_get_next, Hp|intros q Hq].
  apply IH; assumption.
Qed.

Lemma safe_Copy F (fuel : nat) :
  safe F (fun rv => ptr_in F (head rv) /\ ptr_in F (tail rv)) (Copy fuel).
Proof.
  unfold Copy. eapply safe_bind; [apply safe_GetCapacity|intros c _].
  cbv zeta. eapply safe_bind; [apply safe_get_head|intros p Hp].
  apply safe_copy_loop; [exact Hp|exact I|exact I].
Qed.

Lemma safe_exec F (c : call) : safe F (fun _ => True) (exec c).
Proof.
  destruct c; simpl;
    try (eapply safe_bind; [|intros ? _; apply safe_ret; exact I]).
  - apply safe_append.
  - apply safe_appendLeft.
  - apply safe_tryPop.
  - apply safe_tryPopLeft.
  - apply safe_Clear.
  - apply safe_Rotate.
  - apply safe_TryPeek.
  - apply safe_Values.
  - apply safe_Count.
  - apply safe_Copy.
Qed.

Lemma safe_run F (cs : list call) : safe F (fun _ => True) (run cs).
Proof.
  induction cs as [|c cs IH]; simpl; [apply safe_ret; exact I|].
  eapply safe_bind; [apply safe_exec|intros _ _; exact IH].
Qed.

(** ** Forward chains *)

Lemma chain_frame h h' : forall ls vs p,
  (forall l, l ∈ ls -> h' !! l = h !! l) ->
  chain h p ls vs -> chain h' p ls vs.
Proof.
  induction ls as [|l ls IH]; intros [|v vs] p Hfr Hch; simpl in *; try tauto.
  destruct Hch as (-> & nd & Hl & Hv & Hch). split; [reflexivity|].
  exists nd. split; [|split; [exact Hv|]].
  - rewrite Hfr; [exact Hl|]. apply elem_of_cons. left. reflexivity.
  - apply IH; [|exact Hch]. intros l' Hl'. apply Hfr, elem_of_cons. right. exact Hl'.
Qed.

Lemma chain_length h : forall ls vs p, chain h p ls vs -> length vs = length ls.
Proof.
  induction ls as [|l ls IH]; intros [|v vs] p Hch; simpl in *; try tauto.
  destruct Hch as (_ & nd & _ & _ & Hch). f_equal. eapply IH, Hch.
Qed.

Lemma chain_bound h : forall ls vs p l,
  chain h p ls vs -> l ∈ ls -> (l < length h)%nat.
Proof.
  induction ls as [|l0 ls IH]; intros [|v vs] p l Hch Hl; simpl in *; try tauto.
  - apply elem_of_nil in Hl. tauto.
  - destruct Hch as (_ & nd & Hl0 & _ & Hch).
    apply elem_of_cons in Hl as [->|Hl].
    + eapply lookup_lt_Some, Hl0.
    + eapply IH; eassumption.
Qed.

(** The forward chain of a well-formed deque. *)
Lemma linked_chain h ls vs : forall (k : nat),
  linked h ls vs -> length vs = length ls ->
  chain h (ls !! k) (drop k ls) (drop k vs).
Proof.
  intros k Hlk Hlen.
  remember (length ls - k)%nat as n eqn:Hn. revert k Hn.
  induction n as [|n IH]; intros k Hn.
  - rewrite !drop_ge by lia. rewrite lookup_ge_None_2 by lia. reflexivity.
  - destruct (lookup_lt_is_Some_2 ls k ltac:(lia)) as [l Hl].
    destruct (Hlk k l Hl) as (v & Hv & Hh).
    rewrite (drop_S _ _ _ Hl), (drop_S _ _ _ Hv). simpl.
    split; [exact Hl|]. exists (Node v (ls !! S k) (match k with O => None | S j => ls !! j end)).
    split; [exact Hh|]. split; [reflexivity|]. simpl. apply IH. lia.
Qed.

Lemma represents_chain s ls vs :
  represents s ls vs -> chain (heap s) (head (self s)) ls vs.
Proof.
  intros [_ Hlen _ _ Hhd _ Hlk]. rewrite Hhd.
  apply (linked_chain _ _ _ O Hlk Hlen).
Qed.

Lemma represents_frame h h' d ls vs :
  (forall l, l ∈ ls -> h' !! l = h !! l) ->
  represents (State h d) ls vs -> represents (State h' d) ls vs.
Proof.
  intros Hfr [Hnd Hlen Hrange Hn Hhd Htl Hlk]. split; try assumption.
  simpl in *. intros i l Hi. destruct (Hlk i l Hi) as (v & Hv & Hh).
  exists v. split; [exact Hv|]. rewrite Hfr; [exact Hh|].
  eapply list_elem_of_lookup_2, Hi.
Qed.

Lemma represents_closed s ls vs F :
  represents s ls vs ->
  (forall l, l ∈ ls -> F l) ->
  ptr_in F (head (self s)) /\ ptr_in F (tail (self s)).
Proof.
  intros [_ _ _ _ Hhd Htl _] HF. rewrite Hhd, Htl. split.
  - destruct (ls !! O) as [l|] eqn:Hl; simpl; [|exact I].
    eapply HF, list_elem_of_lookup_2, Hl.
  - rewrite last_lookup.
    destruct (ls !! pred (length ls)) as [l|] eqn:Hl; simpl; [|exact I].
    eapply HF, list_elem_of_lookup_2, Hl.
Qed.

(** The values a full iteration yields. *)
Lemma values_from_chain s : forall ls vs p (fuel : nat),
  chain (heap s) p ls vs -> (length ls <= fuel)%nat ->
  values_from fuel p s = Return (vs, s).
Proof.
  induction ls as [|l ls IH]; intros [|v vs] p fuel Hch Hfuel; simpl in *;
    try tauto.
  - subst p. apply values_from_nil.
  - destruct Hch as (-> & nd & Hl & Hv & Hch).
    destruct fuel as [|fuel]; [lia|]. simpl.
    unfold bind, get_value, get_next, bind, deref, ret. rewrite Hl. simpl. rewrite Hl. simpl.
    rewrite (IH vs (next nd) fuel Hch) by lia. rewrite Hv. reflexivity.
Qed.


(** ** Copy *)

(** The loop of [Copy], started at heap length [N0]: the source chain
    lies below [N0], the copy [rv] above it. *)
Lemma copy_loop_spec (N0 : nat) (C : Z) d : forall ls vs (fuel : nat) p h rv ls2 done,
  (length ls <= fuel)%nat ->
  chain h p ls vs ->
  (forall l, l ∈ ls -> (l < N0)%nat) ->
  (N0 <= length h)%nat ->
  represents (State h rv) ls2 (keep_last C done) ->
  capacity rv = C ->
  (forall l, l ∈ ls2 -> (N0 <= l)%nat) ->
  closed (fun l => (N0 <= l)%nat) (State h rv) ->
  Z.of_nat (length (done ++ vs)) <= Int.max_int \/ 0 <= C < Int.max_int ->
  exists rv' h' ls2',
    copy_loop fuel p rv (State h d) = Return (rv', State h' d) /\
    represents (State h' rv') ls2' (keep_last C (done ++ vs)) /\
    capacity rv' = C /\
    (forall l, l ∈ ls2' -> (N0 <= l)%nat) /\
    closed (fun l => (N0 <= l)%nat) (State h' rv') /\
    (forall l, (l < N0)%nat -> h' !! l = h !! l) /\
    (length h <= length h')%nat.
Proof.
  induction ls as [|l ls IH];
    intros [|v vs] fuel p h rv ls2 done Hfuel Hch Hlow HN0 Hrep Hcap Hhigh Hcl Hb;
    simpl in Hch; try tauto.
  - subst p. exists rv, h, ls2. rewrite copy_loop_nil, app_nil_r.
    split; [reflexivity|]. split; [exact Hrep|]. split; [exact Hcap|].
    split; [exact Hhigh|]. split; [exact Hcl|]. split; [reflexivity|lia].
  - destruct Hch as (-> & nd & Hl & Hv & Hch).
    destruct fuel as [|fuel]; [simpl in Hfuel; lia|]. simpl in Hfuel.
    pose proof (keep_last_length C done) as Hkl.
    pose proof (rep_length _ _ _ Hrep) as Hll.
    assert (Hlt : Z.of_nat (length ls2) < Int.max_int).
    { rewrite <- Hll, Hkl. rewrite length_app in Hb. simpl in Hb.
      destruct (Z.ltb_spec C 0); lia. }
    destruct (append_spec _ _ _ v Hrep Hlt)
      as ([h1 rv1] & Happ & Hrep1 & Hcap1 & Hlen1 & Hfr1).
    simpl in Hcap1, Hlen1, Hfr1, Hrep1. rewrite Hcap, <- Hll in Hrep1.
    assert (Hl' : h1 !! l = Some nd).
    { rewrite Hfr1; [exact Hl| |eapply lookup_lt_Some, Hl].
      intros Hin. apply Hhigh in Hin.
      assert (l < N0)%nat by (apply Hlow, elem_of_cons; left; reflexivity). lia. }
    destruct (safe_append (fun l => (N0 <= l)%nat) v _ Hcl _ _ Happ)
      as (Hcl1 & _ & _).
    set (ls2' := if (0 <=? C) && (C <? Z.of_nat (length (keep_last C done)) + 1)
                 then drop 1 (ls2 ++ [length h]) else ls2 ++ [length h]).
    assert (Hrep1' : represents (State h1 rv1) ls2' (keep_last C (done ++ [v]))).
    { unfold ls2'. rewrite keep_last_snoc.
      destruct ((0 <=? C) && (C <? Z.of_nat (length (keep_last C done)) + 1));
        exact Hrep1. }
    assert (Hhigh' : forall l0, l0 ∈ ls2' -> (N0 <= l0)%nat).
    { intros l0 Hin.
      assert (Hin' : l0 ∈ ls2 ++ [length h]).
      { unfold ls2' in Hin.
        destruct ((0 <=? C) && (C <? Z.of_nat (length (keep_last C done)) + 1));
          [|exact Hin].
        apply list_elem_of_lookup_1 in Hin as [i Hi]. rewrite lookup_drop in Hi.
        eapply list_elem_of_lookup_2, Hi. }
      apply elem_of_app in Hin' as [Hin'|Hin']; [apply Hhigh, Hin'|].
      apply list_elem_of_singleton in Hin'. lia. }
    destruct (IH vs fuel (next nd) h1 rv1 ls2' (done ++ [v]))
      as (rv' & h' & ls2'' & Hrun & Hrep' & Hcap' & Hhigh'' & Hcl' & Hfr' & Hlen');
      try assumption.
    + lia.
    + apply (chain_frame h); [|exact Hch].
      intros l0 Hl0. apply Hfr1.
      * intros Hin. apply Hhigh in Hin.
        assert (l0 < N0)%nat by (apply Hlow, elem_of_cons; right; exact Hl0). lia.
      * assert (l0 < N0)%nat by (apply Hlow, elem_of_cons; right; exact Hl0). lia.
    + intros l0 Hl0. apply Hlow, elem_of_cons. right. exact Hl0.
    + lia.
    + congruence.
    + rewrite <- app_assoc. exact Hb.
    + exists rv', h', ls2''. rewrite <- app_assoc in Hrep'. simpl in Hrep'.
      split; [|split; [exact Hrep'|split; [exact Hcap'|split; [exact Hhigh''|
        split; [exact Hcl'|split; [|lia]]]]]].
      * assert (Hgv : get_value (Some l) (State h d) = Return (v, State h d)).
        { unfold get_value, bind, deref, ret. simpl. rewrite Hl, Hv. reflexivity. }
        assert (Hoo : on_other rv (append v) (State h d) =
                      Return ((tt, rv1), State h1 d)).
        { unfold on_other. simpl. rewrite Happ. reflexivity. }
        assert (Hgn : get_next (Some l) (State h1 d) =
                      Return (next nd, State h1 d)).
        { unfold get_next, bind, deref, ret. simpl. rewrite Hl'. reflexivity. }
        simpl.
        rewrite (bind_eq _ _ _ _ _ Hgv), (bind_eq _ _ _ _ _ Hoo),
          (bind_eq _ _ _ _ _ Hgn).
        exact Hrun.
      * intros l0 Hl0. rewrite Hfr' by exact Hl0. apply Hfr1; [|lia].
        intros Hin. apply Hhigh in Hin. lia.
Qed.


Lemma keep_last_all C vs :
  C < 0 \/ Z.of_nat (length vs) <= C -> keep_last C vs = vs.
Proof.
  intros HC. unfold keep_last. destruct (Z.ltb_spec C 0); [reflexivity|].
  replace (length vs - Z.to_nat C)%nat with O by lia. reflexivity.
Qed.

Lemma closed_NewDeque h C :
  closed (fun l => (length h <= l)%nat) (State h (NewDeque C)).
Proof.
  split; simpl; try exact I.
  - intros l nd Hl Hlook. apply lookup_lt_Some in Hlook. lia.
  - tauto.
Qed.

Lemma Copy_spec s ls vs (fuel : nat) :
  chain (heap s) (head (self s)) ls vs ->
  (length ls <= fuel)%nat ->
  Z.of_nat (length vs) <= Int.max_int \/ 0 <= capacity (self s) < Int.max_int ->
  exists rv h' ls2,
    Copy fuel s = Return (rv, State h' (self s)) /\
    represents (State h' rv) ls2 (keep_last (capacity (self s)) vs) /\
    capacity rv = capacity (self s) /\
    (forall l, l ∈ ls2 -> (length (heap s) <= l)%nat) /\
    closed (fun l => (length (heap s) <= l)%nat) (State h' rv) /\
    (forall l, (l < length (heap s))%nat -> h' !! l = heap s !! l) /\
    (length (heap s) <= length h')%nat.
Proof.
  destruct s as [h d]. simpl. intros Hch Hfuel Hb.
  destruct (copy_loop_spec (length h) (capacity d) d ls vs fuel (head d) h
              (NewDeque (capacity d)) [] [])
    as (rv & h' & ls2 & Hrun & Hrep & Hcap & Hhigh & Hcl & Hfr & Hlen);
    try assumption; try reflexivity.
  - intros l Hl. eapply chain_bound; eassumption.
  - replace (keep_last (capacity d) []) with (@nil T)
      by (unfold keep_last; destruct (capacity d <? 0); reflexivity).
    apply represents_NewDeque.
  - intros l Hl. apply elem_of_nil in Hl. tauto.
  - apply closed_NewDeque.
  - exists rv, h', ls2. split; [exact Hrun|]. simpl in Hrep.
    split; [exact Hrep|]. tauto.
Qed.

(** A deque and its copy live in disjoint parts of the heap: whatever
    is then called on one of them, the other still holds [vs]. *)
Lemma Copy_independent s ls vs (fuel : nat) :
  no_dangling s ->
  chain (heap s) (head (self s)) ls vs ->
  (length ls <= fuel)%nat ->
  len (self s) = Z.of_nat (length vs) ->
  len (self s) <= Int.max_int ->
  capacity (self s) < 0 \/ len (self s) <= capacity (self s) ->
  exists rv s' ls2,
    Copy fuel s = Return (rv, s') /\
    self s' = self s /\
    capacity rv = capacity (self s) /\
    len rv = len (self s) /\
    represents (State (heap s') rv) ls2 vs /\
    chain (heap s') (head (self s')) ls vs /\
    (forall l, l ∈ ls -> l ∉ ls2) /\
    (forall cs s'',
       run cs s' = Return (tt, s'') ->
       represents (State (heap s'') rv) ls2 vs) /\
    (forall cs s'',
       run cs (State (heap s') rv) = Return (tt, s'') ->
       chain (heap s'') (head (self s')) ls vs).
Proof.
  intros (Hdh & Hdt & Hdn) Hch Hfuel Hlen Hrange Hcap.
  destruct (Copy_spec s ls vs fuel Hch Hfuel)
    as (rv & h' & ls2 & Hrun & Hrep & Hc & Hhigh & Hcl & Hfr & Hgrow); [lia|].
  rewrite keep_last_all in Hrep by lia.
  assert (Hlow : forall l, l ∈ ls -> (l < length (heap s))%nat).
  { intros l Hl. eapply chain_bound; eassumption. }
  assert (Hch' : chain h' (head (self s)) ls vs).
  { apply (chain_frame (heap s)); [|exact Hch]. intros l Hl. apply Hfr, Hlow, Hl. }
  exists rv, (State h' (self s)), ls2. simpl.
  split; [exact Hrun|]. split; [reflexivity|]. split; [exact Hc|].
  split.
  { pose proof (rep_len _ _ _ Hrep) as Hl1. simpl in Hl1.
    rewrite Hl1, Hlen, (rep_length _ _ _ Hrep). reflexivity. }
  split; [exact Hrep|]. split; [exact Hch'|].
  split; [intros l Hl Hl2; apply Hlow in Hl; apply Hhigh in Hl2; lia|].
  split.
  - (* calls on the source *)
    intros cs [h'' d''] Hcs. simpl.
    set (F := fun l : loc => (l < length (heap s))%nat \/ (length h' <= l)%nat).
    assert (HclF : closed F (State h' (self s))).
    { split; simpl.
      - destruct (head (self s)); simpl in *; [left; assumption|exact I].
      - destruct (tail (self s)); simpl in *; [left; assumption|exact I].
      - intros l nd Hl Hlook. pose proof (lookup_lt_Some _ _ _ Hlook) as Hb.
        destruct Hl as [Hl|Hl]; [|lia]. rewrite Hfr in Hlook by exact Hl.
        destruct (Hdn l nd Hlook) as [Hnx Hpv].
        split; [destruct (next nd)|destruct (prev nd)]; simpl in *;
          try exact I; left; assumption.
      - intros l Hl. right. exact Hl. }
    destruct (safe_run F cs _ HclF _ _ Hcs) as (_ & [_ Hframe] & _).
    simpl in Hframe. apply (represents_frame h'); [|exact Hrep].
    intros l Hl. apply Hframe. intros [Hlt|Hge].
    + apply Hhigh in Hl. lia.
    + apply list_elem_of_lookup_1 in Hl as [i Hi].
      destruct (rep_linked _ _ _ Hrep i l Hi) as (v & _ & Hlook).
      apply lookup_lt_Some in Hlook. simpl in Hlook. lia.
  - (* calls on the copy *)
    intros cs [h'' d''] Hcs. simpl.
    destruct (safe_run _ cs _ Hcl _ _ Hcs) as (_ & [_ Hframe] & _).
    simpl in Hframe. apply (chain_frame h'); [|exact Hch'].
    intros l Hl. apply Hframe. apply Hlow in Hl. lia.
Qed.

(** ** Rotation to the left *)

(** Linking a node [l] behind the last node of a chain. *)
Lemma chain_snoc h h2 l v y : forall ls vs p lt,
  chain h p ls vs -> NoDup ls -> l ∉ ls -> last ls = Some lt ->
  (forall l0, l0 ∈ ls -> l0 <> lt -> h2 !! l0 = h !! l0) ->
  (exists ndt x, h !! lt = Some ndt /\
                 h2 !! lt = Some (Node (value ndt) (Some l) x)) ->
  h2 !! l = Some (Node v None y) ->
  chain h2 p (ls ++ [l]) (vs ++ [v]).
Proof.
  induction ls as [|l0 ls IH]; intros [|v0 vs] p lt Hch Hnd Hl Hlast Hfr Hlt Hl2;
    simpl in Hch; try tauto; try discriminate.
  destruct Hch as (-> & nd0 & Hl0 & Hv0 & Hch).
  apply NoDup_cons in Hnd as [Hl0' Hnd].
  apply not_elem_of_cons in Hl as [Hne Hl].
  destruct ls as [|l1 ls].
  - destruct vs; simpl in Hch; [|tauto]. injection Hlast as <-.
    destruct Hlt as (ndt & x & Hlt & Hlt2). rewrite Hl0 in Hlt. injection Hlt as <-.
    simpl. split; [reflexivity|]. eexists. split; [exact Hlt2|]. simpl.
    split; [exact Hv0|]. split; [reflexivity|].
    eexists. split; [exact Hl2|]. simpl. tauto.
  - rewrite last_cons_cons in Hlast.
    assert (Hne0 : l0 <> lt).
    { intros ->. apply Hl0'. apply last_Some_elem_of. exact Hlast. }
    simpl. split; [reflexivity|]. exists nd0.
    split; [rewrite Hfr; [exact Hl0|apply elem_of_cons; left; reflexivity|exact Hne0]|].
    split; [exact Hv0|].
    apply (IH vs (next nd0) lt); try assumption.
    intros l' Hl' Hne'. apply Hfr; [|exact Hne'].
    apply elem_of_cons. right. exact Hl'.
Qed.

Lemma chain_last_next h : forall ls vs p lt,
  chain h p ls vs -> last ls = Some lt ->
  exists ndt, h !! lt = Some ndt /\ next ndt = None.
Proof.
  induction ls as [|l0 ls IH]; intros [|v0 vs] p lt Hch Hlast;
    simpl in Hch; try tauto; try discriminate.
  destruct Hch as (-> & nd0 & Hl0 & Hv0 & Hch).
  destruct ls as [|l1 ls].
  - destruct vs; simpl in Hch; [|tauto]. injection Hlast as <-.
    exists nd0. tauto.
  - rewrite last_cons_cons in Hlast. eapply IH; eassumption.
Qed.

Lemma rotateLeft_spec s l l2 ls v vs :
  forward s (l :: l2 :: ls) (v :: vs) ->
  exists s',
    rotateLeft s = Return (tt, s') /\
    forward s' (l2 :: ls ++ [l]) (vs ++ [v]) /\
    len (self s') = len (self s) /\
    capacity (self s') = capacity (self s).
Proof.
  destruct s as [h [hd tl n c]]. intros (Hnd & Hch & Htl).
  cbn [heap self head tail] in Hch, Htl.
  destruct vs as [|v2 vs]; [simpl in Hch; destruct Hch as (_ & ? & _ & _ & ?); tauto|].
  destruct Hch as (-> & nd & Hl & Hv & Hch).
  fold (chain h (next nd) (l2 :: ls) (v2 :: vs)) in Hch.
  pose proof Hch as Hch2.
  destruct Hch2 as (Hnx & nd2 & Hl2 & Hv2 & _).
  rewrite last_cons_cons in Htl.
  destruct (proj2 (last_is_Some (l2 :: ls)) ltac:(discriminate)) as [lt Hlast].
  rewrite Hlast in Htl. subst tl.
  destruct (chain_last_next h (l2 :: ls) (v2 :: vs) _ _ Hch Hlast)
    as (ndt & Hlt & Hnt).
  apply NoDup_cons in Hnd as [Hnl Hnd].
  assert (Hne : l <> lt).
  { intros ->. apply Hnl. apply last_Some_elem_of. exact Hlast. }
  pose proof (lookup_lt_Some _ _ _ Hl) as Hb.
  pose proof (lookup_lt_Some _ _ _ Hlt) as Hbt.
  unfold rotateLeft, bind, get_head, get_next, set_head, set_next, get_tail,
    set_tail, bind, deref, store, ret.
  simpl. rewrite Hl. simpl. rewrite Hl. simpl.
  rewrite list_lookup_insert_ne by exact Hne. rewrite Hlt. simpl.
  eexists. split; [reflexivity|]. simpl.
  split; [|split; reflexivity].
  split; [|split]; simpl.
  - change (l2 :: ls ++ [l]) with ((l2 :: ls) ++ [l]).
    apply NoDup_app. split; [exact Hnd|]. split; [|apply NoDup_singleton].
    intros x Hx Hx'. apply list_elem_of_singleton in Hx'. subst x. tauto.
  - rewrite Hnx.
    change (l2 :: ls ++ [l]) with ((l2 :: ls) ++ [l]).
    change (v2 :: vs ++ [v]) with ((v2 :: vs) ++ [v]).
    rewrite Hnx in Hch.
    apply (chain_snoc h _ l v (prev nd) (l2 :: ls) (v2 :: vs) (Some l2) lt);
      try assumption.
    + intros l0 Hl0 Hne0.
      rewrite !list_lookup_insert_ne; [reflexivity| |congruence].
      intros <-. tauto.
    + exists ndt, (prev ndt). split; [exact Hlt|].
      apply list_lookup_insert_eq. rewrite length_insert. exact Hbt.
    + rewrite list_lookup_insert_ne by congruence.
      rewrite list_lookup_insert_eq by exact Hb. rewrite Hv. reflexivity.
  - change (l2 :: ls ++ [l]) with ((l2 :: ls) ++ [l]).
    symmetry. apply last_snoc.
Qed.


Lemma rotate_left1_length {A} (xs : list A) :
  length (rotate_left1 xs) = length xs.
Proof. destruct xs; simpl; [reflexivity|]. rewrite length_app. simpl. lia. Qed.

Lemma iter_rotate_left1_length {A} (k : nat) (xs : list A) :
  length (Nat.iter k rotate_left1 xs) = length xs.
Proof.
  induction k as [|k IH]; simpl; [reflexivity|].
  rewrite rotate_left1_length. exact IH.
Qed.

(** [k] single steps to the left are the rotation by [k mod length]. *)
Lemma iter_rotate_left1 {A} (k : nat) (xs : list A) :
  Nat.iter k rotate_left1 xs = rotate k xs.
Proof.
  destruct xs as [|x0 xs0].
  { unfold rotate. rewrite drop_nil, take_nil.
    induction k as [|k IH]; simpl; [reflexivity|]. rewrite IH. reflexivity. }
  set (xs := x0 :: xs0). assert (HL : (0 < length xs)%nat) by (simpl; lia).
  clearbody xs. clear x0 xs0.
  induction k as [|k IH].
  - unfold rotate. rewrite Nat.Div0.mod_0_l. simpl. rewrite app_nil_r. reflexivity.
  - simpl. rewrite IH. unfold rotate.
    pose proof (Nat.mod_upper_bound k (length xs) ltac:(lia)) as Hm.
    set (m := (k mod length xs)%nat) in *.
    destruct (lookup_lt_is_Some_2 xs m Hm) as [x Hx].
    rewrite (drop_S _ _ _ Hx). simpl.
    assert (Hmod : (S k mod length xs)%nat =
                   if decide (S m = length xs) then O else S m).
    { pose proof (Nat.div_mod_eq k (length xs)) as Hk. fold m in Hk.
      destruct (decide (S m = length xs)) as [He|Hne].
      - symmetry. apply (Nat.mod_unique _ _ (S (k / length xs))); nia.
      - symmetry. apply (Nat.mod_unique _ _ (k / length xs)); nia. }
    rewrite Hmod. destruct (decide (S m = length xs)) as [He|Hne].
    + rewrite drop_0, take_0, app_nil_r.
      rewrite drop_ge by lia. simpl.
      rewrite <- (take_S_r _ _ _ Hx). rewrite He. apply take_ge. lia.
    + rewrite <- app_assoc. rewrite (take_S_r _ _ _ Hx). reflexivity.
Qed.

Lemma rotateLeft_iter (k : nat) : forall s ls vs,
  forward s ls vs -> (2 <= length ls)%nat ->
  exists s',
    for_range_nat k rotateLeft s = Return (tt, s') /\
    forward s' (Nat.iter k rotate_left1 ls) (Nat.iter k rotate_left1 vs) /\
    len (self s') = len (self s) /\
    capacity (self s') = capacity (self s).
Proof.
  induction k as [|k IH]; intros s ls vs Hf Hlen.
  - exists s. split; [reflexivity|]. simpl. tauto.
  - pose proof (chain_length _ _ _ _ (proj1 (proj2 Hf))) as Hll.
    destruct ls as [|l [|l2 ls]]; simpl in Hlen; try lia.
    destruct vs as [|v vs]; [discriminate|].
    destruct (rotateLeft_spec _ _ _ _ _ _ Hf) as (s1 & Hrun & Hf1 & Hl1 & Hc1).
    destruct (IH s1 _ _ Hf1) as (s' & Hrun' & Hf' & Hl' & Hc').
    { simpl. rewrite length_app. simpl. lia. }
    exists s'. rewrite !Nat.iter_succ_r.
    split; [|split; [exact Hf'|split; congruence]].
    simpl. rewrite (bind_eq _ _ _ _ _ Hrun). exact Hrun'.
Qed.

(** [Rotate(n)] for a negative [n] other than the smallest [int]: the
    element order is rotated to the left by [|n| mod length]. *)
Lemma Rotate_left_spec s ls vs (n : Z) :
  forward s ls vs -> (2 <= length ls)%nat -> 2 <= len (self s) ->
  Int.min_int < n < 0 ->
  exists s',
    Rotate n s = Return (tt, s') /\
    forward s' (rotate (Z.to_nat (- n)) ls) (rotate (Z.to_nat (- n)) vs) /\
    len (self s') = len (self s) /\
    capacity (self s') = capacity (self s).
Proof.
  intros Hf Hlen Hl Hn.
  destruct (rotateLeft_iter (Z.to_nat (- n)) s ls vs Hf Hlen)
    as (s' & Hrun & Hf' & Hl' & Hc').
  exists s'. rewrite !iter_rotate_left1 in Hf'.
  split; [|tauto].
  unfold Rotate, bind, GetLen. cbv beta iota zeta.
  destruct (Z.ltb_spec (len (self s)) 2) as [|_]; [lia|].
  destruct (Z.leb_spec 0 n) as [|_]; [lia|].
  destruct (Z.ltb_spec n 0) as [_|]; [|lia].
  unfold for_range, Int.neg.
  rewrite wrap_in_range by (unfold Int.min_int, Int.max_int in *; lia).
  exact Hrun.
Qed.

(** ** Rotation to the right *)

(** A chain, node by node. *)
Lemma chain_lookup h : forall ls vs p,
  chain h p ls vs <->
  length vs = length ls /\ p = ls !! O /\
  forall i l, ls !! i = Some l ->
    exists nd, h !! l = Some nd /\ vs !! i = Some (value nd) /\
               next nd = ls !! S i.
Proof.
  induction ls as [|l0 ls IH]; intros [|v0 vs] p; simpl.
  - split; [intros ->|tauto]. split; [reflexivity|]. split; [reflexivity|].
    intros i l Hi. rewrite lookup_nil in Hi. discriminate.
  - split; [tauto|]. intros (? & _). discriminate.
  - split; [tauto|]. intros (? & _). discriminate.
  - split.
    + intros (-> & nd & Hl0 & Hv0 & Hch). apply IH in Hch as (Hlen & Hp & Hall).
      split; [congruence|]. split; [reflexivity|].
      intros [|i] l Hi; simpl in Hi.
      * injection Hi as <-. exists nd. simpl. rewrite Hv0. tauto.
      * apply Hall, Hi.
    + intros (Hlen & -> & Hall). split; [reflexivity|].
      destruct (Hall O l0 eq_refl) as (nd & Hl0 & Hv0 & Hnx). simpl in Hv0, Hnx.
      exists nd. split; [exact Hl0|]. split; [congruence|].
      apply IH. split; [congruence|]. split; [exact Hnx|].
      intros i l Hi. apply (Hall (S i) l Hi).
Qed.

Lemma represents_right_rotated s ls vs :
  represents s ls vs -> right_rotated s [] ls [] vs.
Proof.
  intros Hrep. split; [|split; [reflexivity|]].
  - split; [apply Hrep|]. split; [apply represents_chain, Hrep|apply Hrep].
  - intros i l Hi. destruct (rep_linked _ _ _ Hrep i l Hi) as (v & _ & Hh).
    eexists. split; [exact Hh|reflexivity].
Qed.


Lemma rotateRight_step s A B0 t va vb0 vt :
  B0 <> [] ->
  right_rotated s A (B0 ++ [t]) va (vb0 ++ [vt]) ->
  exists s',
    rotateRight s = Return (tt, s') /\
    right_rotated s' (t :: A) B0 (vt :: va) vb0 /\
    len (self s') = len (self s) /\
    capacity (self s') = capacity (self s).
Proof.
  destruct s as [h [hd tl n c]].
  intros HB0 ((Hnd & Hch & Htl) & Hva & Hback).
  cbn [heap self head tail] in Hch, Htl, Hback.
  rewrite (app_assoc A) in Hnd, Hch, Htl. rewrite (app_assoc va) in Hch.
  remember (A ++ B0) as ls eqn:Els. remember (va ++ vb0) as vs eqn:Evs.
  apply chain_lookup in Hch as (Hlen & Hhd & Hall).
  rewrite !length_app in Hlen. simpl in Hlen.
  assert (Hlen' : length vs = length ls) by lia.
  rewrite last_snoc in Htl. subst tl.
  assert (HposB : (0 < length B0)%nat) by (destruct B0; [done|simpl; lia]).
  assert (Hpos : (0 < length ls)%nat) by (rewrite Els, length_app; lia).
  (* the tail node *)
  destruct (Hall (length ls) t (lookup_snoc_last _ _)) as (ndt & Ht & Hvt & Hnt).
  rewrite <- Hlen', lookup_snoc_last in Hvt. injection Hvt as Hvt.
  destruct (Hback (length B0) t (lookup_snoc_last _ _)) as (ndt' & Ht' & Hpt).
  rewrite Ht in Ht'. injection Ht' as <-.
  destruct (length B0) as [|kb] eqn:HkB; [lia|].
  destruct (lookup_lt_is_Some_2 B0 kb ltac:(lia)) as [b Hb].
  rewrite (lookup_app_l_Some _ _ _ _ Hb) in Hpt.
  (* its predecessor *)
  assert (Hbl : ls !! pred (length ls) = Some b).
  { rewrite Els. rewrite lookup_app_r by (rewrite length_app; lia).
    rewrite <- Hb. f_equal. rewrite length_app. lia. }
  destruct (Hall _ b (lookup_app_l_Some _ _ _ _ Hbl)) as (ndb & Hhb & Hvb & Hnb).
  replace (S (pred (length ls))) with (length ls) in Hnb by lia.
  rewrite lookup_snoc_last in Hnb.
  apply NoDup_app in Hnd as (Hndl & Hdisj & _).
  assert (Htl : t ∉ ls).
  { intros Hin. apply (Hdisj t Hin). apply elem_of_cons. left. reflexivity. }
  assert (Hne : b <> t).
  { intros ->. apply Htl. eapply list_elem_of_lookup_2, Hbl. }
  pose proof (lookup_lt_Some _ _ _ Ht) as Hbt.
  pose proof (lookup_lt_Some _ _ _ Hhb) as Hbb.
  unfold rotateRight, bind, get_tail, get_head, set_next, get_prev, set_tail,
    set_prev, set_head, bind, deref, store, ret.
  simpl. rewrite Ht. simpl.
  rewrite list_lookup_insert_eq by exact Hbt. simpl. rewrite Hpt. simpl.
  rewrite list_lookup_insert_ne by congruence. rewrite Hhb. simpl.
  rewrite list_lookup_insert_ne by congruence.
  rewrite list_lookup_insert_eq by exact Hbt. simpl.
  eexists. split; [reflexivity|]. simpl.
  split; [|split; reflexivity].
  assert (Hother : forall l, l <> t -> l <> b ->
    <[t:=Node (value ndt) hd None]>
      (<[b:=Node (value ndb) None (prev ndb)]>
         (<[t:=Node (value ndt) hd (Some b)]> h)) !! l = h !! l).
  { intros l H1 H2. rewrite !list_lookup_insert_ne by congruence. reflexivity. }
  assert (Hatb :
    <[t:=Node (value ndt) hd None]>
      (<[b:=Node (value ndb) None (prev ndb)]>
         (<[t:=Node (value ndt) hd (Some b)]> h)) !! b =
    Some (Node (value ndb) None (prev ndb))).
  { rewrite list_lookup_insert_ne by congruence.
    apply list_lookup_insert_eq. rewrite length_insert. exact Hbb. }
  assert (Hatt :
    <[t:=Node (value ndt) hd None]>
      (<[b:=Node (value ndb) None (prev ndb)]>
         (<[t:=Node (value ndt) hd (Some b)]> h)) !! t =
    Some (Node (value ndt) hd None)).
  { apply list_lookup_insert_eq. rewrite !length_insert. exact Hbt. }
  split; [split; [|split]|split]; cbn [heap self head tail].
  - replace ((t :: A) ++ B0) with (t :: ls) by (rewrite Els; reflexivity).
    apply NoDup_cons. tauto.
  - replace ((t :: A) ++ B0) with (t :: ls) by (rewrite Els; reflexivity).
    replace ((vt :: va) ++ vb0) with (vt :: vs) by (rewrite Evs; reflexivity).
    apply chain_lookup. split; [simpl; lia|]. split; [reflexivity|].
    intros [|j] l Hl; simpl in Hl.
    + injection Hl as <-. eexists. split; [exact Hatt|]. simpl.
      split; [congruence|]. rewrite Hhd. apply lookup_app_l. exact Hpos.
    + pose proof (lookup_lt_Some _ _ _ Hl) as Hj.
      destruct (Hall j l (lookup_app_l_Some _ _ _ _ Hl)) as (nd & Hh & Hv & Hn).
      rewrite lookup_app_l in Hv by lia.
      assert (Hlt : l <> t).
      { intros ->. apply Htl. eapply list_elem_of_lookup_2, Hl. }
      destruct (decide (l = b)) as [->|Hlb].
      * assert (j = pred (length ls)) by (eapply NoDup_lookup; eauto). subst j.
        eexists. split; [exact Hatb|]. simpl.
        assert (nd = ndb) by congruence. subst nd.
        split; [exact Hv|]. symmetry. apply lookup_ge_None_2. lia.
      * exists nd. rewrite Hother by assumption. split; [exact Hh|].
        split; [exact Hv|]. rewrite Hn. simpl. apply lookup_app_l.
        assert (j <> pred (length ls)) by (intros ->; congruence). lia.
  - replace ((t :: A) ++ B0) with (t :: ls) by (rewrite Els; reflexivity).
    rewrite last_cons, last_lookup, Hbl. reflexivity.
  - simpl. lia.
  - intros i l Hi. pose proof (lookup_lt_Some _ _ _ Hi) as Hib.
    destruct (Hback i l (lookup_app_l_Some _ _ _ _ Hi)) as (nd & Hh & Hp).
    assert (Hlt : l <> t).
    { intros ->. apply Htl. rewrite Els. apply elem_of_app. right.
      eapply list_elem_of_lookup_2, Hi. }
    assert (Hp' : prev nd = match i with O => None | S j => B0 !! j end).
    { rewrite Hp. destruct i as [|j]; [reflexivity|]. apply lookup_app_l. lia. }
    destruct (decide (l = b)) as [->|Hlb].
    + eexists. split; [exact Hatb|]. simpl.
      assert (nd = ndb) by congruence. subst nd. exact Hp'.
    + exists nd. rewrite Hother by assumption. tauto.
Qed.


(** Once every node but one has been moved, the tail is the node that
    was the head of the well-formed list: its [prev] is [nil], and the
    next step stores through it. *)
Lemma rotateRight_panic s A t va vt :
  A <> [] ->
  right_rotated s A [t] va [vt] ->
  rotateRight s = Panic.
Proof.
  destruct s as [h [hd tl n c]].
  intros HA ((Hnd & Hch & Htl) & Hva & Hback).
  cbn [heap self head tail] in Hch, Htl, Hback.
  apply chain_lookup in Hch as (Hlen & Hhd & Hall).
  rewrite last_snoc in Htl. subst tl.
  destruct (Hback O t eq_refl) as (ndt & Ht & Hpt).
  unfold rotateRight, bind, get_tail, get_head, set_next, get_prev, set_tail,
    set_prev, set_head, bind, deref, store, ret.
  simpl. rewrite Ht. simpl.
  rewrite list_lookup_insert_eq by (eapply lookup_lt_Some, Ht). simpl.
  rewrite Hpt. reflexivity.
Qed.

Lemma for_range_nat_Panic (body : M T unit) (k : nat) : forall (n : nat) s,
  for_range_nat k body s = Panic -> (k <= n)%nat ->
  for_range_nat n body s = Panic.
Proof.
  induction k as [|k IH]; intros n s Hp Hn; [discriminate|].
  destruct n as [|n]; [lia|]. simpl in *. unfold bind in *.
  destruct (body s) as [[[] s1]| |]; [|reflexivity|discriminate].
  apply IH; [exact Hp|lia].
Qed.

Lemma right_rotated_length s A B va vb :
  right_rotated s A B va vb -> length vb = length B.
Proof.
  intros ((_ & Hch & _) & Hva & _). apply chain_length in Hch.
  rewrite (length_app va), (length_app A) in Hch. lia.
Qed.

(** As many steps to the right as there are nodes that still have
    their [prev]: the last one panics. *)
Lemma rotateRight_iter_Panic : forall B vb s A va,
  B <> [] -> (2 <= length (A ++ B))%nat ->
  right_rotated s A B va vb ->
  for_range_nat (length B) rotateRight s = Panic.
Proof.
  induction B as [|t B0 IH] using rev_ind; intros vb s A va HB Hlen Hrr; [done|].
  pose proof (right_rotated_length _ _ _ _ _ Hrr) as Hvb.
  destruct vb as [|vt vb0 _] using rev_ind;
    [rewrite length_app in Hvb; simpl in Hvb; lia|].
  rewrite length_app. simpl. rewrite Nat.add_1_r. simpl.
  destruct (decide (B0 = [])) as [->|HB0].
  - assert (vb0 = []).
    { rewrite !length_app in Hvb. simpl in Hvb. destruct vb0; [reflexivity|].
      simpl in Hvb. lia. }
    subst vb0. simpl in *.
    assert (HA : A <> []).
    { intros ->. simpl in Hlen. lia. }
    unfold bind. rewrite (rotateRight_panic _ _ _ _ _ HA Hrr). reflexivity.
  - destruct (rotateRight_step _ _ _ _ _ _ _ HB0 Hrr) as (s' & Hrun & Hrr' & _).
    rewrite (bind_eq _ _ _ _ _ Hrun).
    apply (IH vb0 s' (t :: A) (vt :: va)); [exact HB0| |exact Hrr'].
    simpl. rewrite length_app in *. simpl in Hlen.
    destruct B0; [done|]. simpl. lia.
Qed.

(** Fewer steps than that succeed, and rotate the element order. *)
Lemma rotateRight_iter (k : nat) : forall B vb s A va,
  (k < length B)%nat ->
  right_rotated s A B va vb ->
  exists s',
    for_range_nat k rotateRight s = Return (tt, s') /\
    right_rotated s' (drop (length B - k) B ++ A) (take (length B - k) B)
                     (drop (length B - k) vb ++ va) (take (length B - k) vb) /\
    len (self s') = len (self s) /\
    capacity (self s') = capacity (self s).
Proof.
  induction k as [|k IH]; intros B vb s A va Hk Hrr.
  - exists s. split; [reflexivity|].
    pose proof (right_rotated_length _ _ _ _ _ Hrr) as Hvb.
    rewrite Nat.sub_0_r. rewrite (drop_all B), (take_ge B) by lia.
    rewrite <- Hvb. rewrite (drop_all vb), (take_ge vb) by lia. simpl. tauto.
  - pose proof (right_rotated_length _ _ _ _ _ Hrr) as Hvb.
    destruct B as [|t B0 _] using rev_ind; [simpl in Hk; lia|].
    destruct vb as [|vt vb0 _] using rev_ind;
      [rewrite length_app in Hvb; simpl in Hvb; lia|].
    rewrite !length_app in Hk, Hvb. simpl in Hk, Hvb.
    assert (HB0 : B0 <> []) by (destruct B0; [simpl in Hk; lia|done]).
    destruct (rotateRight_step _ _ _ _ _ _ _ HB0 Hrr) as (s1 & Hrun & Hrr1 & Hl1 & Hc1).
    destruct (IH B0 vb0 s1 (t :: A) (vt :: va)) as (s' & Hrun' & Hrr' & Hl' & Hc');
      [lia|exact Hrr1|].
    exists s'. split; [simpl; rewrite (bind_eq _ _ _ _ _ Hrun); exact Hrun'|].
    split; [|split; congruence].
    rewrite length_app. simpl.
    replace (length B0 + 1 - S k)%nat with (length B0 - k)%nat by lia.
    rewrite (length_app B0) in Hvb. simpl in Hvb.
    rewrite !drop_app_le, !take_app_le by lia.
    rewrite <- !app_assoc. simpl.
    replace (length vb0) with (length B0) in Hrr' by lia.
    exact Hrr'.
Qed.


Lemma Rotate_nonneg s (n : Z) :
  2 <= len (self s) -> 0 <= n ->
  Rotate n s = for_range_nat (Z.to_nat n) rotateRight s.
Proof.
  intros Hl Hn. unfold Rotate, bind, GetLen. cbv beta iota zeta.
  destruct (Z.ltb_spec (len (self s)) 2) as [|_]; [lia|].
  destruct (Z.leb_spec 0 n) as [_|]; [|lia].
  destruct (Z.ltb_spec n 0) as [|_]; [lia|]. reflexivity.
Qed.

Lemma rotate_full {A} (xs : list A) : rotate (length xs) xs = xs.
Proof.
  unfold rotate. rewrite Nat.Div0.mod_same. simpl. apply app_nil_r.
Qed.

(** [Rotate(n)] on a well-formed deque of length [L >= 2], for
    [0 <= n < L]: the element order is rotated to the right by [n],
    that is to the left by [L - n]. Only the forward links survive. *)
Lemma Rotate_right_spec s ls vs (n : Z) :
  represents s ls vs -> (2 <= length ls)%nat ->
  0 <= n < Z.of_nat (length ls) ->
  exists s',
    Rotate n s = Return (tt, s') /\
    forward s' (rotate (length ls - Z.to_nat n) ls)
               (rotate (length ls - Z.to_nat n) vs) /\
    len (self s') = len (self s) /\
    capacity (self s') = capacity (self s).
Proof.
  intros Hrep Hlen Hn.
  pose proof (rep_len _ _ _ Hrep) as Hl.
  pose proof (rep_length _ _ _ Hrep) as Hll.
  destruct (rotateRight_iter (Z.to_nat n) ls vs s [] []) as (s' & Hrun & Hrr & Hl' & Hc');
    [lia|apply represents_right_rotated, Hrep|].
  exists s'. rewrite Rotate_nonneg by lia. split; [exact Hrun|].
  split; [|tauto]. destruct Hrr as (Hf & _). rewrite !app_nil_r in Hf.
  destruct (decide (Z.to_nat n = O)) as [Hz|Hz].
  - rewrite Hz, Nat.sub_0_r in *.
    rewrite rotate_full.
    replace (rotate (length ls) vs) with vs
      by (rewrite <- Hll; symmetry; apply rotate_full).
    rewrite drop_all, take_ge in Hf by lia.
    replace (drop (length ls) vs) with (@nil T) in Hf
      by (symmetry; apply drop_ge; lia).
    replace (take (length ls) vs) with vs in Hf
      by (symmetry; apply take_ge; lia).
    exact Hf.
  - unfold rotate. rewrite Hll, Nat.mod_small by lia. exact Hf.
Qed.

(** [Rotate(n)] on a well-formed deque of length [L >= 2] panics for
    every [n >= L]. *)
Lemma Rotate_right_Panic s ls vs (n : Z) :
  represents s ls vs -> (2 <= length ls)%nat ->
  Z.of_nat (length ls) <= n ->
  Rotate n s = Panic.
Proof.
  intros Hrep Hlen Hn.
  pose proof (rep_len _ _ _ Hrep) as Hl.
  rewrite Rotate_nonneg by lia.
  apply (for_range_nat_Panic _ (length ls)); [|lia].
  apply (rotateRight_iter_Panic ls vs s [] []).
  - destruct ls; [simpl in Hlen; lia|done].
  - exact Hlen.
  - apply represents_right_rotated, Hrep.
Qed.

(** [Rotate(1)] followed by [Rotate(-1)] on a well-formed deque
    restores the element order, though not the [prev] links. *)
Lemma Rotate_there_and_back s ls vs :
  represents s ls vs -> (2 <= length ls)%nat ->
  exists s',
    (Rotate 1 ;; Rotate (-1)) s = Return (tt, s') /\
    forward s' ls vs /\
    len (self s') = len (self s).
Proof.
  intros Hrep Hlen.
  pose proof (rep_len _ _ _ Hrep) as Hl.
  pose proof (rep_length _ _ _ Hrep) as Hll.
  destruct (Rotate_right_spec s ls vs 1 Hrep Hlen) as (s1 & Hrun1 & Hf1 & Hl1 & _);
    [lia|].
  destruct (Rotate_left_spec s1 _ _ (-1) Hf1) as (s' & Hrun' & Hf' & Hl' & _).
  - rewrite length_rotate. exact Hlen.
  - lia.
  - unfold Int.min_int. lia.
  - exists s'. split; [rewrite (bind_eq _ _ _ _ _ Hrun1); exact Hrun'|].
    split; [|congruence].
    assert (Hback : forall {A} (xs : list A), (2 <= length xs)%nat ->
      rotate (Z.to_nat (- -1)) (rotate (length xs - Z.to_nat 1) xs) = xs).
    { intros A xs Hx. rewrite <- !iter_rotate_left1.
      change (Z.to_nat (- -1)) with 1%nat. change (Z.to_nat 1) with 1%nat.
      rewrite <- Nat.iter_add.
      replace (1 + (length xs - 1))%nat with (length xs) by lia.
      rewrite iter_rotate_left1. apply rotate_full. }
    rewrite Hback in Hf' by exact Hlen.
    rewrite <- Hll in Hf' at 1. rewrite Hback in Hf' by lia. exact Hf'.
Qed.

(** ** The invariant under every call but [Rotate] *)

Lemma values_from_state (fuel : nat) : forall p s vs s',
  values_from fuel p s = Return (vs, s') -> s' = s.
Proof.
  induction fuel as [|fuel IH]; intros [l|] s vs s' Hr; simpl in Hr;
    try discriminate; try (injection Hr as _ <-; reflexivity).
  apply bind_Return in Hr as (v & s1 & Hv & Hr). apply get_value_state in Hv.
  apply bind_Return in Hr as (q & s2 & Hq & Hr). apply get_next_state in Hq.
  apply bind_Return in Hr as (vs' & s3 & Hvs & Hr). apply IH in Hvs.
  injection Hr as _ <-. congruence.
Qed.

Lemma equal_state (a b : T) s r s' : equal a b s = Return (r, s') -> s' = s.
Proof.
  unfold equal. destruct (go_eq a b); [|discriminate].
  intros Hr. injection Hr as _ <-. reflexivity.
Qed.

Lemma count_from_state (fuel : nat) (v : T) : forall i p s n s',
  count_from fuel v i p s = Return (n, s') -> s' = s.
Proof.
  induction fuel as [|fuel IH]; intros i [l|] s n s' Hr; simpl in Hr;
    try discriminate; try (injection Hr as _ <-; reflexivity).
  apply bind_Return in Hr as (x & s1 & Hv & Hr). apply get_value_state in Hv.
  apply bind_Return in Hr as (b & s2 & Hb & Hr). apply equal_state in Hb.
  apply bind_Return in Hr as (q & s3 & Hq & Hr). apply get_next_state in Hq.
  apply IH in Hr. congruence.
Qed.

(** [Copy] leaves the receiver alone and writes above the heap it
    started in. *)
Lemma copy_loop_frame (N0 : nat) (fuel : nat) : forall p rv h d rv' s',
  closed (fun l => (N0 <= l)%nat) (State h rv) ->
  copy_loop fuel p rv (State h d) = Return (rv', s') ->
  self s' = d /\ frame (fun l => (N0 <= l)%nat) h (heap s').
Proof.
  induction fuel as [|fuel IH]; intros [l|] rv h d rv' s' Hcl Hr; simpl in Hr;
    try discriminate;
    try (injection Hr as _ <-; split; [reflexivity|apply frame_refl]).
  apply bind_Return in Hr as (v & s1 & Hv & Hr). apply get_value_state in Hv.
  subst s1.
  apply bind_Return in Hr as ([[] rv1] & s2 & Ho & Hr).
  unfold on_other in Ho. simpl in Ho.
  destruct (append v (State h rv)) as [[[] [h1 rv1']]| |] eqn:Happ; try discriminate.
  injection Ho as <- <-. simpl in Hr.
  destruct (safe_append _ v _ Hcl _ _ Happ) as (Hcl1 & Hfr1 & _).
  apply bind_Return in Hr as (q & s3 & Hq & Hr). apply get_next_state in Hq.
  subst s3. simpl in *.
  destruct (IH _ _ _ _ _ _ Hcl1 Hr) as (Hs & Hfr). split; [exact Hs|].
  eapply frame_trans; eassumption.
Qed.

Lemma Copy_frame (fuel : nat) s rv s' :
  Copy fuel s = Return (rv, s') ->
  self s' = self s /\
  frame (fun l => (length (heap s) <= l)%nat) (heap s) (heap s').
Proof.
  destruct s as [h d]. unfold Copy, bind, GetCapacity, get_head. simpl.
  apply copy_loop_frame, closed_NewDeque.
Qed.

(** Every call other than [Rotate] takes a well-formed deque to a
    well-formed deque. *)
Lemma exec_preserves_represents (c : call) s ls vs s' :
  (forall n, c <> CallRotate n) ->
  represents s ls vs ->
  Z.of_nat (length ls) < Int.max_int ->
  exec c s = Return (tt, s') ->
  exists ls' vs', represents s' ls' vs'.
Proof.
  intros Hc Hrep Hlt Hr.
  destruct c as [v|v| | | |n|i|fuel|fuel v|fuel]; simpl in Hr.
  - destruct (append_spec s ls vs v Hrep Hlt) as (s1 & Happ & Hrep' & _).
    unfold Append in Hr. rewrite Happ in Hr. injection Hr as <-.
    destruct ((0 <=? capacity (self s)) &&
              (capacity (self s) <? Z.of_nat (length ls) + 1)); eauto.
  - destruct (appendLeft_spec s ls vs v Hrep Hlt) as (s1 & Happ & Hrep' & _).
    unfold AppendLeft in Hr. rewrite Happ in Hr. injection Hr as <-.
    destruct ((0 <=? capacity (self s)) &&
              (capacity (self s) <? Z.of_nat (length ls) + 1)); eauto.
  - apply bind_Return in Hr as (r & s1 & Hp & Hr). injection Hr as <-.
    destruct ls as [|l0 ls0].
    + unfold TryPop in Hp. rewrite tryPop_empty in Hp by apply Hrep.
      injection Hp as _ <-. eauto.
    + pose proof (rep_length _ _ _ Hrep) as Hll.
      destruct vs as [|v0 vs0]; [discriminate|].
      destruct (snoc_decompose l0 ls0) as (ls' & lz & Els & _).
      destruct (snoc_decompose v0 vs0) as (vs' & vz & Evs & _).
      rewrite Els, Evs in Hrep.
      destruct (tryPop_spec _ _ _ _ _ Hrep) as (s2 & Hpop & Hrep' & _).
      unfold TryPop in Hp. rewrite Hpop in Hp. injection Hp as _ <-. eauto.
  - apply bind_Return in Hr as (r & s1 & Hp & Hr). injection Hr as <-.
    destruct ls as [|l0 ls0].
    + unfold TryPopLeft in Hp. rewrite tryPopLeft_empty in Hp by apply Hrep.
      injection Hp as _ <-. eauto.
    + pose proof (rep_length _ _ _ Hrep) as Hll.
      destruct vs as [|v0 vs0]; [discriminate|].
      destruct (tryPopLeft_spec _ _ _ _ _ Hrep) as (s2 & Hpop & Hrep' & _).
      unfold TryPopLeft in Hp. rewrite Hpop in Hp. injection Hp as _ <-. eauto.
  - injection Hr as <-. exists [], []. apply represents_NewDeque.
  - exfalso. eapply Hc. reflexivity.
  - apply bind_Return in Hr as (r & s1 & Hp & Hr). injection Hr as <-.
    apply TryPeek_state in Hp. subst s1. eauto.
  - apply bind_Return in Hr as (r & s1 & Hp & Hr). injection Hr as <-.
    apply bind_Return in Hp as (p & s2 & Hh & Hp). injection Hh as <- <-.
    apply values_from_state in Hp. subst s1. eauto.
  - apply bind_Return in Hr as (r & s1 & Hp & Hr). injection Hr as <-.
    apply bind_Return in Hp as (p & s2 & Hh & Hp). injection Hh as <- <-.
    apply count_from_state in Hp. subst s1. eauto.
  - apply bind_Return in Hr as (rv & s1 & Hp & Hr). injection Hr as <-.
    apply Copy_frame in Hp as (Hs & _ & Hfr).
    exists ls, vs. destruct s as [h d], s1 as [h1 d1]. simpl in *. subst d1.
    apply (represents_frame h); [|exact Hrep].
    intros l Hl. apply Hfr.
    apply list_elem_of_lookup_1 in Hl as [i Hi].
    pose proof (linked_bound _ _ _ _ _ (rep_linked _ _ _ Hrep) Hi). simpl in *. lia.
Qed.

End Facts.

(** * The properties of the specification *)

Section Claims.

Context {T : Type} `{EqDecision T} `{ZeroValue T} `{Comparable T}.

Local Open Scope go_scope.

(** X29. [N] calls of [Append] on [NewDeque(C)] return, and [GetLen()]
    is then [min(N, C)] for [C >= 0] and [N] for an unbounded deque;
    the deque holds the last values appended, in order. In the state
    these calls leave a bounded deque in when [N >= C], one more
    [Append] or [AppendLeft] overflows, evicts exactly one element, the
    one at the opposite end, and leaves [len == capacity]. Lengths are
    Go [int]s: either [N] fits in one or [C] is below the largest. *)
Theorem Append_length_min (C : Z) (vs : list T) (h0 : list (node T)) :
  Z.of_nat (length vs) <= Int.max_int \/ 0 <= C < Int.max_int ->
  exists s ls,
    append_all vs (State h0 (NewDeque C)) = Return (tt, s) /\
    GetLen s =
      Return ((if C <? 0 then Z.of_nat (length vs)
               else Z.min (Z.of_nat (length vs)) C), s) /\
    represents s ls (keep_last C vs) /\
    (0 <= C <= Z.of_nat (length vs) -> C < Int.max_int ->
     forall v,
       (exists s' ls',
          Append v s = Return (tt, s') /\
          len (self s') = C /\ capacity (self s') = C /\
          represents s' ls' (drop 1 (keep_last C vs ++ [v]))) /\
       (exists s' ls',
          AppendLeft v s = Return (tt, s') /\
          len (self s') = C /\ capacity (self s') = C /\
          represents s' ls'
            (take (length (keep_last C vs)) (v :: keep_last C vs)))).
Proof.
  intros Hb.
  destruct (append_all_spec C vs h0 Hb) as (s & ls & Hrun & Hrep & Hcap).
  pose proof (keep_last_length C vs) as Hlen.
  pose proof (rep_length _ _ _ Hrep) as Hll.
  exists s, ls. split; [exact Hrun|]. split; [|split; [exact Hrep|]].
  - unfold GetLen. rewrite (rep_len _ _ _ Hrep), <- Hll, Hlen. reflexivity.
  - intros HC Hlt v.
    assert (Hfull : capacity (self s) = Z.of_nat (length ls)).
    { rewrite Hcap, <- Hll, Hlen.
      replace (C <? 0) with false by (symmetry; apply Z.ltb_ge; lia). lia. }
    split.
    + destruct (append_full_spec s ls _ v Hrep Hfull)
        as (s' & ls' & Happ & Hl' & Hc' & Hrep'); [lia|].
      exists s', ls'. split; [exact Happ|]. split; [congruence|].
      split; [congruence|exact Hrep'].
    + destruct (appendLeft_full_spec s ls _ v Hrep Hfull)
        as (s' & ls' & Happ & Hl' & Hc' & Hrep'); [lia|].
      exists s', ls'. split; [exact Happ|]. split; [congruence|].
      split; [congruence|exact Hrep'].
Qed.

(** C6. On a deque of length zero [TryPop] and [TryPopLeft] return the
    zero value with a [PopError] and leave the state as it was; on a
    deque of any other length neither returns an error, and on a
    well-formed one both do return, with a [nil] error. *)
Theorem pop_error_iff_empty (s : state T) :
  (len (self s) = 0 ->
   TryPop s = Return ((zero, Some PopError), s) /\
   TryPopLeft s = Return ((zero, Some PopError), s)) /\
  (len (self s) <> 0 ->
   ~ failed (TryPop s) /\ ~ failed (TryPopLeft s)) /\
  (forall ls vs, represents s ls vs -> len (self s) <> 0 ->
   (exists s', TryPop s = Return ((zero, None), s')) /\
   (exists s', TryPopLeft s = Return ((zero, None), s'))).
Proof.
  split; [|split].
  - intros Hl. split; [apply tryPop_empty|apply tryPopLeft_empty]; exact Hl.
  - intros Hl. split; [apply tryPop_nonempty|apply tryPopLeft_nonempty]; exact Hl.
  - intros ls vs Hrep Hl.
    pose proof (rep_len _ _ _ Hrep) as Hn.
    pose proof (rep_length _ _ _ Hrep) as Hlen.
    destruct ls as [|l ls]; [simpl in Hn; lia|].
    destruct vs as [|v vs]; [discriminate|].
    split.
    + destruct (snoc_decompose l ls) as (ls' & lz & Els & _).
      destruct (snoc_decompose v vs) as (vs' & vz & Evs & _).
      rewrite Els, Evs in Hrep.
      destruct (tryPop_spec _ _ _ _ _ Hrep) as (s' & Hpop & _).
      exists s'. exact Hpop.
    + destruct (tryPopLeft_spec _ _ _ _ _ Hrep) as (s' & Hpop & _).
      exists s'. exact Hpop.
Qed.

(** C7. [TryPeek(index)] returns a [PeekError] exactly when
    [index < 0] or [index >= len]; the error carries [index], the
    value returned with it is the zero value, and the state is the one
    before the call. *)
Theorem TryPeek_error_iff (s : state T) (index : Z) :
  ((exists v i s', TryPeek index s = Return ((v, Some (PeekError i)), s')) <->
   index < 0 \/ len (self s) <= index) /\
  (index < 0 \/ len (self s) <= index ->
   TryPeek index s = Return ((zero, Some (PeekError index)), s)).
Proof.
  split; [split|].
  - intros (v & i & s' & Hp).
    destruct (Z.ltb_spec index 0) as [?|Hge]; [left; assumption|].
    destruct (Z.leb_spec (len (self s)) index) as [?|Hlt]; [right; assumption|].
    exfalso. apply (TryPeek_in_bounds s index); [lia|].
    exists v, (PeekError i), s'. exact Hp.
  - intros Hi. exists zero, index, s. apply TryPeek_out_of_bounds. exact Hi.
  - apply TryPeek_out_of_bounds.
Qed.

(** C8. On a deque of capacity zero every sequence of [Append] and
    [AppendLeft] calls returns with [len == 0] and both ends absent:
    each call allocates its node, links it as the sole element and
    evicts it at once. *)
Theorem capacity0_always_empty (xs : list (side * T)) (h : list (node T)) :
  (exists s',
     run (map insertion xs) (State h (NewDeque 0)) = Return (tt, s') /\
     GetLen s' = Return (0, s') /\
     head (self s') = None /\ tail (self s') = None) /\
  (forall v,
     Append v (State h (NewDeque 0)) =
       Return (tt, State (h ++ [Node v None None]) (NewDeque 0)) /\
     AppendLeft v (State h (NewDeque 0)) =
       Return (tt, State (h ++ [Node v None None]) (NewDeque 0))).
Proof.
  split.
  - destruct (run_insertions_capacity0 xs h) as [h' Hrun].
    exists (State h' (NewDeque 0)). repeat split. exact Hrun.
  - intros v. split; [apply Append_capacity0|apply AppendLeft_capacity0].
Qed.

(** C10. In every state a deque made by [NewDeque(0)] can reach,
    [IsFull()] and [IsEmpty()] are both true. *)
Theorem capacity0_full_and_empty (s : state T) :
  reachable 0 s ->
  IsFull s = Return (true, s) /\ IsEmpty s = Return (true, s).
Proof.
  intros (h0 & cs & Hrun). apply run_capacity0 in Hrun.
  unfold IsFull, IsEmpty, IsUnlimited, GetCapacity, GetLen, bind, ret.
  rewrite Hrun. split; reflexivity.
Qed.

End Claims.

(** Witnesses at concrete deques of [int]. *)

Lemma Append_length_min_witness :
  exists s ls,
    append_all [7; 8; 9] (State [] (NewDeque 2)) = Return (tt, s) /\
    GetLen s = Return (2, s) /\
    represents s ls [8; 9] /\
    exists s' ls',
      Append 10 s = Return (tt, s') /\ len (self s') = 2 /\
      represents s' ls' [9; 10].
Proof.
  destruct (Append_length_min 2 [7; 8; 9] [])
    as (s & ls & Hrun & Hlen & Hrep & Hfull).
  - right. unfold Int.max_int. lia.
  - exists s, ls. split; [exact Hrun|]. split; [exact Hlen|].
    split; [exact Hrep|].
    destruct (Hfull ltac:(simpl; lia) ltac:(unfold Int.max_int; lia) 10)
      as ((s' & ls' & Happ & Hl & _ & Hrep') & _).
    exists s', ls'. split; [exact Happ|]. split; [exact Hl|exact Hrep'].
Defined.

Lemma pop_error_iff_empty_witness :
  TryPop (State [] (NewDeque 3) : state Z) =
    Return ((0, Some PopError), State [] (NewDeque 3)) /\
  ~ failed (TryPop (State [Node 7 None None] (mkDeque (Some O) (Some O) 1 3))).
Proof.
  split.
  - apply (proj1 (pop_error_iff_empty (State [] (NewDeque 3)))). reflexivity.
  - apply (proj1 (proj2 (pop_error_iff_empty
                    (State [Node 7 None None] (mkDeque (Some O) (Some O) 1 3))))).
    simpl. lia.
Defined.

Lemma TryPeek_error_iff_witness :
  TryPeek 5 (State [Node 7 None None] (mkDeque (Some O) (Some O) 1 3)) =
  Return ((0, Some (PeekError 5)),
          State [Node 7 None None] (mkDeque (Some O) (Some O) 1 3)).
Proof.
  apply (proj2 (TryPeek_error_iff
                  (State [Node 7 None None] (mkDeque (Some O) (Some O) 1 3)) 5)).
  right. simpl. lia.
Defined.

Lemma capacity0_full_and_empty_witness :
  IsFull (State [Node 4 None None] (NewDeque 0) : state Z) =
    Return (true, State [Node 4 None None] (NewDeque 0)) /\
  IsEmpty (State [Node 4 None None] (NewDeque 0) : state Z) =
    Return (true, State [Node 4 None None] (NewDeque 0)).
Proof.
  apply capacity0_full_and_empty.
  exists [], [CallAppend 4]. reflexivity.
Defined.

(** * Where the code departs from its documentation *)

Local Open Scope go_scope.

(** Closed runs are settled by evaluation. *)
Ltac evaluate := vm_compute; reflexivity.
Ltac evaluate_all := repeat (split; [evaluate|]); evaluate.

(** C1. [TryPop] and [TryPopLeft] unlink the right node and count down,
    but the value they return is the zero value declared at their top,
    never the element removed: after [Append(5)] both return [0]. *)
Theorem pop_returns_zero_value :
  (Append 5 ;; TryPop) fresh_unlimited =
    Return ((0, None), State [Node 5 None None] (mkDeque None None 0 (-1))) /\
  (Append 5 ;; TryPopLeft) fresh_unlimited =
    Return ((0, None), State [Node 5 None None] (mkDeque None None 0 (-1))) /\
  (Append 5 ;; Append 6 ;; r <- TryPop ;; l <- GetLen ;; vs <- Values 2 ;;
   ret (r, l, vs)) fresh_unlimited =
    Return (((0, None), 1, [5]),
            State [Node 5 None None; Node 6 None None]
                  (mkDeque (Some O) (Some O) 1 (-1))).
Proof. evaluate_all. Qed.

(** C2. [rotateRight] never sets the [prev] of the node it moves the
    new head in front of, so the backward chain it reads its next tail
    from runs out: on a deque of length [L] the [L]-th step in a row
    dereferences [nil]. [Rotate(2)] on [0, 1] and [Rotate(3)] on
    [0, 1, 2] panic instead of restoring the order. With [n] the
    smallest [int], [-n] wraps to itself and no step is taken. *)
Theorem Rotate_full_turn_panics :
  (Append 0 ;; Append 1 ;; Rotate 2) fresh_unlimited = Panic /\
  (Append 0 ;; Append 1 ;; Append 2 ;; Rotate 3) fresh_unlimited = Panic /\
  (Append 0 ;; Append 1 ;; Append 2 ;; Rotate 2 ;; Values 3) fresh_unlimited =
    Return ([1; 2; 0],
            State [Node 0 None None; Node 1 (Some 2%nat) None;
                   Node 2 (Some O) None]
                  (mkDeque (Some 1%nat) (Some O) 3 (-1))) /\
  (Append 0 ;; Append 1 ;; Append 2 ;; Rotate Int.min_int ;; Values 3)
    fresh_unlimited =
    Return ([0; 1; 2],
            State [Node 0 (Some 1%nat) None; Node 1 (Some 2%nat) (Some O);
                   Node 2 None (Some 1%nat)]
                  (mkDeque (Some O) (Some 2%nat) 3 (-1))).
Proof. evaluate_all. Qed.

(** C3. After [Append(0); Append(1); Rotate(1)] the deque has length two
    and its tail has no [prev]: the backward chain does not run through
    the nodes of the forward chain. After [Rotate(-1)] instead, the head
    keeps a [prev]. *)
Theorem Rotate_breaks_structural_invariant :
  (exists s,
     run [CallAppend 0; CallAppend 1; CallRotate 1] fresh_unlimited =
       Return (tt, s) /\
     ~ structural_invariant s) /\
  (exists s,
     run [CallAppend 0; CallAppend 1; CallRotate (-1)] fresh_unlimited =
       Return (tt, s) /\
     ~ structural_invariant s).
Proof.
  split.
  - eexists. split; [evaluate|]. intros Hinv.
    destruct Hinv as (ls & vs & [_ _ _ Hn Hhd Htl Hlk]); [simpl; lia|].
    simpl in *.
    destruct ls as [|a [|b [|c ls]]]; simpl in Hn; try lia.
    injection Hhd as <-. injection Htl as <-.
    destruct (Hlk 1%nat O eq_refl) as (v & _ & Hh). discriminate Hh.
  - eexists. split; [evaluate|]. intros Hinv.
    destruct Hinv as (ls & vs & [_ _ _ Hn Hhd Htl Hlk]); [simpl; lia|].
    simpl in *.
    destruct ls as [|a [|b [|c ls]]]; simpl in Hn; try lia.
    injection Hhd as <-. injection Htl as <-.
    destruct (Hlk O 1%nat eq_refl) as (v & _ & Hh). discriminate Hh.
Qed.

(** C4. After [Append(0); Append(1); Append(2); Rotate(-1)] the deque
    holds [1, 2, 0] and index [1] is in range, yet [TryPeek(1)] walks
    back from a tail whose [prev] is [nil] and panics. *)
Theorem TryPeek_panics_after_Rotate :
  exists s,
    run [CallAppend 0; CallAppend 1; CallAppend 2; CallRotate (-1)]
        fresh_unlimited = Return (tt, s) /\
    GetLen s = Return (3, s) /\
    Values 3 s = Return ([1; 2; 0], s) /\
    TryPeek 1 s = Panic.
Proof. eexists. evaluate_all. Qed.

(** C5. [NewDeque(2); Append(0); Append(1); Rotate(1)] leaves a full
    deque that holds [1, 0], whose tail has no [prev]: [rotateRight]
    never set it. [AppendLeft(2)] then overflows, and [tryPop] takes the
    new tail from that [prev] and dereferences [nil]: the call panics
    and nothing is evicted. [Append(2)] on the same deque evicts the
    head as it should. *)
Theorem AppendLeft_overflow_after_Rotate_panics :
  exists s s2,
    run [CallAppend 0; CallAppend 1; CallRotate 1] (State [] (NewDeque 2)) =
      Return (tt, s) /\
    GetLen s = Return (2, s) /\
    IsFull s = Return (true, s) /\
    Values 2 s = Return ([1; 0], s) /\
    AppendLeft 2 s = Panic /\
    (Append 2 ;; Values 2) s = Return ([0; 2], s2).
Proof. eexists _, _. evaluate_all. Qed.

(** C9. [Copy] follows the forward chain and counts what it appends,
    while the source keeps its own counter. After [rotateLeft] left a
    stale [prev] behind, [TryPop] cuts the forward chain short: the
    source says two elements, its chain and the copy hold one. *)
Theorem Copy_after_Rotate_differs :
  exists s rv s',
    run [CallAppend 0; CallAppend 1; CallRotate (-1); CallAppend 2;
         CallRotate (-1); CallTryPop] fresh_unlimited = Return (tt, s) /\
    GetLen s = Return (2, s) /\
    Values 3 s = Return ([0], s) /\
    Copy 3 s = Return (rv, s') /\
    len rv = 1.
Proof. eexists _, _, _. evaluate_all. Qed.

(** [Copy_independent] at a deque of capacity five that holds
    [1, 2, 3]: the copy is well-formed, holds [1, 2, 3] and sits in
    nodes of its own. *)
Example Copy_independent_example :
  let s := State [Node 1 (Some 1%nat) None; Node 2 (Some 2%nat) (Some O);
                  Node 3 None (Some 1%nat)]
                 (mkDeque (Some O) (Some 2%nat) 3 5) in
  exists rv s' ls2,
    Copy 3 s = Return (rv, s') /\
    capacity rv = 5 /\ len rv = 3 /\
    represents (State (heap s') rv) ls2 [1; 2; 3] /\
    (forall l, l ∈ [O; 1%nat; 2%nat] -> l ∉ ls2).
Proof.
  intros s.
  destruct (Copy_independent s [O; 1%nat; 2%nat] [1; 2; 3] 3)
    as (rv & s' & ls2 & Hrun & _ & Hc & Hl & Hrep & _ & Hdis & _).
  - split; [simpl; lia|]. split; [simpl; lia|].
    intros [|[|[|l]]] nd Hl; simpl in Hl; try discriminate;
      injection Hl as <-; simpl; lia.
  - simpl. split; [reflexivity|]. eexists. split; [reflexivity|]. simpl.
    split; [reflexivity|]. split; [reflexivity|].
    eexists. split; [reflexivity|]. simpl.
    split; [reflexivity|]. split; [reflexivity|].
    eexists. split; [reflexivity|]. simpl. tauto.
  - simpl. lia.
  - reflexivity.
  - unfold Int.max_int. simpl. lia.
  - right. simpl. lia.
  - exists rv, s', ls2. auto.
Qed.

(** * Further properties of the code *)

Section More.

Context {T : Type} `{EqDecision T} `{ZeroValue T} `{Comparable T}.

Local Open Scope go_scope.

Implicit Types (s : state T) (h : list (node T)) (d : Deque).
Implicit Types (p q : ptr) (l : loc) (ls : list loc) (vs : list T).

(** ** Deciding the invariant *)

Lemma linkedb_sound h ls vs : linkedb h ls vs = true -> linked h ls vs.
Proof.
  unfold linkedb. rewrite forallb_forall. intros Hall i l Hi.
  assert (Hin : In i (seq 0 (length ls))).
  { apply in_seq. apply lookup_lt_Some in Hi. lia. }
  specialize (Hall i Hin). rewrite Hi in Hall.
  destruct (vs !! i) as [v|]; [|discriminate].
  exists v. split; [reflexivity|].
  apply bool_decide_eq_true in Hall. exact Hall.
Qed.

Lemma representsb_sound s ls vs : representsb s ls vs = true -> represents s ls vs.
Proof.
  unfold representsb. rewrite !andb_true_iff.
  intros ((((((H1 & H2) & H3) & H4) & H5) & H6) & H7).
  apply bool_decide_eq_true in H1, H2, H5, H6.
  apply Z.leb_le in H3. apply Z.eqb_eq in H4.
  split; try assumption. apply linkedb_sound, H7.
Qed.

Lemma represents_forward s ls vs : represents s ls vs -> forward s ls vs.
Proof.
  intros Hrep. split; [apply Hrep|].
  split; [apply represents_chain, Hrep|apply Hrep].
Qed.

(** ** Removal *)

Lemma tryPop_zero s r s' : tryPop s = Return (r, s') -> fst r = zero.
Proof.
  unfold tryPop. intros Hr.
  apply bind_Return in Hr as (n & s1 & _ & Hr).
  destruct (n =? 0); [injection Hr as <- _; reflexivity|].
  apply bind_Return in Hr as (u & s2 & _ & Hr).
  apply bind_Return in Hr as (n2 & s3 & _ & Hr).
  apply bind_Return in Hr as (u2 & s4 & _ & Hr).
  injection Hr as <- _. reflexivity.
Qed.

Lemma tryPopLeft_zero s r s' : tryPopLeft s = Return (r, s') -> fst r = zero.
Proof.
  unfold tryPopLeft. intros Hr.
  apply bind_Return in Hr as (n & s1 & _ & Hr).
  destruct (n =? 0); [injection Hr as <- _; reflexivity|].
  apply bind_Return in Hr as (u & s2 & _ & Hr).
  apply bind_Return in Hr as (n2 & s3 & _ & Hr).
  apply bind_Return in Hr as (u2 & s4 & _ & Hr).
  injection Hr as <- _. reflexivity.
Qed.

Lemma Values_represents s ls vs (fuel : nat) :
  represents s ls vs -> (length ls <= fuel)%nat ->
  Values fuel s = Return (vs, s).
Proof.
  intros Hrep Hf. unfold Values, bind, get_head.
  apply (values_from_chain s ls); [apply represents_chain, Hrep|exact Hf].
Qed.

(** X1. On a well-formed deque that holds [vs ++ [v]], [TryPop]
    returns a [nil] error and leaves a well-formed deque that holds
    [vs]: the tail node is unlinked, [len] is one less, the capacity is
    kept and [Values] yields [vs]. The value returned with it is the
    zero value. *)
Theorem TryPop_removes_last s l ls v vs :
  represents s (ls ++ [l]) (vs ++ [v]) ->
  exists s',
    TryPop s = Return ((zero, None), s') /\
    represents s' ls vs /\
    len (self s') = len (self s) - 1 /\
    capacity (self s') = capacity (self s) /\
    Values (length ls) s' = Return (vs, s').
Proof.
  intros Hrep.
  destruct (tryPop_spec s l ls v vs Hrep) as (s' & Hpop & Hrep' & Hc & _).
  exists s'. split; [exact Hpop|]. split; [exact Hrep'|].
  split; [|split; [exact Hc|apply (Values_represents s' ls vs); [exact Hrep'|lia]]].
  rewrite (rep_len _ _ _ Hrep), (rep_len _ _ _ Hrep'), length_app. simpl. lia.
Qed.

(** X2. On a well-formed deque that holds [v :: vs],
    [TryPopLeft] returns a [nil] error and leaves a well-formed deque
    that holds [vs]: the head node is unlinked, [len] is one less, the
    capacity is kept and [Values] yields [vs]. *)
Theorem TryPopLeft_removes_first s l ls v vs :
  represents s (l :: ls) (v :: vs) ->
  exists s',
    TryPopLeft s = Return ((zero, None), s') /\
    represents s' ls vs /\
    len (self s') = len (self s) - 1 /\
    capacity (self s') = capacity (self s) /\
    Values (length ls) s' = Return (vs, s').
Proof.
  intros Hrep.
  destruct (tryPopLeft_spec s l ls v vs Hrep) as (s' & Hpop & Hrep' & Hc & _).
  exists s'. split; [exact Hpop|]. split; [exact Hrep'|].
  split; [|split; [exact Hc|apply (Values_represents s' ls vs); [exact Hrep'|lia]]].
  rewrite (rep_len _ _ _ Hrep), (rep_len _ _ _ Hrep'). simpl. lia.
Qed.

(** X3. In every state, whatever [TryPop] or [TryPopLeft]
    returns, the value of the pair is the zero value of the element
    type: neither function ever hands out an element. *)
Theorem pops_return_zero_value s r s' :
  TryPop s = Return (r, s') \/ TryPopLeft s = Return (r, s') ->
  fst r = zero.
Proof.
  intros [Hr|Hr]; [eapply tryPop_zero|eapply tryPopLeft_zero]; exact Hr.
Qed.

(** ** Lookup *)

(** X4. On a well-formed deque [TryPeek(index)] with
    [0 <= index < len] returns the element at position [index], counted
    from the head, with a [nil] error, and leaves the state as it
    was: walking from the head and walking back from the tail agree. *)
Theorem TryPeek_returns_element s ls vs (index : Z) :
  represents s ls vs ->
  0 <= index < len (self s) ->
  exists v,
    vs !! Z.to_nat index = Some v /\
    TryPeek index s = Return ((v, None), s).
Proof.
  intros Hrep Hi.
  pose proof (rep_len _ _ _ Hrep) as Hl.
  pose proof (rep_length _ _ _ Hrep) as Hll.
  destruct (lookup_lt_is_Some_2 vs (Z.to_nat index)) as [v Hv]; [lia|].
  exists v. split; [exact Hv|].
  rewrite <- (Z2Nat.id index) at 1 by lia.
  apply (TryPeek_spec s ls vs); assumption.
Qed.

(** X5. On a well-formed deque [Peek(index)] panics exactly when
    [index < 0] or [index >= len]; otherwise it returns the element at
    position [index] and leaves the state as it was. *)
Theorem Peek_panics_iff s ls vs (index : Z) :
  represents s ls vs ->
  (Peek index s = Panic <-> index < 0 \/ len (self s) <= index) /\
  (forall v, 0 <= index -> vs !! Z.to_nat index = Some v ->
             Peek index s = Return (v, s)).
Proof.
  intros Hrep.
  pose proof (rep_len _ _ _ Hrep) as Hl.
  pose proof (rep_length _ _ _ Hrep) as Hll.
  assert (Hin : forall v, 0 <= index -> vs !! Z.to_nat index = Some v ->
                 Peek index s = Return (v, s)).
  { intros v Hi Hv. unfold Peek.
    rewrite (bind_eq _ _ s (v, None) s); [reflexivity|].
    rewrite <- (Z2Nat.id index) at 1 by lia.
    apply (TryPeek_spec s ls vs); assumption. }
  split; [|exact Hin]. split.
  - intros Hp.
    destruct (Z.ltb_spec index 0) as [?|Hge]; [left; assumption|].
    destruct (Z.leb_spec (len (self s)) index) as [?|Hlt]; [right; assumption|].
    destruct (lookup_lt_is_Some_2 vs (Z.to_nat index)) as [v Hv]; [lia|].
    rewrite (Hin v Hge Hv) in Hp. discriminate Hp.
  - intros Hi. unfold Peek.
    rewrite (bind_eq _ _ s (zero, Some (PeekError index)) s);
      [reflexivity|apply TryPeek_out_of_bounds, Hi].
Qed.

(** ** Calls that only read *)

Lemma values_loop_state {A} (yield : T -> A -> A * bool) (fuel : nat) :
  forall p (a a' : A) s s',
  values_loop fuel p yield a s = Return (a', s') -> s' = s.
Proof.
  induction fuel as [|fuel IH]; intros [l|] a a' s s' Hr; simpl in Hr;
    try discriminate; try (injection Hr as _ <-; reflexivity).
  apply bind_Return in Hr as (v & s1 & Hv & Hr). apply get_value_state in Hv.
  subst s1. destruct (snd (yield v a)).
  - apply bind_Return in Hr as (q & s2 & Hq & Hr). apply get_next_state in Hq.
    apply IH in Hr. congruence.
  - injection Hr as _ <-. reflexivity.
Qed.

(** X6. [TryPeek], [Peek], [Values], [All] and [Count] never
    write: in every state, also one whose links are broken, a call
    that returns leaves the heap and the receiver exactly as they
    were. *)
Theorem reads_keep_state s s' :
  (forall index r, TryPeek index s = Return (r, s') -> s' = s) /\
  (forall index v, Peek index s = Return (v, s') -> s' = s) /\
  (forall fuel vs, Values fuel s = Return (vs, s') -> s' = s) /\
  (forall fuel ivs, All fuel s = Return (ivs, s') -> s' = s) /\
  (forall fuel v n, Count fuel v s = Return (n, s') -> s' = s) /\
  (forall A fuel (yield : T -> A -> A * bool) a a',
     Values_yield fuel yield a s = Return (a', s') -> s' = s) /\
  (forall A fuel (yield : Z -> T -> A -> A * bool) a a',
     All_yield fuel yield a s = Return (a', s') -> s' = s).
Proof.
  assert (HV : forall fuel vs s1, Values fuel s = Return (vs, s1) -> s1 = s).
  { intros fuel vs s1 Hr.
    apply bind_Return in Hr as (p & s2 & Hh & Hr). injection Hh as <- <-.
    apply values_from_state in Hr. exact Hr. }
  assert (HY : forall A fuel (yield : T -> A -> A * bool) a a' s1,
             Values_yield fuel yield a s = Return (a', s1) -> s1 = s).
  { intros A fuel yield a a' s1 Hr.
    apply bind_Return in Hr as (p & s2 & Hh & Hr). injection Hh as <- <-.
    apply values_loop_state in Hr. exact Hr. }
  split; [intros index r Hr; apply TryPeek_state in Hr; exact Hr|].
  split.
  { intros index v Hr. apply bind_Return in Hr as (r & s1 & Hp & Hr).
    apply TryPeek_state in Hp. subst s1.
    destruct (snd r); [discriminate|]. injection Hr as _ <-. reflexivity. }
  split; [intros fuel vs; apply HV|].
  split.
  { intros fuel ivs Hr. apply bind_Return in Hr as (vs & s1 & Hv & Hr).
    apply HV in Hv. injection Hr as _ <-. exact Hv. }
  split.
  { intros fuel v n Hr.
    apply bind_Return in Hr as (p & s2 & Hh & Hr). injection Hh as <- <-.
    apply count_from_state in Hr. exact Hr. }
  split; [intros A fuel yield a a'; apply HY|].
  intros A fuel yield a a' Hr. apply bind_Return in Hr as (r & s1 & Hv & Hr).
  apply HY in Hv. injection Hr as _ <-. exact Hv.
Qed.

(** ** Iteration *)

Lemma values_loop_chain {A} (yield : T -> A -> A * bool) s :
  forall ls vs p (fuel : nat) (a : A),
  chain (heap s) p ls vs -> (length ls <= fuel)%nat ->
  values_loop fuel p yield a s = Return (consume yield vs a, s).
Proof.
  induction ls as [|l ls IH]; intros [|v vs] p fuel a Hch Hfuel; simpl in *;
    try tauto.
  - subst p. destruct fuel; reflexivity.
  - destruct Hch as (-> & nd & Hl & Hv & Hch).
    destruct fuel as [|fuel]; [lia|]. simpl.
    unfold bind at 1. unfold get_value, bind, deref, ret. rewrite Hl, Hv.
    destruct (snd (yield v a)); [|reflexivity].
    unfold get_next, bind, deref, ret. rewrite Hl.
    apply IH; [exact Hch|lia].
Qed.

(** The list that [Values] stands for is what a consumer that takes
    every value collects, in every state. *)
Lemma values_loop_collect (fuel : nat) : forall p (acc : list T) s,
  values_loop fuel p (fun v acc => (acc ++ [v], true)) acc s =
  (vs <- values_from fuel p ;; ret (acc ++ vs)) s.
Proof.
  induction fuel as [|fuel IH]; intros [l|] acc s; simpl;
    try reflexivity; try (unfold bind, ret; rewrite app_nil_r; reflexivity).
  unfold bind in *.
  destruct (get_value (Some l) s) as [[v s1]| |]; try reflexivity.
  destruct (get_next (Some l) s1) as [[q s2]| |]; try reflexivity.
  rewrite IH.
  destruct (values_from fuel q s2) as [[vs s3]| |]; try reflexivity.
  unfold ret. rewrite <- app_assoc. reflexivity.
Qed.

Lemma Values_yield_collect (fuel : nat) s :
  Values_yield fuel (fun v acc => (acc ++ [v], true)) [] s = Values fuel s.
Proof.
  unfold Values_yield, Values, get_head. unfold bind at 1 2.
  rewrite values_loop_collect. unfold bind.
  destruct (values_from fuel (head (self s)) s) as [[vs s3]| |]; reflexivity.
Qed.

Lemma Values_yield_represents {A} s ls vs (fuel : nat)
    (yield : T -> A -> A * bool) (a : A) :
  represents s ls vs -> (length ls <= fuel)%nat ->
  Values_yield fuel yield a s = Return (consume yield vs a, s).
Proof.
  intros Hrep Hf. unfold Values_yield, bind, get_head.
  apply (values_loop_chain yield s ls); [apply represents_chain, Hrep|exact Hf].
Qed.

(** X7. On a well-formed deque that holds [vs], [Values]
    hands the elements of [vs] to the consumer in order, from the head
    on, stops as soon as the consumer declines, and leaves the state as
    it was; consumed to the end it yields [vs]. *)
Theorem Values_yield_consume {A} s ls vs (fuel : nat)
    (yield : T -> A -> A * bool) (a : A) :
  represents s ls vs -> (length ls <= fuel)%nat ->
  Values_yield fuel yield a s = Return (consume yield vs a, s) /\
  Values fuel s = Return (vs, s).
Proof.
  intros Hrep Hf. split.
  - apply (Values_yield_represents s ls); assumption.
  - apply (Values_represents s ls); assumption.
Qed.

Lemma consume_indexed {A} (yield : Z -> T -> A -> A * bool) :
  forall vs (k : nat) (a : A),
  Z.of_nat k + Z.of_nat (length vs) <= Int.max_int ->
  snd (consume
         (fun value ia =>
            if snd (yield (fst ia) value (snd ia))
            then ((Int.add (fst ia) 1, fst (yield (fst ia) value (snd ia))), true)
            else ((fst ia, fst (yield (fst ia) value (snd ia))), false))
         vs (Z.of_nat k, a)) =
  consume (fun iv => yield (fst iv) (snd iv))
          (imap (fun i v => (Z.of_nat (k + i), v)) vs) a.
Proof.
  induction vs as [|v vs IH]; intros k a Hk; [reflexivity|].
  simpl in Hk. simpl. rewrite Nat.add_0_r.
  destruct (snd (yield (Z.of_nat k) v a)) eqn:Hy; simpl; [|reflexivity].
  rewrite int_add_small by (unfold Int.min_int, Int.max_int in *; lia).
  replace (Z.of_nat k + 1) with (Z.of_nat (S k)) by lia.
  rewrite IH by lia. f_equal. apply imap_ext. intros i x _. simpl.
  do 2 f_equal. lia.
Qed.

(** X8. On a well-formed deque that holds [vs], [All] hands
    the consumer the pairs [(0, vs[0]), (1, vs[1]), ...] in order until
    it declines, and leaves the state as it was. *)
Theorem All_yield_indices {A} s ls vs (fuel : nat)
    (yield : Z -> T -> A -> A * bool) (a : A) :
  represents s ls vs -> (length ls <= fuel)%nat ->
  All_yield fuel yield a s =
    Return (consume (fun iv => yield (fst iv) (snd iv))
                    (imap (fun i v => (Z.of_nat i, v)) vs) a, s) /\
  All fuel s = Return (imap (fun i v => (Z.of_nat i, v)) vs, s).
Proof.
  intros Hrep Hf. split.
  - unfold All_yield.
    rewrite (bind_eq _ _ s _ s
               (Values_yield_represents s ls vs fuel _ (0, a) Hrep Hf)).
    unfold ret. f_equal. f_equal.
    apply (consume_indexed yield vs O a).
    rewrite (rep_length _ _ _ Hrep). pose proof (rep_range _ _ _ Hrep). lia.
  - unfold All.
    rewrite (bind_eq _ _ s vs s); [reflexivity|].
    apply (Values_represents s ls); assumption.
Qed.

(** ** Count *)

Lemma count_from_chain (value0 : T) s : forall ls vs p (fuel : nat) (i : Z),
  chain (heap s) p ls vs -> (length ls <= fuel)%nat ->
  0 <= i -> i + Z.of_nat (length vs) <= Int.max_int ->
  Forall (fun v => go_eq v value0 <> None) vs ->
  count_from fuel value0 i p s =
    Return (i + Z.of_nat (length (filter (fun v => go_eq v value0 = Some true)
                                         vs)), s).
Proof.
  induction ls as [|l ls IH]; intros [|v vs] p fuel i Hch Hfuel Hi Hb Hcmp;
    simpl in *; try tauto.
  - subst p. rewrite count_from_nil. rewrite Z.add_0_r. reflexivity.
  - destruct Hch as (-> & nd & Hl & Hv & Hch).
    apply Forall_cons in Hcmp as [Hc0 Hcmp].
    destruct fuel as [|fuel]; [lia|]. simpl.
    unfold bind at 1. unfold get_value, bind, deref, ret. rewrite Hl, Hv.
    unfold equal. rewrite filter_cons.
    destruct (go_eq v value0) as [[|]|] eqn:E; [| |contradiction].
    + unfold get_next, bind, deref, ret. rewrite Hl.
      rewrite decide_True by reflexivity.
      rewrite int_add_small by (unfold Int.min_int, Int.max_int in *; lia).
      rewrite (IH vs (next nd) fuel (i + 1) Hch) by (assumption || lia).
      simpl. do 2 f_equal. lia.
    + unfold get_next, bind, deref, ret. rewrite Hl.
      rewrite decide_False by discriminate.
      rewrite (IH vs (next nd) fuel i Hch) by (assumption || lia). reflexivity.
Qed.

Lemma count_from_chain_Panic (value0 : T) s :
  forall ls vs p (fuel : nat) (i : Z),
  chain (heap s) p ls vs -> (length ls <= fuel)%nat ->
  Exists (fun v => go_eq v value0 = None) vs ->
  count_from fuel value0 i p s = Panic.
Proof.
  induction ls as [|l ls IH]; intros [|v vs] p fuel i Hch Hfuel Hex;
    simpl in *; try tauto.
  - inversion Hex.
  - destruct Hch as (-> & nd & Hl & Hv & Hch).
    destruct fuel as [|fuel]; [lia|]. simpl.
    unfold bind at 1. unfold get_value, bind, deref, ret. rewrite Hl, Hv.
    unfold equal.
    destruct (go_eq v value0) as [b|] eqn:E; [|reflexivity].
    apply Exists_cons in Hex as [Hex|Hex]; [congruence|].
    unfold get_next, bind, deref, ret. rewrite Hl.
    apply (IH vs (next nd) fuel _ Hch); [lia|exact Hex].
Qed.

Lemma Count_represents s ls vs (fuel : nat) (value0 : T) :
  represents s ls vs -> (length ls <= fuel)%nat ->
  Forall (fun v => go_eq v value0 <> None) vs ->
  Count fuel value0 s =
    Return (Z.of_nat (length (filter (fun v => go_eq v value0 = Some true)
                                     vs)), s).
Proof.
  intros Hrep Hf Hcmp. unfold Count, bind, get_head.
  rewrite (count_from_chain value0 s ls vs _ fuel 0);
    [reflexivity|apply represents_chain, Hrep|exact Hf|lia| |exact Hcmp].
  rewrite (rep_length _ _ _ Hrep). pose proof (rep_range _ _ _ Hrep). lia.
Qed.

(** X9. On a well-formed deque that holds [vs], [Count(value)] returns
    the number of elements [e] of [vs] for which [e == value] is true,
    and leaves the state as it was, when none of these comparisons
    panics; when one does, [Count] panics. [==] is that of the element
    type: with a [NaN] in the deque [Count(NaN)] is zero. Where [==] is
    equality, as on integers and strings, the result is the number of
    occurrences of [value], and it is zero exactly when [value] is not
    in the deque. *)
Theorem Count_occurrences s ls vs (fuel : nat) (value0 : T) :
  represents s ls vs -> (length ls <= fuel)%nat ->
  (Forall (fun v => go_eq v value0 <> None) vs ->
   Count fuel value0 s =
     Return (Z.of_nat (length (filter (fun v => go_eq v value0 = Some true)
                                      vs)), s)) /\
  (Exists (fun v => go_eq v value0 = None) vs ->
   Count fuel value0 s = Panic) /\
  ((forall a b : T, go_eq a b = Some (bool_decide (a = b))) ->
   Count fuel value0 s =
     Return (Z.of_nat (length (filter (fun v => v = value0) vs)), s) /\
   (value0 ∉ vs <-> Count fuel value0 s = Return (0, s))).
Proof.
  intros Hrep Hf. split; [|split].
  - apply (Count_represents s ls vs); assumption.
  - intros Hex. unfold Count, bind, get_head.
    apply (count_from_chain_Panic value0 s ls vs);
      [apply represents_chain, Hrep|exact Hf|exact Hex].
  - intros Heq.
    assert (Hc : Count fuel value0 s =
              Return (Z.of_nat (length (filter (fun v => v = value0) vs)), s)).
    { rewrite (Count_represents s ls vs fuel value0 Hrep Hf).
      - do 4 f_equal. apply list_filter_iff. intros x. rewrite Heq. split.
        + intros E. injection E as E. apply bool_decide_eq_true in E. exact E.
        + intros ->. rewrite bool_decide_eq_true_2; reflexivity.
      - apply Forall_forall. intros x _. rewrite Heq. discriminate. }
    split; [exact Hc|]. rewrite Hc. split.
    + intros Hnin. do 3 f_equal.
      destruct (filter (fun v => v = value0) vs) as [|x xs] eqn:E; [reflexivity|].
      assert (Hx : x ∈ filter (fun v => v = value0) vs) by (rewrite E; left).
      apply list_elem_of_filter in Hx as [-> Hx]. contradiction.
    + intros E Hin. injection E as E.
      assert (Hin' : value0 ∈ filter (fun v => v = value0) vs)
        by (apply list_elem_of_filter; auto).
      destruct (filter (fun v => v = value0) vs); [inversion Hin'|discriminate].
Qed.

(** ** Insertion *)

Lemma overflow_cases (c n : Z) :
  c < 0 \/ n <= c ->
  (0 <=? c) && (c <? n + 1) = true /\ c = n \/
  (0 <=? c) && (c <? n + 1) = false /\ (c < 0 \/ n < c).
Proof.
  intros Hc.
  destruct (Z.leb_spec 0 c), (Z.ltb_spec c (n + 1)); simpl;
    [left|right|right|right]; split; try reflexivity; lia.
Qed.

Lemma Append_contents s ls vs v :
  represents s ls vs ->
  capacity (self s) < 0 \/ len (self s) <= capacity (self s) ->
  len (self s) < Int.max_int ->
  exists s' ls',
    Append v s = Return (tt, s') /\
    represents s' ls' (keep_last (capacity (self s)) (vs ++ [v])) /\
    capacity (self s') = capacity (self s) /\
    (capacity (self s') < 0 \/ len (self s') <= capacity (self s')) /\
    (length ls' <= S (length ls))%nat.
Proof.
  intros Hrep Hc Hlt.
  pose proof (rep_len _ _ _ Hrep) as Hl.
  pose proof (rep_length _ _ _ Hrep) as Hll.
  destruct (append_spec s ls vs v Hrep) as (s' & Happ & Hrep' & Hcap' & _); [lia|].
  unfold keep_last. rewrite length_app. simpl.
  rewrite Hl in Hc.
  destruct (overflow_cases _ _ Hc) as [(E & Hfull)|(E & Hfree)];
    rewrite E in Hrep'.
  - replace (capacity (self s) <? 0) with false by (symmetry; apply Z.ltb_ge; lia).
    replace (length vs + 1 - Z.to_nat (capacity (self s)))%nat with 1%nat by lia.
    eexists s', _. split; [exact Happ|]. split; [exact Hrep'|].
    split; [exact Hcap'|].
    rewrite (rep_len _ _ _ Hrep'), Hcap', length_drop, (length_app ls). simpl.
    split; lia.
  - eexists s', _. split; [exact Happ|]. split.
    + destruct (Z.ltb_spec (capacity (self s)) 0); [exact Hrep'|].
      replace (length vs + 1 - Z.to_nat (capacity (self s)))%nat with O by lia.
      exact Hrep'.
    + split; [exact Hcap'|].
      rewrite (rep_len _ _ _ Hrep'), Hcap', (length_app ls). simpl. split; lia.
Qed.

Lemma AppendLeft_contents s ls vs v :
  represents s ls vs ->
  capacity (self s) < 0 \/ len (self s) <= capacity (self s) ->
  len (self s) < Int.max_int ->
  exists s' ls',
    AppendLeft v s = Return (tt, s') /\
    represents s' ls' (keep_first (capacity (self s)) (v :: vs)) /\
    capacity (self s') = capacity (self s) /\
    (capacity (self s') < 0 \/ len (self s') <= capacity (self s')) /\
    (length ls' <= S (length ls))%nat.
Proof.
  intros Hrep Hc Hlt.
  pose proof (rep_len _ _ _ Hrep) as Hl.
  pose proof (rep_length _ _ _ Hrep) as Hll.
  destruct (appendLeft_spec s ls vs v Hrep) as (s' & Happ & Hrep' & Hcap' & _); [lia|].
  unfold keep_first.
  rewrite Hl in Hc.
  destruct (overflow_cases _ _ Hc) as [(E & Hfull)|(E & Hfree)];
    rewrite E in Hrep'.
  - replace (capacity (self s) <? 0) with false by (symmetry; apply Z.ltb_ge; lia).
    replace (Z.to_nat (capacity (self s))) with (length vs) by lia.
    eexists s', _. split; [exact Happ|]. split; [exact Hrep'|].
    split; [exact Hcap'|].
    rewrite (rep_len _ _ _ Hrep'), Hcap', length_take. simpl. split; lia.
  - eexists s', _. split; [exact Happ|]. split.
    + destruct (Z.ltb_spec (capacity (self s)) 0); [exact Hrep'|].
      rewrite take_ge by (simpl; lia). exact Hrep'.
    + split; [exact Hcap'|].
      rewrite (rep_len _ _ _ Hrep'), Hcap'. simpl. split; lia.
Qed.

(** X10. On a well-formed deque within its capacity that holds
    [vs], [Append(v)] returns and leaves a well-formed deque that holds
    [vs ++ [v]] when there was room, and [vs ++ [v]] less its first
    element when the deque was full (nothing at all for capacity
    zero). The capacity is kept and is still not exceeded. The length
    is taken to be below the largest [int]. *)
Theorem Append_keeps_last s ls vs v :
  represents s ls vs ->
  capacity (self s) < 0 \/ len (self s) <= capacity (self s) ->
  len (self s) < Int.max_int ->
  exists s' ls',
    Append v s = Return (tt, s') /\
    represents s' ls' (keep_last (capacity (self s)) (vs ++ [v])) /\
    capacity (self s') = capacity (self s) /\
    (capacity (self s') < 0 \/ len (self s') <= capacity (self s')).
Proof.
  intros Hrep Hc Hlt.
  destruct (Append_contents s ls vs v Hrep Hc Hlt)
    as (s' & ls' & Happ & Hrep' & Hcap & Hin & _).
  exists s', ls'. auto.
Qed.

(** X11. On a well-formed deque within its capacity that
    holds [vs], [AppendLeft(v)] returns and leaves a well-formed deque
    that holds [v :: vs] when there was room, and [v :: vs] less its
    last element when the deque was full. The capacity is kept and is
    still not exceeded. The length is taken to be below the largest
    [int]. *)
Theorem AppendLeft_keeps_first s ls vs v :
  represents s ls vs ->
  capacity (self s) < 0 \/ len (self s) <= capacity (self s) ->
  len (self s) < Int.max_int ->
  exists s' ls',
    AppendLeft v s = Return (tt, s') /\
    represents s' ls' (keep_first (capacity (self s)) (v :: vs)) /\
    capacity (self s') = capacity (self s) /\
    (capacity (self s') < 0 \/ len (self s') <= capacity (self s')).
Proof.
  intros Hrep Hc Hlt.
  destruct (AppendLeft_contents s ls vs v Hrep Hc Hlt)
    as (s' & ls' & Happ & Hrep' & Hcap & Hin & _).
  exists s', ls'. auto.
Qed.

(** X12. On a well-formed deque within its capacity, of
    capacity other than zero, the element just inserted is the one
    found at its end: after [Append(v)], [TryPeek(len - 1)] returns
    [v], and after [AppendLeft(v)], [TryPeek(0)] returns [v]. *)
Theorem insertion_then_TryPeek s ls vs v :
  represents s ls vs ->
  capacity (self s) < 0 \/ len (self s) <= capacity (self s) ->
  len (self s) < Int.max_int ->
  capacity (self s) <> 0 ->
  (exists s',
     Append v s = Return (tt, s') /\
     TryPeek (len (self s') - 1) s' = Return ((v, None), s')) /\
  (exists s',
     AppendLeft v s = Return (tt, s') /\
     TryPeek 0 s' = Return ((v, None), s')).
Proof.
  intros Hrep Hc Hlt Hnz.
  pose proof (rep_len _ _ _ Hrep) as Hl.
  pose proof (rep_length _ _ _ Hrep) as Hll.
  rewrite Hl in Hc. split.
  - destruct (append_spec s ls vs v Hrep) as (s' & Happ & Hrep' & _); [lia|].
    exists s'. split; [exact Happ|].
    destruct (overflow_cases _ _ Hc) as [(E & Hfull)|(E & Hfree)];
      rewrite E in Hrep'; rewrite (rep_len _ _ _ Hrep').
    + rewrite length_drop, (length_app ls). simpl.
      replace (Z.of_nat (length ls + 1 - 1) - 1)
        with (Z.of_nat (length ls - 1)) by lia.
      apply (TryPeek_spec s' _ _ _ v Hrep').
      rewrite lookup_drop.
      replace (1 + (length ls - 1))%nat with (length vs) by lia.
      apply lookup_snoc_last.
    + rewrite (length_app ls). simpl.
      replace (Z.of_nat (length ls + 1) - 1) with (Z.of_nat (length ls)) by lia.
      apply (TryPeek_spec s' _ _ _ v Hrep').
      rewrite <- Hll. apply lookup_snoc_last.
  - destruct (appendLeft_spec s ls vs v Hrep) as (s' & Happ & Hrep' & _); [lia|].
    exists s'. split; [exact Happ|].
    destruct (overflow_cases _ _ Hc) as [(E & Hfull)|(E & Hfree)];
      rewrite E in Hrep'.
    + apply (TryPeek_spec s' _ _ O v Hrep').
      destruct vs as [|v0 vs0]; [simpl in Hll; lia|reflexivity].
    + apply (TryPeek_spec s' _ _ O v Hrep'). reflexivity.
Qed.

(** X13. On a well-formed deque with room left, [Append(v)]
    followed by [TryPop()], and [AppendLeft(v)] followed by
    [TryPopLeft()], return a [nil] error and leave a well-formed deque
    of the same nodes and the same elements as before. *)
Theorem insertion_then_pop s ls vs v :
  represents s ls vs ->
  capacity (self s) < 0 \/ len (self s) < capacity (self s) ->
  len (self s) < Int.max_int ->
  (exists s',
     (Append v ;; TryPop) s = Return ((zero, None), s') /\
     represents s' ls vs) /\
  (exists s',
     (AppendLeft v ;; TryPopLeft) s = Return ((zero, None), s') /\
     represents s' ls vs).
Proof.
  intros Hrep Hc Hlt.
  pose proof (rep_len _ _ _ Hrep) as Hl.
  assert (E : (0 <=? capacity (self s)) &&
              (capacity (self s) <? Z.of_nat (length ls) + 1) = false).
  { destruct (Z.leb_spec 0 (capacity (self s))),
             (Z.ltb_spec (capacity (self s)) (Z.of_nat (length ls) + 1));
      simpl; try reflexivity; lia. }
  split.
  - destruct (append_spec s ls vs v Hrep) as (s1 & Happ & Hrep1 & _); [lia|].
    rewrite E in Hrep1.
    destruct (tryPop_spec s1 _ _ _ _ Hrep1) as (s' & Hpop & Hrep' & _).
    exists s'. split; [|exact Hrep'].
    unfold Append. rewrite (bind_eq _ _ _ _ _ Happ). exact Hpop.
  - destruct (appendLeft_spec s ls vs v Hrep) as (s1 & Happ & Hrep1 & _); [lia|].
    rewrite E in Hrep1.
    destruct (tryPopLeft_spec s1 _ _ _ _ Hrep1) as (s' & Hpop & Hrep' & _).
    exists s'. split; [|exact Hrep'].
    unfold AppendLeft. rewrite (bind_eq _ _ _ _ _ Happ). exact Hpop.
Qed.

(** ** Clear *)

(** X14. In every state, [Clear] returns and makes the receiver
    the header of a new deque of the same capacity, without touching
    the heap; appending [vs] afterwards gives a well-formed deque that
    holds the last elements of [vs] the capacity allows, whatever the
    links were before. *)
Theorem Clear_is_NewDeque s vs :
  Clear s = Return (tt, State (heap s) (NewDeque (capacity (self s)))) /\
  (Z.of_nat (length vs) <= Int.max_int \/
   0 <= capacity (self s) < Int.max_int ->
   exists s' ls,
     (Clear ;; append_all vs) s = Return (tt, s') /\
     represents s' ls (keep_last (capacity (self s)) vs) /\
     capacity (self s') = capacity (self s)).
Proof.
  assert (Hc : Clear s = Return (tt, State (heap s) (NewDeque (capacity (self s)))))
    by reflexivity.
  split; [exact Hc|]. intros Hb.
  destruct (append_all_spec (capacity (self s)) vs (heap s) Hb)
    as (s' & ls & Hrun & Hrep & Hcap).
  exists s', ls. split; [|split; [exact Hrep|exact Hcap]].
  rewrite (bind_eq _ _ _ _ _ Hc). exact Hrun.
Qed.

(** ** Construction from a sequence *)

Lemma append_all_fresh C (N0 : nat) vs : forall h0,
  (N0 <= length h0)%nat ->
  Z.of_nat (length vs) <= Int.max_int \/ 0 <= C < Int.max_int ->
  exists s ls,
    append_all vs (State h0 (NewDeque C)) = Return (tt, s) /\
    represents s ls (keep_last C vs) /\
    capacity (self s) = C /\
    (forall l, l ∈ ls -> (N0 <= l)%nat) /\
    (N0 <= length (heap s))%nat /\
    (forall l, (l < N0)%nat -> heap s !! l = h0 !! l).
Proof.
  induction vs as [|v vs IH] using rev_ind; intros h0 HN Hb.
  - exists (State h0 (NewDeque C)), []. split; [reflexivity|].
    replace (keep_last C []) with (@nil T)
      by (unfold keep_last; destruct (C <? 0); reflexivity).
    split; [apply represents_NewDeque|]. split; [reflexivity|].
    split; [intros l Hl; inversion Hl|]. split; [exact HN|reflexivity].
  - rewrite length_app in Hb. simpl in Hb.
    destruct (IH h0 HN) as (s & ls & Hrun & Hrep & Hcap & Hfr & HN' & Hold); [lia|].
    pose proof (keep_last_length C vs) as Hlen.
    pose proof (rep_length _ _ _ Hrep) as Hll.
    assert (Hlt : Z.of_nat (length ls) < Int.max_int).
    { rewrite <- Hll, Hlen. destruct (Z.ltb_spec C 0); lia. }
    destruct (append_spec s ls _ v Hrep Hlt)
      as (s' & Happ & Hrep' & Hcap' & Hlen' & Hframe).
    rewrite append_all_snoc. unfold bind. rewrite Hrun. unfold Append.
    rewrite Happ. rewrite keep_last_snoc. rewrite Hcap, <- Hll in Hrep'.
    assert (Hnew : forall l, l ∈ ls ++ [length (heap s)] -> (N0 <= l)%nat).
    { intros l Hl. apply elem_of_app in Hl as [Hl|Hl]; [apply Hfr, Hl|].
      apply list_elem_of_singleton in Hl. lia. }
    assert (Hold' : forall l, (l < N0)%nat -> heap s' !! l = h0 !! l).
    { intros l Hl. rewrite <- Hold by exact Hl. apply Hframe; [|lia].
      intros Hin. apply Hfr in Hin. lia. }
    destruct ((0 <=? C) && (C <? Z.of_nat (length (keep_last C vs)) + 1)).
    + eexists _, _. split; [reflexivity|]. split; [exact Hrep'|].
      split; [congruence|]. split; [|split; [lia|exact Hold']].
      intros l Hl. apply Hnew.
      apply list_elem_of_lookup_1 in Hl as [i Hi]. rewrite lookup_drop in Hi.
      eapply list_elem_of_lookup_2, Hi.
    + eexists _, _. split; [reflexivity|]. split; [exact Hrep'|].
      split; [congruence|]. split; [exact Hnew|split; [lia|exact Hold']].
Qed.

(** X15. [NewDequeFromSeq(seq, C)] on a finite sequence
    returns a well-formed deque of capacity [C] that holds the last
    [min(len(seq), C)] elements of [seq] (all of them for [C < 0]), in
    nodes allocated by the call; the caller's deque and the nodes
    that existed before are left as they were. *)
Theorem NewDequeFromSeq_keeps_last (seq : list T) (C : Z) s :
  Z.of_nat (length seq) <= Int.max_int \/ 0 <= C < Int.max_int ->
  exists rv s' ls,
    NewDequeFromSeq seq C s = Return (rv, s') /\
    self s' = self s /\
    capacity rv = C /\
    represents (State (heap s') rv) ls (keep_last C seq) /\
    (forall l, l ∈ ls -> (length (heap s) <= l)%nat) /\
    (forall l, (l < length (heap s))%nat -> heap s' !! l = heap s !! l).
Proof.
  intros Hb.
  destruct (append_all_fresh C (length (heap s)) seq (heap s) (le_n _) Hb)
    as ([h' rv] & ls & Hrun & Hrep & Hcap & Hfr & _ & Hold).
  exists rv, (State h' (self s)), ls.
  split; [|split; [reflexivity|split; [exact Hcap|split; [exact Hrep|]]]].
  - unfold NewDequeFromSeq, bind, on_other. rewrite Hrun. reflexivity.
  - split; [exact Hfr|exact Hold].
Qed.

(** ** Every call but [Rotate] returns and keeps the invariant *)

Lemma enough_fuel_le (n m : nat) (c : @call T) :
  enough_fuel n c -> (m <= n)%nat -> enough_fuel m c.
Proof. destruct c; simpl; lia. Qed.

Lemma overflow_split (c n : Z) :
  (0 <=? c) && (c <? n + 1) = true /\ 0 <= c <= n \/
  (0 <=? c) && (c <? n + 1) = false /\ (c < 0 \/ n < c).
Proof.
  destruct (Z.leb_spec 0 c), (Z.ltb_spec c (n + 1)); simpl;
    [left|right|right|right]; split; try reflexivity; lia.
Qed.

Lemma exec_well_formed (c : call) s ls vs :
  (forall a b : T, go_eq a b <> None) ->
  is_Rotate c = false ->
  enough_fuel (length ls) c ->
  represents s ls vs ->
  len (self s) < Int.max_int ->
  exists s' ls' vs',
    exec c s = Return (tt, s') /\
    represents s' ls' vs' /\
    capacity (self s') = capacity (self s) /\
    (length ls' <= S (length ls))%nat /\
    (capacity (self s) < 0 \/ len (self s) <= capacity (self s) ->
     capacity (self s') < 0 \/ len (self s') <= capacity (self s')).
Proof.
  intros Hcmp Hc Hfuel Hrep Hlt.
  pose proof (rep_len _ _ _ Hrep) as Hl.
  pose proof (rep_length _ _ _ Hrep) as Hll.
  pose proof (rep_range _ _ _ Hrep) as Hrg.
  destruct c as [v|v| | | |n|i|fuel|fuel v|fuel]; simpl in Hc, Hfuel; simpl exec.
  - (* Append *)
    destruct (append_spec s ls vs v Hrep) as (s' & Happ & Hrep' & Hcap' & _); [lia|].
    destruct (overflow_split (capacity (self s)) (Z.of_nat (length ls)))
      as [(E & Hfull)|(E & Hfree)]; rewrite E in Hrep';
      eexists s', _, _; (split; [exact Happ|]); (split; [exact Hrep'|]);
      (split; [exact Hcap'|]); rewrite (rep_len _ _ _ Hrep'), Hcap';
      rewrite ?length_drop, (length_app ls); simpl; split; lia.
  - (* AppendLeft *)
    destruct (appendLeft_spec s ls vs v Hrep) as (s' & Happ & Hrep' & Hcap' & _); [lia|].
    destruct (overflow_split (capacity (self s)) (Z.of_nat (length ls)))
      as [(E & Hfull)|(E & Hfree)]; rewrite E in Hrep';
      eexists s', _, _; (split; [exact Happ|]); (split; [exact Hrep'|]);
      (split; [exact Hcap'|]); rewrite (rep_len _ _ _ Hrep'), Hcap';
      rewrite ?length_take; simpl; split; lia.
  - (* TryPop *)
    destruct ls as [|l0 ls0].
    + exists s, [], vs. unfold TryPop.
      rewrite (bind_eq _ _ _ _ _ (tryPop_empty s Hl)).
      split; [reflexivity|]. split; [exact Hrep|]. split; [reflexivity|].
      split; [simpl; lia|tauto].
    + destruct vs as [|v0 vs0]; [discriminate|].
      destruct (snoc_decompose l0 ls0) as (ls' & lz & Els & _).
      destruct (snoc_decompose v0 vs0) as (vs' & vz & Evs & _).
      rewrite Els, Evs in Hrep.
      destruct (tryPop_spec _ _ _ _ _ Hrep) as (s2 & Hpop & Hrep' & Hcap' & _).
      exists s2, ls', vs'. unfold TryPop. rewrite (bind_eq _ _ _ _ _ Hpop).
      split; [reflexivity|]. split; [exact Hrep'|]. split; [exact Hcap'|].
      rewrite (rep_len _ _ _ Hrep'), Hcap', Hl.
      assert (length (l0 :: ls0) = S (length ls'))
        by (rewrite Els, length_app; simpl; lia).
      split; lia.
  - (* TryPopLeft *)
    destruct ls as [|l0 ls0].
    + exists s, [], vs. unfold TryPopLeft.
      rewrite (bind_eq _ _ _ _ _ (tryPopLeft_empty s Hl)).
      split; [reflexivity|]. split; [exact Hrep|]. split; [reflexivity|].
      split; [simpl; lia|tauto].
    + destruct vs as [|v0 vs0]; [discriminate|].
      destruct (tryPopLeft_spec _ _ _ _ _ Hrep) as (s2 & Hpop & Hrep' & Hcap' & _).
      exists s2, ls0, vs0. unfold TryPopLeft. rewrite (bind_eq _ _ _ _ _ Hpop).
      split; [reflexivity|]. split; [exact Hrep'|]. split; [exact Hcap'|].
      rewrite (rep_len _ _ _ Hrep'), Hcap', Hl. simpl length. split; lia.
  - (* Clear *)
    exists (State (heap s) (NewDeque (capacity (self s)))), [], [].
    split; [reflexivity|]. split; [apply represents_NewDeque|].
    split; [reflexivity|]. simpl. split; lia.
  - discriminate Hc.
  - (* TryPeek *)
    exists s, ls, vs.
    assert (Hp : exists r, TryPeek i s = Return (r, s)).
    { destruct (Z.ltb_spec i 0) as [Hneg|Hpos].
      - eexists. apply TryPeek_out_of_bounds. lia.
      - destruct (Z.leb_spec (len (self s)) i) as [Hge|Hin].
        + eexists. apply TryPeek_out_of_bounds. lia.
        + destruct (lookup_lt_is_Some_2 vs (Z.to_nat i)) as [v Hv]; [lia|].
          exists (v, None). rewrite <- (Z2Nat.id i) by lia.
          apply (TryPeek_spec s ls vs); assumption. }
    destruct Hp as [r Hp]. rewrite (bind_eq _ _ _ _ _ Hp).
    split; [reflexivity|]. split; [exact Hrep|]. split; [reflexivity|].
    split; [lia|tauto].
  - (* Values *)
    exists s, ls, vs.
    rewrite (bind_eq _ _ s vs s).
    + split; [reflexivity|]. split; [exact Hrep|]. split; [reflexivity|].
      split; [lia|tauto].
    + unfold Values, bind, get_head.
      apply (values_from_chain s ls); [apply represents_chain, Hrep|exact Hfuel].
  - (* Count *)
    exists s, ls, vs.
    rewrite (bind_eq _ _ s _ s (Count_represents s ls vs fuel v Hrep Hfuel
                                 (proj2 (Forall_forall _ _) (fun x _ => Hcmp x v)))).
    split; [reflexivity|]. split; [exact Hrep|]. split; [reflexivity|].
    split; [lia|tauto].
  - (* Copy *)
    destruct (Copy_spec s ls vs fuel (represents_chain _ _ _ Hrep) Hfuel)
      as (rv & h' & ls2 & Hrun & _ & _ & _ & _ & Hfr & _); [lia|].
    exists (State h' (self s)), ls, vs.
    rewrite (bind_eq _ _ _ _ _ Hrun).
    split; [reflexivity|]. split.
    + destruct s as [h0 d0]. simpl in *.
      apply (represents_frame h0); [|exact Hrep].
      intros l Hin. apply Hfr.
      apply list_elem_of_lookup_1 in Hin as [i Hi].
      apply (linked_bound _ _ _ _ _ (rep_linked _ _ _ Hrep) Hi).
    + split; [reflexivity|]. split; [lia|tauto].
Qed.

Lemma run_well_formed (cs : list call) : forall s ls vs,
  (forall a b : T, go_eq a b <> None) ->
  Forall (fun c => is_Rotate c = false) cs ->
  Forall (enough_fuel (length ls + length cs)) cs ->
  represents s ls vs ->
  Z.of_nat (length ls + length cs) <= Int.max_int ->
  exists s' ls' vs',
    run cs s = Return (tt, s') /\
    represents s' ls' vs' /\
    capacity (self s') = capacity (self s) /\
    (length ls' <= length ls + length cs)%nat.
Proof.
  induction cs as [|c cs IH]; intros s ls vs Hcmp Hnr Hfuel Hrep Hb.
  - exists s, ls, vs. split; [reflexivity|]. split; [exact Hrep|].
    split; [reflexivity|lia].
  - inversion Hnr as [|? ? Hc Hnr']; subst.
    inversion Hfuel as [|? ? Hf Hfuel']; subst. simpl length in *.
    destruct (exec_well_formed c s ls vs Hcmp Hc)
      as (s1 & ls1 & vs1 & Hex & Hrep1 & Hc1 & Hlen1 & _).
    + eapply enough_fuel_le; [exact Hf|lia].
    + exact Hrep.
    + rewrite (rep_len _ _ _ Hrep). lia.
    + destruct (IH s1 ls1 vs1 Hcmp Hnr')
        as (s' & ls' & vs' & Hrun & Hrep' & Hc' & Hlen').
      * eapply Forall_impl; [exact Hfuel'|]. intros c' Hc'.
        eapply enough_fuel_le; [exact Hc'|lia].
      * exact Hrep1.
      * lia.
      * exists s', ls', vs'. simpl. rewrite (bind_eq _ _ _ _ _ Hex).
        split; [exact Hrun|]. split; [exact Hrep'|]. split; [congruence|lia].
Qed.

Lemma run_within_capacity (C : Z) (cs : list call) : forall s ls vs,
  (forall a b : T, go_eq a b <> None) ->
  0 <= C < Int.max_int ->
  Forall (fun c => is_Rotate c = false) cs ->
  Forall (enough_fuel (Z.to_nat C)) cs ->
  represents s ls vs ->
  capacity (self s) = C ->
  len (self s) <= C ->
  exists s' ls' vs',
    run cs s = Return (tt, s') /\
    represents s' ls' vs' /\
    capacity (self s') = C /\
    len (self s') <= C.
Proof.
  induction cs as [|c cs IH]; intros s ls vs Hcmp HC Hnr Hfuel Hrep Hcap Hin.
  - exists s, ls, vs. split; [reflexivity|]. auto.
  - inversion Hnr as [|? ? Hc Hnr']; subst.
    inversion Hfuel as [|? ? Hf Hfuel']; subst.
    pose proof (rep_len _ _ _ Hrep) as Hl.
    destruct (exec_well_formed c s ls vs Hcmp Hc)
      as (s1 & ls1 & vs1 & Hex & Hrep1 & Hc1 & _ & Hin1).
    + eapply enough_fuel_le; [exact Hf|lia].
    + exact Hrep.
    + lia.
    + destruct (IH s1 ls1 vs1 Hcmp HC Hnr' Hfuel' Hrep1 Hc1)
        as (s' & ls' & vs' & Hrun & Hrep' & Hc' & Hin').
      * destruct Hin1 as [Hneg|Hle]; [right; exact Hin| |]; lia.
      * exists s', ls', vs'. simpl. rewrite (bind_eq _ _ _ _ _ Hex).
        split; [exact Hrun|]. auto.
Qed.

(** X16. Where [==] on the element type cannot panic, as on every
    element type that holds no interface value: from a well-formed
    deque, every sequence of calls other than [Rotate] returns, without
    a panic, in a well-formed deque of the same capacity, provided the
    loops of [Values], [Count] and [Copy] have fuel for the nodes there
    can be and the length stays within [int]. *)
Theorem run_keeps_invariant (cs : list call) s ls vs :
  (forall a b : T, go_eq a b <> None) ->
  Forall (fun c => is_Rotate c = false) cs ->
  Forall (enough_fuel (length ls + length cs)) cs ->
  represents s ls vs ->
  Z.of_nat (length ls + length cs) <= Int.max_int ->
  exists s' ls' vs',
    run cs s = Return (tt, s') /\
    represents s' ls' vs' /\
    capacity (self s') = capacity (self s).
Proof.
  intros Hcmp Hnr Hfuel Hrep Hb.
  destruct (run_well_formed cs s ls vs Hcmp Hnr Hfuel Hrep Hb)
    as (s' & ls' & vs' & Hrun & Hrep' & Hc & _).
  exists s', ls', vs'. auto.
Qed.

(** X17. Where [==] on the element type cannot panic, as on every
    element type that holds no interface value: a deque made by
    [NewDeque(C)] with [0 <= C], below the largest [int], never exceeds
    its capacity. Every sequence of calls other than [Rotate], its
    loops given fuel for [C] nodes, returns in a well-formed deque of
    capacity [C] with [0 <= len <= C], and [IsFull()] is then true
    exactly when [len == C]. *)
Theorem bounded_deque_within_capacity (C : Z) (cs : list call)
    (h0 : list (node T)) :
  (forall a b : T, go_eq a b <> None) ->
  0 <= C < Int.max_int ->
  Forall (fun c => is_Rotate c = false) cs ->
  Forall (enough_fuel (Z.to_nat C)) cs ->
  exists s' ls' vs',
    run cs (State h0 (NewDeque C)) = Return (tt, s') /\
    represents s' ls' vs' /\
    capacity (self s') = C /\
    0 <= len (self s') <= C /\
    IsFull s' = Return (len (self s') =? C, s').
Proof.
  intros Hcmp HC Hnr Hfuel.
  destruct (run_within_capacity C cs (State h0 (NewDeque C)) [] [] Hcmp HC Hnr
              Hfuel)
    as (s' & ls' & vs' & Hrun & Hrep' & Hc & Hin).
  - apply represents_NewDeque.
  - reflexivity.
  - simpl. lia.
  - exists s', ls', vs'. split; [exact Hrun|]. split; [exact Hrep'|].
    split; [exact Hc|].
    pose proof (rep_len _ _ _ Hrep') as Hl.
    split; [lia|].
    unfold IsFull, IsUnlimited, GetCapacity, GetLen, bind, ret. rewrite Hc.
    do 2 f_equal.
    destruct (Z.ltb_spec C 0), (Z.leb_spec C (len (self s'))),
      (Z.eqb_spec (len (self s')) C); simpl; try reflexivity; lia.
Qed.

(** ** Rotation *)

Lemma forward_length s ls vs : forward s ls vs -> length vs = length ls.
Proof. intros (_ & Hch & _). eapply chain_length, Hch. Qed.

Lemma Values_forward s ls vs (fuel : nat) :
  forward s ls vs -> (length ls <= fuel)%nat ->
  Values fuel s = Return (vs, s).
Proof.
  intros (_ & Hch & _) Hf. unfold Values, bind, get_head.
  apply (values_from_chain s ls); assumption.
Qed.

Lemma rotate_back {A} (k : nat) (xs : list A) :
  (k <= length xs)%nat -> rotate k (rotate (length xs - k) xs) = xs.
Proof.
  intros Hk. rewrite <- !iter_rotate_left1, <- Nat.iter_add.
  replace (k + (length xs - k))%nat with (length xs) by lia.
  rewrite iter_rotate_left1. apply rotate_full.
Qed.

(** X18. On a well-formed deque of length [L >= 2],
    [Rotate(n)] with [0 <= n < L] returns and moves the last [n]
    elements to the front: [Values] then yields the elements rotated to
    the left by [L - n]. [len] and the capacity are kept; of the links,
    the forward ones are right. *)
Theorem Rotate_right_rotates s ls vs (n : Z) :
  represents s ls vs -> (2 <= length ls)%nat ->
  0 <= n < Z.of_nat (length ls) ->
  exists s',
    Rotate n s = Return (tt, s') /\
    Values (length ls) s' = Return (rotate (length vs - Z.to_nat n) vs, s') /\
    forward s' (rotate (length ls - Z.to_nat n) ls)
               (rotate (length vs - Z.to_nat n) vs) /\
    len (self s') = len (self s) /\
    capacity (self s') = capacity (self s).
Proof.
  intros Hrep Hlen Hn.
  destruct (Rotate_right_spec s ls vs n Hrep Hlen Hn) as (s' & Hrun & Hf & Hl & Hc).
  rewrite (rep_length _ _ _ Hrep).
  exists s'. split; [exact Hrun|]. split; [|auto].
  apply (Values_forward s' _ _ _ Hf). rewrite length_rotate. lia.
Qed.

(** X19. On a deque of length [L >= 2] whose forward links
    are right, [Rotate(n)] with a negative [n] other than the smallest
    [int] returns and moves the first [|n| mod L] elements to the back;
    [len] and the capacity are kept and the forward links are right
    again. *)
Theorem Rotate_left_rotates s ls vs (n : Z) :
  forward s ls vs -> len (self s) = Z.of_nat (length ls) ->
  (2 <= length ls)%nat ->
  Int.min_int < n < 0 ->
  exists s',
    Rotate n s = Return (tt, s') /\
    Values (length ls) s' = Return (rotate (Z.to_nat (- n)) vs, s') /\
    forward s' (rotate (Z.to_nat (- n)) ls) (rotate (Z.to_nat (- n)) vs) /\
    len (self s') = len (self s) /\
    capacity (self s') = capacity (self s).
Proof.
  intros Hf Hl Hlen Hn.
  destruct (Rotate_left_spec s ls vs n Hf Hlen) as (s' & Hrun & Hf' & Hl' & Hc);
    [lia|exact Hn|].
  exists s'. split; [exact Hrun|]. split; [|auto].
  apply (Values_forward s' _ _ _ Hf'). rewrite length_rotate. lia.
Qed.

Lemma Rotate_skip s (n : Z) :
  len (self s) < 2 \/ n = 0 \/ n = Int.min_int ->
  Rotate n s = Return (tt, s).
Proof.
  intros Hn. unfold Rotate, bind, GetLen. cbv beta iota zeta.
  destruct (Z.ltb_spec (len (self s)) 2) as [|Hl]; [reflexivity|].
  destruct Hn as [Hn|[->| ->]]; [lia| |]; reflexivity.
Qed.

(** X20. [Rotate(n)] takes no step and leaves the state as it was on
    a deque of length below two, for [n == 0], and for [n] the smallest
    [int], whose negation wraps around to itself. *)
Theorem Rotate_noop s (n : Z) :
  len (self s) < 2 \/ n = 0 \/ n = Int.min_int ->
  Rotate n s = Return (tt, s).
Proof. apply Rotate_skip. Qed.

(** X21. On a well-formed deque of length [L >= 2],
    [Rotate(k)] followed by [Rotate(-k)], for [0 <= k < L], returns and
    restores the order of the elements: [Values] yields them as
    before. *)
Theorem Rotate_right_then_left s ls vs (k : Z) :
  represents s ls vs -> (2 <= length ls)%nat ->
  0 <= k < Z.of_nat (length ls) ->
  exists s',
    (Rotate k ;; Rotate (- k)) s = Return (tt, s') /\
    Values (length ls) s' = Return (vs, s') /\
    forward s' ls vs /\
    len (self s') = len (self s).
Proof.
  intros Hrep Hlen Hk.
  pose proof (rep_len _ _ _ Hrep) as Hl.
  pose proof (rep_length _ _ _ Hrep) as Hll.
  pose proof (rep_range _ _ _ Hrep) as Hrg.
  destruct (Rotate_right_spec s ls vs k Hrep Hlen Hk) as (s1 & Hrun1 & Hf1 & Hl1 & _).
  destruct (decide (k = 0)) as [->|Hk0].
  - change (- 0) with 0.
    rewrite (bind_eq _ _ _ _ _ Hrun1).
    rewrite (Rotate_skip s1 0) by auto.
    change (Z.to_nat 0) with O in Hf1. rewrite Nat.sub_0_r in Hf1.
    rewrite rotate_full in Hf1. rewrite <- Hll in Hf1 at 1.
    rewrite rotate_full in Hf1.
    exists s1. split; [reflexivity|]. split; [|split; [exact Hf1|exact Hl1]].
    apply (Values_forward s1 _ _ _ Hf1). lia.
  - destruct (Rotate_left_spec s1 _ _ (- k) Hf1) as (s' & Hrun' & Hf' & Hl' & _).
    + rewrite length_rotate. exact Hlen.
    + lia.
    + unfold Int.min_int, Int.max_int in *. lia.
    + rewrite Z.opp_involutive in Hf'.
      rewrite rotate_back in Hf' by lia.
      rewrite <- Hll in Hf' at 1. rewrite rotate_back in Hf' by lia.
      exists s'. split; [rewrite (bind_eq _ _ _ _ _ Hrun1); exact Hrun'|].
      split; [|split; [exact Hf'|congruence]].
      apply (Values_forward s' _ _ _ Hf'). lia.
Qed.

(** X22. On a well-formed deque of length [L >= 2],
    [Rotate(n)] panics for every [n >= L], and so does the second of
    two rotations to the right by [k] and [m] steps with
    [k + m >= L]: the steps to the right add up over calls. *)
Theorem Rotate_right_panics s ls vs :
  represents s ls vs -> (2 <= length ls)%nat ->
  (forall n, Z.of_nat (length ls) <= n -> Rotate n s = Panic) /\
  (forall k m, 0 <= k -> 0 <= m -> Z.of_nat (length ls) <= k + m ->
     (Rotate k ;; Rotate m) s = Panic).
Proof.
  intros Hrep Hlen.
  pose proof (rep_len _ _ _ Hrep) as Hl.
  assert (H1 : forall n, Z.of_nat (length ls) <= n -> Rotate n s = Panic).
  { intros n Hn. apply (Rotate_right_Panic s ls vs); assumption. }
  split; [exact H1|]. intros k m Hk Hm Hkm.
  destruct (Z.le_gt_cases (Z.of_nat (length ls)) k) as [Hge|Hlt].
  { unfold bind. rewrite H1 by exact Hge. reflexivity. }
  destruct (rotateRight_iter (Z.to_nat k) ls vs s [] [])
    as (s1 & Hrun & Hrr & Hl1 & _);
    [lia|apply represents_right_rotated, Hrep|].
  rewrite <- Rotate_nonneg in Hrun by lia.
  rewrite (bind_eq _ _ _ _ _ Hrun).
  rewrite Rotate_nonneg by lia.
  apply (for_range_nat_Panic _ (length (take (length ls - Z.to_nat k) ls)));
    [|rewrite length_take; lia].
  eapply rotateRight_iter_Panic; [| |exact Hrr].
  - intros E. apply (f_equal length) in E. rewrite length_take in E.
    simpl in E. lia.
  - rewrite !length_app, length_drop, length_take. simpl. lia.
Qed.

(** ** Rotation to the left, then to the right *)

(** [rotateLeft] writes [next] fields only: every [prev] stays. *)
Lemma set_next_back_linked p q s s' (B : list loc) :
  set_next p q s = Return (tt, s') ->
  back_linked (heap s) B ->
  back_linked (heap s') B /\ self s' = self s.
Proof.
  unfold set_next, store. destruct p as [l|]; [|discriminate].
  destruct (heap s !! l) as [nd|] eqn:Hl; [|discriminate].
  intros Hr Hb. injection Hr as <-. simpl. split; [|reflexivity].
  intros i l0 Hi. destruct (Hb i l0 Hi) as (nd0 & Hl0 & Hp).
  destruct (decide (l0 = l)) as [->|Hne].
  - eexists. split.
    + apply list_lookup_insert_eq. eapply lookup_lt_Some, Hl.
    + simpl. congruence.
  - exists nd0. split; [|exact Hp].
    rewrite list_lookup_insert_ne by congruence. exact Hl0.
Qed.

Lemma rotateLeft_back_linked s s' (B : list loc) :
  rotateLeft s = Return (tt, s') ->
  back_linked (heap s) B -> back_linked (heap s') B.
Proof.
  unfold rotateLeft. intros Hr Hb.
  apply bind_Return in Hr as (hd & s1 & Hh & Hr). injection Hh as <- <-.
  apply bind_Return in Hr as (n & s2 & Hn & Hr). apply get_next_state in Hn.
  subst s2.
  apply bind_Return in Hr as ([] & s3 & Hs & Hr). injection Hs as <-.
  apply bind_Return in Hr as ([] & s4 & Hs & Hr).
  apply set_next_back_linked with (B := B) in Hs as (Hb4 & _); [|exact Hb].
  apply bind_Return in Hr as (tl & s5 & Ht & Hr). injection Ht as <- <-.
  apply bind_Return in Hr as ([] & s6 & Hs & Hr).
  apply set_next_back_linked with (B := B) in Hs as (Hb6 & _); [|exact Hb4].
  injection Hr as <-. exact Hb6.
Qed.

Lemma rotateLeft_iter_back_linked (k : nat) (B : list loc) : forall s s',
  for_range_nat k rotateLeft s = Return (tt, s') ->
  back_linked (heap s) B -> back_linked (heap s') B.
Proof.
  induction k as [|k IH]; intros s s' Hr Hb; simpl in Hr.
  - injection Hr as <-. exact Hb.
  - apply bind_Return in Hr as ([] & s1 & H1 & Hr).
    eapply IH; [exact Hr|]. eapply rotateLeft_back_linked; eassumption.
Qed.

Lemma Rotate_neg s (n : Z) :
  2 <= len (self s) -> Int.min_int < n < 0 ->
  Rotate n s = for_range_nat (Z.to_nat (- n)) rotateLeft s.
Proof.
  intros Hl Hn. unfold Rotate, bind, GetLen. cbv beta iota zeta.
  destruct (Z.ltb_spec (len (self s)) 2) as [|_]; [lia|].
  destruct (Z.leb_spec 0 n) as [|_]; [lia|].
  destruct (Z.ltb_spec n 0) as [_|]; [|lia].
  unfold for_range, Int.neg.
  rewrite wrap_in_range by (unfold Int.min_int, Int.max_int in *; lia).
  reflexivity.
Qed.

Lemma back_linked_take h (B : list loc) (r : nat) :
  back_linked h B -> back_linked h (take r B).
Proof.
  intros Hb i l Hi. apply lookup_take_Some in Hi as [Hi Hlt].
  destruct (Hb i l Hi) as (nd & Hl & Hp). exists nd. split; [exact Hl|].
  rewrite Hp. destruct i as [|j]; [reflexivity|].
  symmetry. apply lookup_take_lt. lia.
Qed.

Lemma rotate_split {A} (j : nat) (xs : list A) :
  (0 < j)%nat -> xs <> [] ->
  rotate j xs = drop (S ((j - 1) mod length xs)) xs ++
                take (S ((j - 1) mod length xs)) xs.
Proof.
  intros Hj Hx. unfold rotate.
  assert (HL : (0 < length xs)%nat) by (destruct xs; [done|simpl; lia]).
  destruct (decide (j mod length xs = 0)%nat) as [E|E].
  - assert (Hm : ((j - 1) mod length xs = length xs - 1)%nat).
    { apply Nat.Div0.mod_divides in E as [c Hc].
      destruct c as [|c]; [lia|].
      replace (j - 1)%nat with (length xs - 1 + c * length xs)%nat by nia.
      rewrite Nat.Div0.mod_add. apply Nat.mod_small. lia. }
    rewrite E, Hm. replace (S (length xs - 1)) with (length xs) by lia.
    rewrite drop_all, (take_ge xs (length xs)) by lia. simpl.
    rewrite app_nil_r. reflexivity.
  - assert (Hm : (S ((j - 1) mod length xs) = j mod length xs)%nat).
    { pose proof (Nat.div_mod_eq j (length xs)) as Hd.
      pose proof (Nat.mod_upper_bound j (length xs)) as Hu.
      replace (j - 1)%nat
        with ((j mod length xs - 1) + (j / length xs) * length xs)%nat by nia.
      rewrite Nat.Div0.mod_add. rewrite Nat.mod_small by lia. lia. }
    rewrite Hm. reflexivity.
Qed.

(** X23. On a well-formed deque of length [L >= 2], after
    [Rotate(-j)] with [j > 0] a rotation to the right can take
    [(j - 1) mod L] steps and no more: [Rotate(m)] panics for
    [m > (j - 1) mod L], so [Rotate(-1)] followed by [Rotate(1)]
    panics, and otherwise returns with the order such steps give. *)
Theorem Rotate_left_then_right s ls vs (j m : Z) :
  represents s ls vs -> (2 <= length ls)%nat ->
  0 < j <= Int.max_int -> 0 <= m ->
  let r := (j - 1) mod Z.of_nat (length ls) + 1 in
  (r <= m -> (Rotate (- j) ;; Rotate m) s = Panic) /\
  (m < r ->
   exists s',
     (Rotate (- j) ;; Rotate m) s = Return (tt, s') /\
     forward s' (rotate (Z.to_nat (r - m)) ls) (rotate (Z.to_nat (r - m)) vs)).
Proof.
  intros Hrep Hlen Hj Hm r.
  pose proof (rep_len _ _ _ Hrep) as Hl.
  pose proof (rep_length _ _ _ Hrep) as Hll.
  set (rn := S ((Z.to_nat j - 1) mod length ls)).
  assert (Hr : r = Z.of_nat rn).
  { unfold r, rn. rewrite Nat2Z.inj_succ, Nat2Z.inj_mod.
    rewrite Nat2Z.inj_sub by lia. rewrite Z2Nat.id by lia. simpl. lia. }
  assert (Hrn : (1 <= rn <= length ls)%nat).
  { unfold rn. pose proof (Nat.mod_upper_bound (Z.to_nat j - 1) (length ls)). lia. }
  assert (Hrot : forall {A} (xs : list A), xs <> [] -> length xs = length ls ->
            rotate (Z.to_nat j) xs = drop rn xs ++ take rn xs).
  { intros A xs Hx Hxl. unfold rn. rewrite <- Hxl. apply rotate_split; [lia|exact Hx]. }
  clearbody rn.
  (* after the rotation to the left *)
  destruct (Rotate_left_spec s ls vs (- j) (represents_forward _ _ _ Hrep) Hlen)
    as (s1 & Hrun1 & Hf1 & Hl1 & _);
    [lia|unfold Int.min_int, Int.max_int in *; lia|].
  rewrite Z.opp_involutive in Hf1.
  assert (Hb1 : back_linked (heap s1) ls).
  { rewrite Rotate_neg in Hrun1
      by (unfold Int.min_int, Int.max_int in *; lia).
    eapply rotateLeft_iter_back_linked; [exact Hrun1|].
    intros i l Hi. destruct (rep_linked _ _ _ Hrep i l Hi) as (v & _ & Hh).
    eexists. split; [exact Hh|reflexivity]. }
  assert (Hrr : right_rotated s1 (drop rn ls) (take rn ls)
                              (drop rn vs) (take rn vs)).
  { split; [|split].
    - rewrite (Hrot _ ls), (Hrot _ vs) in Hf1;
        [exact Hf1|intros ->; simpl in Hll; lia|exact Hll
        |intros ->; simpl in Hlen; lia|reflexivity].
    - rewrite !length_drop. lia.
    - apply back_linked_take, Hb1. }
  rewrite (bind_eq _ _ _ _ _ Hrun1).
  rewrite Rotate_nonneg by lia.
  split.
  - intros Hge.
    apply (for_range_nat_Panic _ (length (take rn ls))); [|rewrite length_take; lia].
    eapply rotateRight_iter_Panic; [| |exact Hrr].
    + intros E. apply (f_equal length) in E. rewrite length_take in E.
      simpl in E. lia.
    + rewrite length_app, length_drop, length_take. lia.
  - intros Hlt.
    destruct (rotateRight_iter (Z.to_nat m) (take rn ls) (take rn vs) s1
                (drop rn ls) (drop rn vs))
      as (s' & Hrun & ((Hnd & Hch & Htl) & _) & _);
      [rewrite length_take; lia|exact Hrr|].
    exists s'. split; [exact Hrun|].
    rewrite length_take in Hnd, Hch, Htl.
    replace (rn `min` length ls)%nat with rn in Hnd, Hch, Htl by lia.
    replace (Z.to_nat (r - m)) with (rn - Z.to_nat m)%nat by lia.
    remember (rn - Z.to_nat m)%nat as c eqn:Ec0.
    assert (Hc : (1 <= c <= length ls)%nat) by lia.
    assert (Hsplit : forall {A} (xs : list A), length xs = length ls ->
              (drop c (take rn xs) ++ drop rn xs) ++ take c (take rn xs) = rotate c xs).
    { intros A xs Hx.
      destruct (decide (c = length ls)) as [Ec|Ec].
      - assert (Ern : rn = length ls) by lia.
        rewrite Ec, Ern, <- Hx.
        rewrite rotate_full, !(take_ge xs (length xs)) by lia.
        rewrite !drop_all. reflexivity.
      - unfold rotate. rewrite Hx, Nat.mod_small by lia.
        rewrite take_take. replace (c `min` rn)%nat with c by lia.
        f_equal.
        rewrite <- (drop_app_le (take rn xs) (drop rn xs) c)
          by (rewrite length_take; lia).
        rewrite take_drop. reflexivity. }
    rewrite (Hsplit _ ls eq_refl) in Hnd, Hch, Htl.
    rewrite (Hsplit _ vs Hll) in Hch.
    split; [exact Hnd|]. split; [exact Hch|exact Htl].
Qed.

(** ** Copy *)

(** X24. [Copy] of a well-formed deque within its
    capacity returns a well-formed deque of the same capacity and the
    same elements, built from nodes of its own, and leaves the source
    well-formed with its elements. Afterwards no sequence of calls on
    either of the two changes the other. *)
Theorem Copy_equal_and_independent s ls vs (fuel : nat) :
  represents s ls vs -> no_dangling s -> (length ls <= fuel)%nat ->
  capacity (self s) < 0 \/ len (self s) <= capacity (self s) ->
  exists rv s' ls2,
    Copy fuel s = Return (rv, s') /\
    self s' = self s /\
    represents s' ls vs /\
    represents (State (heap s') rv) ls2 vs /\
    capacity rv = capacity (self s) /\
    (forall l, l ∈ ls -> l ∉ ls2) /\
    (forall cs s'',
       run cs s' = Return (tt, s'') ->
       represents (State (heap s'') rv) ls2 vs) /\
    (forall cs s'',
       run cs (State (heap s') rv) = Return (tt, s'') ->
       represents (State (heap s'') (self s)) ls vs).
Proof.
  intros Hrep Hnd Hfuel Hcap.
  pose proof (rep_len _ _ _ Hrep) as Hl.
  pose proof (rep_length _ _ _ Hrep) as Hll.
  pose proof (rep_range _ _ _ Hrep) as Hrg.
  pose proof (represents_chain _ _ _ Hrep) as Hch.
  assert (Hlow : forall l, l ∈ ls -> (l < length (heap s))%nat).
  { intros l Hin. apply list_elem_of_lookup_1 in Hin as [i Hi].
    apply (linked_bound _ _ _ _ _ (rep_linked _ _ _ Hrep) Hi). }
  destruct (Copy_spec s ls vs fuel Hch Hfuel)
    as (rv0 & h' & ls0 & Hrun0 & _ & _ & _ & Hcl & Hfr & _); [lia|].
  destruct (Copy_independent s ls vs fuel Hnd Hch Hfuel)
    as (rv & s' & ls2 & Hrun & Hself & Hc & _ & Hrep2 & _ & Hdis & Hsrc & _);
    [lia|lia|exact Hcap|].
  rewrite Hrun0 in Hrun. injection Hrun as <- <-.
  assert (Hrep' : forall h2, (forall l, (l < length (heap s))%nat -> h2 !! l = heap s !! l) ->
                    represents (State h2 (self s)) ls vs).
  { intros h2 Hh2. destruct s as [h0 d0]. simpl in *.
    apply (represents_frame h0); [|exact Hrep].
    intros l Hin. apply Hh2, Hlow, Hin. }
  exists rv0, (State h' (self s)), ls2.
  split; [exact Hrun0|]. split; [reflexivity|].
  split; [apply Hrep', Hfr|]. split; [exact Hrep2|]. split; [exact Hc|].
  split; [exact Hdis|]. split; [exact Hsrc|].
  intros cs [h'' d''] Hcs. simpl in *.
  destruct (safe_run _ cs _ Hcl _ _ Hcs) as (_ & [_ Hframe] & _).
  simpl in Hframe. apply Hrep'. intros l Hl'.
  rewrite Hframe by lia. apply Hfr, Hl'.
Qed.

(** ** Footprints *)

(** X25. A sequence of calls writes only inside the
    footprint of its deque: from a state closed under a footprint it
    returns in a state closed under it, the heap has only grown, and
    every node outside the footprint is as it was. *)
Theorem run_stays_in_footprint (F : loc -> Prop) (cs : list call) s s' :
  closed F s ->
  run cs s = Return (tt, s') ->
  closed F s' /\
  (length (heap s) <= length (heap s'))%nat /\
  (forall l, ~ F l -> heap s' !! l = heap s !! l).
Proof.
  intros Hcl Hrun.
  destruct (safe_run F cs s Hcl tt s' Hrun) as (Hcl' & (Hlen & Hfr) & _).
  auto.
Qed.

(** ** What no call does *)

Lemma extends_refl s : extends s s.
Proof. split; [reflexivity|]. intros l nd Hl. eauto. Qed.

Lemma extends_trans s1 s2 s3 : extends s1 s2 -> extends s2 s3 -> extends s1 s3.
Proof.
  intros [Hc1 Hv1] [Hc2 Hv2]. split; [congruence|].
  intros l nd Hl. destruct (Hv1 l nd Hl) as (nd1 & Hl1 & E1).
  destruct (Hv2 l nd1 Hl1) as (nd2 & Hl2 & E2). exists nd2. split; congruence.
Qed.

Lemma stable_ret {A} (a : A) : stable (ret a : M T A).
Proof. intros s a' s' Hr. injection Hr as _ <-. apply extends_refl. Qed.

Lemma stable_bind {A B} (m : M T A) (k : A -> M T B) :
  stable m -> (forall a, stable (k a)) -> stable (bind m k).
Proof.
  intros Hm Hk s b s' Hr. apply bind_Return in Hr as (a & s1 & H1 & H2).
  eapply extends_trans; [eapply Hm, H1|eapply Hk, H2].
Qed.

Lemma stable_panic {A} : stable (panic : M T A).
Proof. intros s a s' Hr. discriminate Hr. Qed.

Lemma stable_out_of_fuel {A} : stable (out_of_fuel : M T A).
Proof. intros s a s' Hr. discriminate Hr. Qed.

Lemma stable_header {A} (m : M T A) :
  (forall s a s', m s = Return (a, s') ->
     heap s' = heap s /\ capacity (self s') = capacity (self s)) ->
  stable m.
Proof.
  intros Hm s a s' Hr. destruct (Hm s a s' Hr) as [Hh Hc].
  split; [exact Hc|]. rewrite Hh. eauto.
Qed.

Lemma stable_get_head : stable (get_head : M T ptr).
Proof. apply stable_header. intros s a s' Hr. injection Hr as _ <-. auto. Qed.

Lemma stable_get_tail : stable (get_tail : M T ptr).
Proof. apply stable_header. intros s a s' Hr. injection Hr as _ <-. auto. Qed.

Lemma stable_GetLen : stable (GetLen : M T Z).
Proof. apply stable_header. intros s a s' Hr. injection Hr as _ <-. auto. Qed.

Lemma stable_GetCapacity : stable (GetCapacity : M T Z).
Proof. apply stable_header. intros s a s' Hr. injection Hr as _ <-. auto. Qed.

Lemma stable_set_head p : stable (set_head p : M T unit).
Proof. apply stable_header. intros s [] s' Hr. injection Hr as <-. auto. Qed.

Lemma stable_set_tail p : stable (set_tail p : M T unit).
Proof. apply stable_header. intros s [] s' Hr. injection Hr as <-. auto. Qed.

Lemma stable_set_len (n : Z) : stable (set_len n : M T unit).
Proof. apply stable_header. intros s [] s' Hr. injection Hr as <-. auto. Qed.

Lemma stable_deref p : stable (deref p : M T (node T)).
Proof.
  apply stable_header. intros s a s' Hr. apply deref_state in Hr. subst. auto.
Qed.

Lemma stable_get_value p : stable (get_value p : M T T).
Proof. apply stable_bind; [apply stable_deref|intros; apply stable_ret]. Qed.

Lemma stable_get_next p : stable (get_next p : M T ptr).
Proof. apply stable_bind; [apply stable_deref|intros; apply stable_ret]. Qed.

Lemma stable_get_prev p : stable (get_prev p : M T ptr).
Proof. apply stable_bind; [apply stable_deref|intros; apply stable_ret]. Qed.

Lemma stable_store p (f : node T -> node T) :
  (forall nd, value (f nd) = value nd) -> stable (store p f).
Proof.
  intros Hf s [] s' Hr. unfold store in Hr. destruct p as [l|]; [|discriminate].
  destruct (heap s !! l) as [nd|] eqn:Hl; [|discriminate].
  injection Hr as <-. split; [reflexivity|]. simpl. intros l0 nd0 Hl0.
  destruct (decide (l0 = l)) as [->|Hne].
  - exists (f nd). split.
    + apply list_lookup_insert_eq. eapply lookup_lt_Some, Hl.
    + rewrite Hf. congruence.
  - exists nd0. split; [|reflexivity].
    rewrite list_lookup_insert_ne by congruence. exact Hl0.
Qed.

Lemma stable_set_next p q : stable (set_next p q : M T unit).
Proof. apply stable_store. reflexivity. Qed.

Lemma stable_set_prev p q : stable (set_prev p q : M T unit).
Proof. apply stable_store. reflexivity. Qed.

Lemma stable_new_node (v : T) : stable (new_node v : M T ptr).
Proof.
  intros s a s' Hr. injection Hr as _ <-. split; [reflexivity|]. simpl.
  intros l nd Hl. exists nd. split; [|reflexivity].
  apply lookup_app_l_Some, Hl.
Qed.

Ltac stable_step :=
  first
    [ apply stable_get_head | apply stable_get_tail
    | apply stable_GetLen | apply stable_GetCapacity
    | apply stable_set_head | apply stable_set_tail | apply stable_set_len
    | apply stable_get_next | apply stable_get_prev | apply stable_get_value
    | apply stable_set_next | apply stable_set_prev | apply stable_new_node
    | apply stable_ret | apply stable_panic | apply stable_out_of_fuel
    | match goal with
      | |- stable (if ?c then _ else _) => destruct c
      end
    | (apply stable_bind; [|intros ?]) ].

Ltac stable_auto := cbv zeta; repeat stable_step.

Lemma stable_isOverflowing : stable (isOverflowing : M T bool).
Proof. unfold isOverflowing, IsUnlimited. stable_auto. Qed.

Lemma stable_tryPop : stable (tryPop : M T (T * option error)).
Proof. unfold tryPop. stable_auto. Qed.

Lemma stable_tryPopLeft : stable (tryPopLeft : M T (T * option error)).
Proof. unfold tryPopLeft. stable_auto. Qed.

Lemma stable_append (v : T) : stable (append v).
Proof.
  unfold append.
  do 5 (apply stable_bind; [stable_auto|intros ?]).
  apply stable_bind; [apply stable_isOverflowing|intros o].
  destruct o; [|stable_auto].
  apply stable_bind; [apply stable_tryPopLeft|intros ?]. stable_auto.
Qed.

Lemma stable_appendLeft (v : T) : stable (appendLeft v).
Proof.
  unfold appendLeft.
  do 5 (apply stable_bind; [stable_auto|intros ?]).
  apply stable_bind; [apply stable_isOverflowing|intros o].
  destruct o; [|stable_auto].
  apply stable_bind; [apply stable_tryPop|intros ?]. stable_auto.
Qed.

Lemma stable_for_range_nat (n : nat) (body : M T unit) :
  stable body -> stable (for_range_nat n body).
Proof.
  intros Hb. induction n as [|n IH]; simpl; [apply stable_ret|].
  apply stable_bind; [exact Hb|intros ?; exact IH].
Qed.

Lemma stable_Rotate (n : Z) : stable (Rotate n : M T unit).
Proof.
  unfold Rotate. apply stable_bind; [apply stable_GetLen|intros l].
  destruct (l <? 2); [apply stable_ret|]. cbv zeta. unfold for_range.
  apply stable_for_range_nat.
  destruct (0 <=? n); [unfold rotateRight|unfold rotateLeft]; stable_auto.
Qed.

Lemma stable_walk (step : ptr -> M T ptr) :
  (forall p, stable (step p)) -> forall k p, stable (walk step k p).
Proof.
  intros Hs k. induction k as [|k IH]; intros p; simpl; [apply stable_ret|].
  apply stable_bind; [apply Hs|intros q; apply IH].
Qed.

Lemma stable_TryPeek (index : Z) :
  stable (TryPeek index : M T (T * option error)).
Proof.
  intros s a s' Hr. apply TryPeek_state in Hr. subst. apply extends_refl.
Qed.

Lemma stable_Values (fuel : nat) : stable (Values fuel : M T (list T)).
Proof.
  intros s a s' Hr. apply bind_Return in Hr as (p & s2 & Hh & Hr).
  injection Hh as <- <-. apply values_from_state in Hr. subst.
  apply extends_refl.
Qed.

Lemma stable_Count (fuel : nat) (v : T) : stable (Count fuel v).
Proof.
  intros s a s' Hr. apply bind_Return in Hr as (p & s2 & Hh & Hr).
  injection Hh as <- <-. apply count_from_state in Hr. subst.
  apply extends_refl.
Qed.

Lemma stable_on_other {A} (rv : Deque) (m : M T A) :
  stable m -> stable (on_other rv m).
Proof.
  intros Hm s [a rv'] s' Hr. unfold on_other in Hr.
  destruct (m (State (heap s) rv)) as [[a' s1]| |] eqn:Hm1; try discriminate.
  injection Hr as <- <- <-. destruct (Hm _ _ _ Hm1) as [_ Hv].
  split; [reflexivity|exact Hv].
Qed.

Lemma stable_copy_loop (fuel : nat) : forall p rv, stable (copy_loop fuel p rv).
Proof.
  induction fuel as [|fuel IH]; intros [l|] rv; simpl;
    try apply stable_ret; try apply stable_out_of_fuel.
  apply stable_bind; [apply stable_get_value|intros v].
  apply stable_bind; [apply stable_on_other, stable_append|intros r].
  apply stable_bind; [apply stable_get_next|intros q]. apply IH.
Qed.

Lemma stable_exec (c : call) : stable (exec c).
Proof.
  destruct c; simpl;
    try (apply stable_bind; [|intros ?; apply stable_ret]).
  - apply stable_append.
  - apply stable_appendLeft.
  - apply stable_tryPop.
  - apply stable_tryPopLeft.
  - unfold Clear. stable_auto.
  - apply stable_Rotate.
  - apply stable_TryPeek.
  - apply stable_Values.
  - apply stable_Count.
  - unfold Copy. apply stable_bind; [apply stable_GetCapacity|intros c].
    cbv zeta. apply stable_bind; [apply stable_get_head|intros p].
    apply stable_copy_loop.
Qed.

Lemma stable_run (cs : list call) : stable (run cs).
Proof.
  induction cs as [|c cs IH]; simpl; [apply stable_ret|].
  apply stable_bind; [apply stable_exec|intros _; exact IH].
Qed.

(** X26. No sequence of calls, [Rotate] included,
    in any state, changes the capacity of the deque, removes a node
    from the heap or changes the value stored in a node. *)
Theorem run_keeps_capacity_and_values (cs : list call) s s' :
  run cs s = Return (tt, s') ->
  GetCapacity s' = Return (capacity (self s), s') /\
  (length (heap s) <= length (heap s'))%nat /\
  forall l nd, heap s !! l = Some nd ->
    exists nd', heap s' !! l = Some nd' /\ value nd' = value nd.
Proof.
  intros Hrun. destruct (stable_run cs s tt s' Hrun) as [Hc Hv].
  split; [unfold GetCapacity; rewrite Hc; reflexivity|]. split; [|exact Hv].
  destruct (heap s) as [|nd0 h0] eqn:Eh using rev_ind; [simpl; lia|].
  destruct (Hv (length h0) nd0) as (nd' & Hl & _); [apply lookup_snoc_last|].
  apply lookup_lt_Some in Hl. rewrite length_app. simpl. lia.
Qed.

(** ** What still works on a rotated deque *)




End More.

(** ** Witnesses at concrete deques of [int] *)

Lemma deque_123_represents : represents deque_123 [O; 1%nat; 2%nat] [1; 2; 3].
Proof. apply representsb_sound. vm_compute. reflexivity. Qed.

Lemma deque_full_12_represents : represents deque_full_12 [O; 1%nat] [1; 2].
Proof. apply representsb_sound. vm_compute. reflexivity. Qed.

Lemma deque_any_represents :
  represents deque_any [O; 1%nat] [AnyInt 1; AnySlice [2]].
Proof. apply representsb_sound. vm_compute. reflexivity. Qed.

Lemma int_eq_is_equality (a b : Z) : go_eq a b = Some (bool_decide (a = b)).
Proof.
  unfold go_eq, Z_comparable. f_equal.
  destruct (Z.eqb_spec a b) as [E|E];
    [rewrite bool_decide_eq_true_2|rewrite bool_decide_eq_false_2];
    auto.
Qed.

Lemma int_eq_never_panics (a b : Z) : go_eq a b <> None.
Proof. rewrite int_eq_is_equality. discriminate. Qed.

Lemma deque_123_no_dangling : no_dangling deque_123.
Proof.
  split; [simpl; lia|]. split; [simpl; lia|].
  intros [|[|[|l]]] nd Hl; simpl in Hl; try discriminate;
    injection Hl as <-; simpl; lia.
Qed.

Lemma TryPop_removes_last_witness :
  exists s',
    TryPop deque_123 = Return ((0, None), s') /\
    represents s' [O; 1%nat] [1; 2] /\
    len (self s') = 3 - 1 /\
    capacity (self s') = 5 /\
    Values 2 s' = Return ([1; 2], s').
Proof.
  exact (TryPop_removes_last deque_123 2%nat [O; 1%nat] 3 [1; 2]
           deque_123_represents).
Defined.

Lemma TryPopLeft_removes_first_witness :
  exists s',
    TryPopLeft deque_123 = Return ((0, None), s') /\
    represents s' [1%nat; 2%nat] [2; 3] /\
    len (self s') = 3 - 1 /\
    capacity (self s') = 5 /\
    Values 2 s' = Return ([2; 3], s').
Proof.
  exact (TryPopLeft_removes_first deque_123 O [1%nat; 2%nat] 1 [2; 3]
           deque_123_represents).
Defined.

Lemma pops_return_zero_value_witness :
  TryPop deque_full_12 =
    Return ((0, None),
            State [Node 1 None None; Node 2 None None]
                  (mkDeque (Some O) (Some O) 1 2)) /\
  fst ((0, None) : Z * option error) = 0.
Proof.
  assert (Hpop : TryPop deque_full_12 =
            Return ((0, None),
                    State [Node 1 None None; Node 2 None None]
                          (mkDeque (Some O) (Some O) 1 2)))
    by (vm_compute; reflexivity).
  split; [exact Hpop|].
  exact (pops_return_zero_value deque_full_12 (0, None) _ (or_introl Hpop)).
Defined.

Lemma TryPeek_returns_element_witness :
  exists v,
    [1; 2; 3] !! Z.to_nat 1 = Some v /\
    TryPeek 1 deque_123 = Return ((v, None), deque_123).
Proof.
  apply (TryPeek_returns_element deque_123 _ _ 1 deque_123_represents).
  simpl. lia.
Defined.

Lemma Peek_panics_iff_witness :
  Peek 7 deque_123 = Panic /\ Peek 1 deque_123 = Return (2, deque_123).
Proof.
  pose proof (Peek_panics_iff deque_123 _ _ 7 deque_123_represents) as [H7 _].
  pose proof (Peek_panics_iff deque_123 _ _ 1 deque_123_represents) as [_ H1].
  split; [apply H7; right; simpl; lia|apply H1; [lia|reflexivity]].
Defined.

Lemma Values_yield_consume_witness :
  Values_yield 3 (fun v a => (a + v, v <? 2)) 0 deque_123 =
    Return (3, deque_123) /\
  Values 3 deque_123 = Return ([1; 2; 3], deque_123).
Proof.
  apply (Values_yield_consume deque_123 _ _ 3 (fun v a => (a + v, v <? 2)) 0
           deque_123_represents).
  simpl. lia.
Defined.

Lemma All_yield_indices_witness :
  All_yield 3 (fun i v a => (a + i * v, true)) 0 deque_123 =
    Return (8, deque_123) /\
  All 3 deque_123 = Return ([(0, 1); (1, 2); (2, 3)], deque_123).
Proof.
  apply (All_yield_indices deque_123 _ _ 3 (fun i v a => (a + i * v, true)) 0
           deque_123_represents).
  simpl. lia.
Defined.

Lemma Count_occurrences_witness :
  Count 3 2 deque_123 = Return (1, deque_123) /\
  (2 ∉ [1; 2; 3] <-> Count 3 2 deque_123 = Return (0, deque_123)) /\
  Count 2 (AnyInt 1) deque_any = Return (1, deque_any) /\
  Count 2 (AnySlice [3]) deque_any = Panic.
Proof.
  destruct (Count_occurrences deque_123 [O; 1%nat; 2%nat] [1; 2; 3] 3 2
              deque_123_represents (le_n 3)) as (_ & _ & Hint).
  destruct (Count_occurrences deque_any [O; 1%nat] [AnyInt 1; AnySlice [2]]
              2%nat (AnyInt 1) deque_any_represents (le_n 2)) as (Hret & _ & _).
  destruct (Count_occurrences deque_any [O; 1%nat] [AnyInt 1; AnySlice [2]]
              2%nat (AnySlice [3]) deque_any_represents (le_n 2))
    as (_ & Hpanic & _).
  split; [exact (proj1 (Hint int_eq_is_equality))|].
  split; [exact (proj2 (Hint int_eq_is_equality))|].
  split.
  - apply Hret. repeat constructor; discriminate.
  - apply Hpanic. apply Exists_cons_tl, Exists_cons_hd. reflexivity.
Defined.

Lemma Append_keeps_last_witness :
  exists s' ls',
    Append 3 deque_full_12 = Return (tt, s') /\
    represents s' ls' [2; 3] /\
    capacity (self s') = 2 /\
    (capacity (self s') < 0 \/ len (self s') <= capacity (self s')).
Proof.
  apply (Append_keeps_last deque_full_12 _ _ 3 deque_full_12_represents).
  - right. simpl. lia.
  - unfold Int.max_int. simpl. lia.
Defined.

Lemma AppendLeft_keeps_first_witness :
  exists s' ls',
    AppendLeft 0 deque_full_12 = Return (tt, s') /\
    represents s' ls' [0; 1] /\
    capacity (self s') = 2 /\
    (capacity (self s') < 0 \/ len (self s') <= capacity (self s')).
Proof.
  apply (AppendLeft_keeps_first deque_full_12 _ _ 0 deque_full_12_represents).
  - right. simpl. lia.
  - unfold Int.max_int. simpl. lia.
Defined.

Lemma insertion_then_TryPeek_witness :
  (exists s',
     Append 3 deque_full_12 = Return (tt, s') /\
     TryPeek (len (self s') - 1) s' = Return ((3, None), s')) /\
  (exists s',
     AppendLeft 3 deque_full_12 = Return (tt, s') /\
     TryPeek 0 s' = Return ((3, None), s')).
Proof.
  apply (insertion_then_TryPeek deque_full_12 _ _ 3 deque_full_12_represents).
  - right. simpl. lia.
  - unfold Int.max_int. simpl. lia.
  - simpl. lia.
Defined.

Lemma insertion_then_pop_witness :
  (exists s',
     (Append 4 ;; TryPop) deque_123 = Return ((0, None), s') /\
     represents s' [O; 1%nat; 2%nat] [1; 2; 3]) /\
  (exists s',
     (AppendLeft 4 ;; TryPopLeft) deque_123 = Return ((0, None), s') /\
     represents s' [O; 1%nat; 2%nat] [1; 2; 3]).
Proof.
  apply (insertion_then_pop deque_123 _ _ 4 deque_123_represents).
  - right. simpl. lia.
  - unfold Int.max_int. simpl. lia.
Defined.

Lemma NewDequeFromSeq_keeps_last_witness :
  exists rv s' ls,
    NewDequeFromSeq [7; 8; 9] 2 deque_123 = Return (rv, s') /\
    self s' = self deque_123 /\
    capacity rv = 2 /\
    represents (State (heap s') rv) ls [8; 9] /\
    (forall l, l ∈ ls -> (3 <= l)%nat) /\
    (forall l, (l < 3)%nat -> heap s' !! l = heap deque_123 !! l).
Proof.
  apply (NewDequeFromSeq_keeps_last [7; 8; 9] 2 deque_123).
  right. unfold Int.max_int. lia.
Defined.

Lemma run_keeps_invariant_witness :
  exists s' ls' vs',
    run [CallAppend 4; CallTryPopLeft; CallValues 9; CallCopy 9; CallClear;
         CallAppendLeft 7] deque_123 = Return (tt, s') /\
    represents s' ls' vs' /\
    capacity (self s') = 5.
Proof.
  apply (run_keeps_invariant
           [CallAppend 4; CallTryPopLeft; CallValues 9; CallCopy 9; CallClear;
            CallAppendLeft 7] deque_123 [O; 1%nat; 2%nat] [1; 2; 3]).
  - exact int_eq_never_panics.
  - repeat constructor.
  - repeat (constructor; [simpl; lia|]). constructor.
  - exact deque_123_represents.
  - unfold Int.max_int. simpl. lia.
Defined.

Lemma bounded_deque_within_capacity_witness :
  exists s' ls' vs',
    run [CallAppend 1; CallAppendLeft 0; CallAppend 2; CallCount 2 1;
         CallTryPop; CallAppend 3]
        (State [] (NewDeque 2)) = Return (tt, s') /\
    represents s' ls' vs' /\
    capacity (self s') = 2 /\
    0 <= len (self s') <= 2 /\
    IsFull s' = Return (len (self s') =? 2, s').
Proof.
  apply (bounded_deque_within_capacity 2
           [CallAppend 1; CallAppendLeft 0; CallAppend 2; CallCount 2 1;
            CallTryPop; CallAppend 3] []).
  - exact int_eq_never_panics.
  - unfold Int.max_int. lia.
  - repeat constructor.
  - repeat (constructor; [simpl; lia|]). constructor.
Defined.

Lemma Rotate_right_rotates_witness :
  exists s',
    Rotate 1 deque_123 = Return (tt, s') /\
    Values 3 s' = Return ([3; 1; 2], s') /\
    forward s' [2%nat; O; 1%nat] [3; 1; 2] /\
    len (self s') = 3 /\
    capacity (self s') = 5.
Proof.
  apply (Rotate_right_rotates deque_123 _ _ 1 deque_123_represents).
  - simpl. lia.
  - simpl. lia.
Defined.

Lemma Rotate_left_rotates_witness :
  exists s',
    Rotate (-1) deque_123 = Return (tt, s') /\
    Values 3 s' = Return ([2; 3; 1], s') /\
    forward s' [1%nat; 2%nat; O] [2; 3; 1] /\
    len (self s') = 3 /\
    capacity (self s') = 5.
Proof.
  apply (Rotate_left_rotates deque_123 [O; 1%nat; 2%nat] [1; 2; 3] (-1)).
  - apply represents_forward, deque_123_represents.
  - reflexivity.
  - simpl. lia.
  - unfold Int.min_int. lia.
Defined.

Lemma Rotate_noop_witness :
  Rotate Int.min_int deque_123 = Return (tt, deque_123).
Proof.
  apply (Rotate_noop deque_123 Int.min_int). right. right. reflexivity.
Defined.

Lemma Rotate_right_then_left_witness :
  exists s',
    (Rotate 2 ;; Rotate (- 2)) deque_123 = Return (tt, s') /\
    Values 3 s' = Return ([1; 2; 3], s') /\
    forward s' [O; 1%nat; 2%nat] [1; 2; 3] /\
    len (self s') = 3.
Proof.
  apply (Rotate_right_then_left deque_123 _ _ 2 deque_123_represents).
  - simpl. lia.
  - simpl. lia.
Defined.

Lemma Rotate_right_panics_witness :
  Rotate 3 deque_123 = Panic /\ (Rotate 1 ;; Rotate 2) deque_123 = Panic.
Proof.
  destruct (Rotate_right_panics deque_123 _ _ deque_123_represents)
    as [H1 H2]; [simpl; lia|].
  split; [apply H1; simpl; lia|apply H2; simpl; lia].
Defined.

Lemma Rotate_left_then_right_witness :
  (Rotate (- 1) ;; Rotate 1) deque_123 = Panic /\
  exists s',
    (Rotate (- 2) ;; Rotate 1) deque_123 = Return (tt, s') /\
    forward s' [1%nat; 2%nat; O] [2; 3; 1].
Proof.
  split.
  - apply (Rotate_left_then_right deque_123 _ _ 1 1 deque_123_represents);
      [simpl; lia|unfold Int.max_int; lia|lia|].
    vm_compute. intros E. discriminate E.
  - apply (Rotate_left_then_right deque_123 _ _ 2 1 deque_123_represents);
      [simpl; lia|unfold Int.max_int; lia|lia|].
    vm_compute. reflexivity.
Defined.

Lemma Copy_equal_and_independent_witness :
  exists rv s' ls2,
    Copy 3 deque_123 = Return (rv, s') /\
    self s' = self deque_123 /\
    represents s' [O; 1%nat; 2%nat] [1; 2; 3] /\
    represents (State (heap s') rv) ls2 [1; 2; 3] /\
    capacity rv = 5 /\
    (forall l, l ∈ [O; 1%nat; 2%nat] -> l ∉ ls2) /\
    (forall cs s'',
       run cs s' = Return (tt, s'') ->
       represents (State (heap s'') rv) ls2 [1; 2; 3]) /\
    (forall cs s'',
       run cs (State (heap s') rv) = Return (tt, s'') ->
       represents (State (heap s'') (self deque_123)) [O; 1%nat; 2%nat]
                  [1; 2; 3]).
Proof.
  apply (Copy_equal_and_independent deque_123 _ _ 3 deque_123_represents
           deque_123_no_dangling).
  - simpl. lia.
  - right. simpl. lia.
Defined.

Lemma run_stays_in_footprint_witness :
  exists s',
    run [CallAppend 1; CallAppend 2; CallAppend 3; CallRotate 1]
        (State [Node 9 None None] (NewDeque 2)) = Return (tt, s') /\
    closed (fun l => (1 <= l)%nat) s' /\
    (1 <= length (heap s'))%nat /\
    (forall l, ~ (1 <= l)%nat ->
       heap s' !! l = [Node 9 None None] !! l).
Proof.
  eexists. split; [vm_compute; reflexivity|].
  apply (run_stays_in_footprint (fun l => (1 <= l)%nat)
           [CallAppend 1; CallAppend 2; CallAppend 3; CallRotate 1]
           (State [Node 9 None None] (NewDeque 2))).
  - apply (closed_NewDeque [Node 9 None None] 2).
  - vm_compute. reflexivity.
Defined.

Lemma run_keeps_capacity_and_values_witness :
  exists s',
    run [CallAppend 4; CallRotate 2; CallTryPop; CallRotate (-1); CallClear]
        deque_123 = Return (tt, s') /\
    GetCapacity s' = Return (5, s') /\
    (3 <= length (heap s'))%nat /\
    forall l nd, heap deque_123 !! l = Some nd ->
      exists nd', heap s' !! l = Some nd' /\ value nd' = value nd.
Proof.
  eexists. split; [vm_compute; reflexivity|].
  apply (run_keeps_capacity_and_values
           [CallAppend 4; CallRotate 2; CallTryPop; CallRotate (-1); CallClear]
           deque_123).
  vm_compute. reflexivity.
Defined.



